(** * A chunked file store: put / get / delete over a part registry

    Shallow embedding of [run.py].  One handler invocation is modelled as a
    function on the state of the [FileStorageSystem] object together with
    the disk and the text written to standard output.

    - A handler runs on its own: no other thread changes the state while it
      runs.  What other threads do to it is felt through the locks only: the
      outcome of every timed [acquire] is decided by the environment and
      read from the [oracle] carried by the state, as is the outcome of every
      dispatch to the worker pool (which may raise) and, for a dispatch of
      [save_file] that raises, which of its items were saved.  The
      interleaving of the reservations of several threads is the subject of
      [admission_step].
    - [wait_for(predicate, timeout=5)] returns the value of the predicate:
      when it does not hold, nothing in this thread makes it hold, and the
      handler goes round its loop again.  Loops that may go round for ever
      take [fuel]; [None] stands for a loop that has not ended yet.
    - The disk is a map from paths to contents.  A source opened for reading
      yields the content it had when opened, which is what a put reads as
      long as its source is not one of the part files it writes; a
      destination opened with mode ["wb"] is emptied and holds what has been
      written to it, the opening and the writes of a get going through.
    - Command lines are ASCII text.
    - Each handler returns, besides the state, the [return] statement through
      which it left.  In the source they are told apart by what was written
      to standard output.
    - The command loop is given by what it does for the lines it reads: the
      messages it writes, the threads it starts and its exit.  A started
      thread is a handler run as above. *)

From stdpp Require Import gmap strings list fin_maps pretty.
From Stdlib Require Import ZArith Lia Ascii.

Open Scope Z_scope.
Open Scope nat_scope.

Abbreviation bytes := (list Byte.byte).

(** ** External libraries: [hashlib.md5(..).hexdigest()] and [zlib] *)

Class Codec := {
  md5_hexdigest : bytes → string;
  zlib_compress : bytes → bytes;
  (** [None] stands for [zlib.error]. *)
  zlib_decompress : bytes → option bytes;
}.

Class CodecLaws `{Codec} := {
  zlib_decompress_compress : ∀ data, zlib_decompress (zlib_compress data) = Some data;
}.

(** ** Data model *)

(** [class File] *)
Record File := mkFile {
  file_id : nat;
  file_name : string;
  file_status : bool;
  file_part_count : nat;
}.

(** [class FilePart]; [part_hash = None] is Python's [None]. *)
Record FilePart := mkFilePart {
  part_id : nat;
  part_parent_id : nat;
  part_path : string;
  part_hash : option string;
  part_status : bool;
  part_index : nat;
}.

(** [f"{parent_id}_{index}.PART"] *)
Definition part_name (parent_id index : nat) : string :=
  pretty parent_id +:+ "_" +:+ pretty index +:+ ".PART".

(** [FilePart.__init__] *)
Definition FilePart_init (_id parent_id : nat) (_hash : option string)
    (status : bool) (index : nat) : FilePart :=
  mkFilePart _id parent_id (part_name parent_id index) _hash status index.

(** The exceptions met. [PoolError] stands for what a dispatch to the pool
    raises otherwise than from a worker that reads a part file: the pool has
    been shut, or a worker could not write. *)
Inductive exn :=
  | FileNotFoundError | KeyError | IndexError | TypeError | zlib_error | PoolError.

(** One constructor per [sys.stdout.write] of the handlers. *)
Inductive Message :=
  | Put_wrong_arguments
  | Put_file_id_lock_timed_out
  | Put_part_id_lock_timed_out
  | Put_could_not_release
  | Put_failed_to_notify
  | Put_completed (file_name : string)
  | Put_failed (e : exn)
  | Get_wrong_arguments
  | Get_invalid_id
  | Get_does_not_exist
  | Get_not_ready
  | Get_hash_mismatch
  | Get_could_not_release
  | Get_failed_to_notify
  | Get_failed (e : exn)
  | Delete_wrong_arguments
  | Delete_invalid_id
  | Delete_does_not_exist
  | Delete_not_ready
  | Delete_error
  | Delete_failed (e : exn)
  | List_line (id : nat) (name : string).

(** The object [FileStorageSystem], the registries it owns, the disk, the
    standard output and the pending answers of the environment. *)
Record FileStorageSystem := mkSystem {
  parts_directory : string;
  memory_limit : Z;
  memory_usage : Z;
  file_next_id : nat;                       (* file_registry.next_id *)
  files : gmap nat File;                    (* file_registry.files *)
  part_next_id : nat;                       (* file_part_registry.next_id *)
  parts : gmap nat (list FilePart);         (* file_part_registry.parts *)
  disk : gmap string bytes;
  stdout : list Message;
  oracle : list bool;
}.

Definition set_memory_usage (u : Z) (s : FileStorageSystem) :=
  mkSystem (parts_directory s) (memory_limit s) u (file_next_id s) (files s)
           (part_next_id s) (parts s) (disk s) (stdout s) (oracle s).
Definition set_file_next_id (n : nat) (s : FileStorageSystem) :=
  mkSystem (parts_directory s) (memory_limit s) (memory_usage s) n (files s)
           (part_next_id s) (parts s) (disk s) (stdout s) (oracle s).
Definition set_files (m : gmap nat File) (s : FileStorageSystem) :=
  mkSystem (parts_directory s) (memory_limit s) (memory_usage s) (file_next_id s) m
           (part_next_id s) (parts s) (disk s) (stdout s) (oracle s).
Definition set_part_next_id (n : nat) (s : FileStorageSystem) :=
  mkSystem (parts_directory s) (memory_limit s) (memory_usage s) (file_next_id s)
           (files s) n (parts s) (disk s) (stdout s) (oracle s).
Definition set_parts (m : gmap nat (list FilePart)) (s : FileStorageSystem) :=
  mkSystem (parts_directory s) (memory_limit s) (memory_usage s) (file_next_id s)
           (files s) (part_next_id s) m (disk s) (stdout s) (oracle s).
Definition set_disk (d : gmap string bytes) (s : FileStorageSystem) :=
  mkSystem (parts_directory s) (memory_limit s) (memory_usage s) (file_next_id s)
           (files s) (part_next_id s) (parts s) d (stdout s) (oracle s).
Definition set_oracle (o : list bool) (s : FileStorageSystem) :=
  mkSystem (parts_directory s) (memory_limit s) (memory_usage s) (file_next_id s)
           (files s) (part_next_id s) (parts s) (disk s) (stdout s) o.

(** [sys.stdout.write] *)
Definition say (m : Message) (s : FileStorageSystem) :=
  mkSystem (parts_directory s) (memory_limit s) (memory_usage s) (file_next_id s)
           (files s) (part_next_id s) (parts s) (disk s) (stdout s ++ [m]) (oracle s).

(** [set_constants] *)
Definition part_size : nat := 1024.
Definition batch_size : nat := 10.

(** [load_config] and [__init__]: [max_memory] is given in MiB. *)
Definition FileStorageSystem_init (parts_dir : string) (max_memory : Z)
    (d : gmap string bytes) (env : list bool) : FileStorageSystem :=
  mkSystem parts_dir (max_memory * 1024 * 1024)%Z 0%Z 0 ∅ 0 ∅ d [] env.

(** ** The environment *)

(** A timed [acquire(blocking=True, timeout=5)] or a dispatch to the worker
    pool asks the environment whether it goes through; an exhausted oracle
    answers yes (no contention, no fault). *)
Definition consult (s : FileStorageSystem) : bool * FileStorageSystem :=
  match oracle s with
  | [] => (true, s)
  | b :: o => (b, set_oracle o s)
  end.

(** ** Memory admission *)

(** [needed_memory = self.part_size * self.batch_size] *)
Definition needed_memory : Z := (Z.of_nat part_size * Z.of_nat batch_size)%Z.

(** The predicate handed to [wait_for]; without another thread changing
    [memory_usage] while this one waits, [wait_for] returns its value. *)
Definition admits (s : FileStorageSystem) : bool :=
  bool_decide (memory_usage s + needed_memory < memory_limit s)%Z.

(** [self.memory_usage += needed_memory] *)
Definition reserve (s : FileStorageSystem) : FileStorageSystem :=
  set_memory_usage (memory_usage s + needed_memory)%Z s.

(** [self.memory_usage -= needed_memory] *)
Definition release (s : FileStorageSystem) : FileStorageSystem :=
  set_memory_usage (memory_usage s - needed_memory)%Z s.

(** The full path handed to the workers: [self.parts_directory + part.path]. *)
Definition store_path (s : FileStorageSystem) (part : FilePart) : string :=
  parts_directory s +:+ part_path part.

(** ** Command words *)

Definition is_digit (a : ascii) : bool :=
  (48 <=? nat_of_ascii a) && (nat_of_ascii a <=? 57).

(** [str.isascii]. The command lines considered are ASCII text, on which
    [str.split], [str.isdigit] and [int] are as given here. *)
Definition isascii (w : string) : bool :=
  forallb (λ a, nat_of_ascii a <? 128) (String.list_ascii_of_string w).

(** [str.isdigit] on ASCII text *)
Definition isdigit (w : string) : bool :=
  match w with
  | EmptyString => false
  | _ => forallb is_digit (String.list_ascii_of_string w)
  end.

(** [int] on a string of decimal digits *)
Definition int (w : string) : nat :=
  fold_left (λ acc a, 10 * acc + (nat_of_ascii a - 48)) (String.list_ascii_of_string w) 0.

(** How a handler's loop hands control back. [locked] is the value of the
    local [locked_memory] at that point. *)
Inductive flow :=
  | Finished (locked : bool) (s : FileStorageSystem)
  | Returned (s : FileStorageSystem)
  | Raised (e : exn) (locked : bool) (s : FileStorageSystem).

(** The [except Exception] clause of put and of get. *)
Definition on_exception (failed : exn → Message) (could_not_release : Message)
    (e : exn) (locked : bool) (s : FileStorageSystem) : FileStorageSystem :=
  let s := say (failed e) s in
  if negb locked then s
  else
    let '(ok, s) := consult s in
    if negb ok then say could_not_release s
    else release s.

Section Handlers.
Context `{Codec}.

(** ** Put *)

(** [save_file] *)
Definition save_file (data : bytes) (path : string) (d : gmap string bytes)
    : string * gmap string bytes :=
  let md5 := md5_hexdigest data in
  let compressed := zlib_compress data in
  (md5, <[path := compressed]> d).

Fixpoint save_all (batch : list (bytes * string)) (d : gmap string bytes)
    : list string * gmap string bytes :=
  match batch with
  | [] => ([], d)
  | (data, path) :: rest =>
      let '(md5, d) := save_file data path d in
      let '(result, d) := save_all rest d in
      (md5 :: result, d)
  end.

(** The items of a dispatch that raises. The pool hands every item of the
    batch to a worker whatever becomes of the others, and the call raises
    once all of them are through; so the environment says, item by item,
    whether its file has been written. It has not when [save_file] raised
    before writing, or when the worker did not get to the item. *)
Fixpoint save_some (batch : list (bytes * string)) (s : FileStorageSystem)
    : FileStorageSystem :=
  match batch with
  | [] => s
  | (data, path) :: rest =>
      let '(written, s) := consult s in
      if written then save_some rest (set_disk (save_file data path (disk s)).2 s)
      else save_some rest s
  end.

(** [self.io.starmap(save_file, batch)]: the environment says whether the
    call returns, every item saved, or raises, some items saved. *)
Definition starmap_save (batch : list (bytes * string)) (s : FileStorageSystem)
    : exn * FileStorageSystem + list string * FileStorageSystem :=
  let '(ok, s) := consult s in
  if negb ok then inl (PoolError, save_some batch s)
  else
    let '(result, d) := save_all batch (disk s) in
    inr (result, set_disk d s).

(** What the [for i in range(self.batch_size)] loop of put leaves behind. *)
Inductive filled :=
  | Fill_returned (s : FileStorageSystem)
  | Fill_raised (e : exn) (s : FileStorageSystem)
  | Fill_done (file_finished : bool) (reader : bytes) (index : nat)
      (batch : list (bytes * string)) (file_parts : list FilePart)
      (s : FileStorageSystem).

(** Lines 136-162. [reader] holds the bytes of the source not read yet. *)
Fixpoint put_fill (n : nat) (file_id : nat) (reader : bytes) (index : nat)
    (batch : list (bytes * string)) (file_parts : list FilePart)
    (s : FileStorageSystem) : filled :=
  match n with
  | 0 => Fill_done false reader index batch file_parts s
  | S n =>
      let '(ok, s) := consult s in
      if negb ok then
        let s := say Put_part_id_lock_timed_out s in
        let '(ok, s) := consult s in
        if negb ok then Fill_returned (say Put_could_not_release s)
        else Fill_returned (release s)
      else
        let _part_id := part_next_id s in
        let s := set_part_next_id (part_next_id s + 1) s in
        let part := take part_size reader in
        let reader := drop part_size reader in
        match part with
        | [] => Fill_done true reader index batch file_parts s
        | _ =>
            let file_part := FilePart_init _part_id file_id None false index in
            match parts s !! file_id with
            | None => Fill_raised KeyError s
            | Some l =>
                let s := set_parts (<[file_id := l ++ [file_part]]> (parts s)) s in
                put_fill n file_id reader (index + 1)
                         (batch ++ [(part, store_path s file_part)])
                         (file_parts ++ [file_part]) s
            end
        end
  end.

(** Lines 166-168: the entry at position [part.index] of the registered
    sequence receives the hash and [status = True]. *)
Fixpoint put_record (file_id : nat) (file_parts : list FilePart)
    (result : list string) (s : FileStorageSystem)
    : exn * FileStorageSystem + FileStorageSystem :=
  match file_parts with
  | [] => inr s
  | part :: file_parts =>
      match result with
      | [] => inl (IndexError, s)
      | h :: result =>
          match parts s !! file_id with
          | None => inl (KeyError, s)
          | Some l =>
              match l !! part_index part with
              | None => inl (IndexError, s)
              | Some p =>
                  let p := mkFilePart (part_id p) (part_parent_id p) (part_path p)
                                      (Some h) true (part_index p) in
                  let s := set_parts (<[file_id := <[part_index part := p]> l]> (parts s)) s in
                  put_record file_id file_parts result s
              end
          end
      end
  end.

(** The [while not file_finished] loop, lines 122-176. [None]: the loop is
    still running when [fuel] iterations have been made. *)
Fixpoint put_loop (fuel : nat) (file_id : nat) (reader : bytes) (index : nat)
    (locked : bool) (s : FileStorageSystem) : option flow :=
  match fuel with
  | 0 => None
  | S fuel =>
      let '(ok, s) := consult s in
      if negb ok then put_loop fuel file_id reader index locked s
      else if negb (admits s) then put_loop fuel file_id reader index locked s
      else
        let s := reserve s in
        match put_fill batch_size file_id reader index [] [] s with
        | Fill_returned s => Some (Returned s)
        | Fill_raised e s => Some (Raised e true s)
        | Fill_done file_finished reader index batch file_parts s =>
            match starmap_save batch s with
            | inl (e, s) => Some (Raised e true s)
            | inr (result, s) =>
                match put_record file_id file_parts result s with
                | inl (e, s) => Some (Raised e true s)
                | inr s =>
                    let '(ok, s) := consult s in
                    if negb ok then
                      let s := say Put_failed_to_notify s in
                      if file_finished then Some (Finished true s)
                      else put_loop fuel file_id reader index true s
                    else
                      let s := release s in
                      if file_finished then Some (Finished false s)
                      else put_loop fuel file_id reader index false s
                end
            end
        end
  end.

(** The return statement through which a put leaves. *)
Inductive put_exit :=
  | Put_rejected           (* line 101 or 107: nothing registered *)
  | Put_done               (* the end of the [try] body, line 180 *)
  | Put_aborted            (* line 141 or 146 *)
  | Put_excepted.          (* the [except] clause *)

Definition put_except (e : exn) (locked : bool) (s : FileStorageSystem) :=
  (on_exception Put_failed Put_could_not_release e locked s, Put_excepted).

(** [handle_put_command]; [words] is [command.split()]. The reader is the
    content of the source when opened, which is what the reads return as
    long as the put does not write the file it reads. *)
Definition handle_put_command (fuel : nat) (words : list string)
    (s : FileStorageSystem) : option (FileStorageSystem * put_exit) :=
  match words with
  | [_; name] =>
      let '(ok, s) := consult s in
      if negb ok then Some (say Put_file_id_lock_timed_out s, Put_rejected)
      else
        let _file_id := file_next_id s in
        let s := set_file_next_id (file_next_id s + 1) s in
        let file := mkFile _file_id name false 0 in
        let s := set_files (<[_file_id := file]> (files s)) s in
        match disk s !! name with
        | None => Some (put_except FileNotFoundError false s)
        | Some reader =>
            let s := set_parts (<[_file_id := @nil FilePart]> (parts s)) s in
            match put_loop fuel _file_id reader 0 false s with
            | None => None
            | Some (Returned s) => Some (s, Put_aborted)
            | Some (Raised e locked s) => Some (put_except e locked s)
            | Some (Finished locked s) =>
                match files s !! _file_id, parts s !! _file_id with
                | Some f, Some l =>
                    let f := mkFile (file_id f) (file_name f) true (length l) in
                    let s := set_files (<[_file_id := f]> (files s)) s in
                    Some (say (Put_completed name) s, Put_done)
                | _, _ => Some (put_except KeyError locked s)
                end
            end
        end
  | _ => Some (say Put_wrong_arguments s, Put_rejected)
  end.

(** ** Get *)

(** [read_file]; the result pairs [ok] with the bytes, [None] being
    Python's [None]. *)
Definition read_file (expected_md5 : option string) (path : string)
    (d : gmap string bytes) : exn + bool * option bytes :=
  match d !! path with
  | None => inl FileNotFoundError
  | Some compressed =>
      match zlib_decompress compressed with
      | None => inl zlib_error
      | Some decompressed =>
          let md5 := md5_hexdigest decompressed in
          if bool_decide (Some md5 ≠ expected_md5) then inr (false, None)
          else inr (true, Some decompressed)
      end
  end.

Fixpoint read_all (batch : list (option string * string)) (d : gmap string bytes)
    : exn + list (bool * option bytes) :=
  match batch with
  | [] => inr []
  | (expected_md5, path) :: rest =>
      match read_file expected_md5 path d with
      | inl e => inl e
      | inr r =>
          match read_all rest d with
          | inl e => inl e
          | inr result => inr (r :: result)
          end
      end
  end.

(** [self.io.starmap(read_file, batch)]: every item is loaded before the
    call returns, and the call raises when an item raised. *)
Definition starmap_read (batch : list (option string * string))
    (s : FileStorageSystem)
    : exn * FileStorageSystem + list (bool * option bytes) * FileStorageSystem :=
  let '(ok, s) := consult s in
  if negb ok then inl (PoolError, s)
  else
    match read_all batch (disk s) with
    | inl e => inl (e, s)
    | inr result => inr (result, s)
    end.

(** [writer.write(data)] on the destination opened at [name]. *)
Definition write (name : string) (data : bytes) (s : FileStorageSystem) :=
  set_disk (<[name := default [] (disk s !! name) ++ data]> (disk s)) s.

Inductive emitted :=
  | Emit_returned (s : FileStorageSystem)
  | Emit_raised (e : exn) (s : FileStorageSystem)
  | Emit_done (s : FileStorageSystem).

(** Lines 234-246: the results of one batch, in order. *)
Fixpoint get_emit (name : string) (result : list (bool * option bytes))
    (s : FileStorageSystem) : emitted :=
  match result with
  | [] => Emit_done s
  | (ok, data) :: result =>
      if negb ok then
        let s := say Get_hash_mismatch s in
        let '(ok, s) := consult s in
        if negb ok then Emit_returned (say Get_could_not_release s)
        else Emit_returned (release s)
      else
        match data with
        | None => Emit_raised TypeError s
        | Some data => get_emit name result (write name data s)
        end
  end.

(** [file_parts[start:end]] *)
Definition slice {A} (start end_ : nat) (l : list A) : list A :=
  take (end_ - start) (drop start l).

(** The [while index*self.batch_size < len(file_parts)] loop, lines 215-254.
    Get does not change the part sequence, so the alias [file_parts] is
    passed by value. *)
Fixpoint get_loop (fuel : nat) (name : string) (file_parts : list FilePart)
    (index : nat) (locked : bool) (s : FileStorageSystem) : option flow :=
  match fuel with
  | 0 => None
  | S fuel =>
      if negb (index * batch_size <? length file_parts) then Some (Finished locked s)
      else
        let '(ok, s) := consult s in
        if negb ok then get_loop fuel name file_parts index locked s
        else if negb (admits s) then get_loop fuel name file_parts index locked s
        else
          let s := reserve s in
          let start := index * batch_size in
          let end_ := (index + 1) * batch_size in
          let end_ := if end_ <? length file_parts then end_ else length file_parts in
          let batch := (λ part, (part_hash part, store_path s part))
                         <$> slice start end_ file_parts in
          let index := index + 1 in
          match starmap_read batch s with
          | inl (e, s) => Some (Raised e true s)
          | inr (result, s) =>
              match get_emit name result s with
              | Emit_returned s => Some (Returned s)
              | Emit_raised e s => Some (Raised e true s)
              | Emit_done s =>
                  let '(ok, s) := consult s in
                  if negb ok then
                    get_loop fuel name file_parts index true (say Get_failed_to_notify s)
                  else
                    get_loop fuel name file_parts index false (release s)
              end
          end
  end.

(** The return statement through which a get leaves. *)
Inductive get_exit :=
  | Get_rejected           (* lines 197, 201, 205, 209 *)
  | Get_uncaught (e : exn) (* line 210, outside the [try] *)
  | Get_done               (* the end of the [try] body *)
  | Get_aborted            (* line 240 or 245 *)
  | Get_excepted.          (* the [except] clause *)

(** [handle_get_command]; [words] is [command.split()]. Opening the
    destination with mode ["wb"] empties it. *)
Definition handle_get_command (fuel : nat) (words : list string)
    (s : FileStorageSystem) : option (FileStorageSystem * get_exit) :=
  match words with
  | [_; raw_file_id] =>
      if negb (isdigit raw_file_id) then Some (say Get_invalid_id s, Get_rejected)
      else
        let _file_id := int raw_file_id in
        match files s !! _file_id with
        | None => Some (say Get_does_not_exist s, Get_rejected)
        | Some file =>
            if negb (file_status file) then Some (say Get_not_ready s, Get_rejected)
            else
              match parts s !! file_id file with
              | None => Some (s, Get_uncaught KeyError)
              | Some file_parts =>
                  let s := set_disk (<[file_name file := []]> (disk s)) s in
                  match get_loop fuel (file_name file) file_parts 0 false s with
                  | None => None
                  | Some (Finished _ s) => Some (s, Get_done)
                  | Some (Returned s) => Some (s, Get_aborted)
                  | Some (Raised e locked s) =>
                      Some (on_exception Get_failed Get_could_not_release e locked s,
                            Get_excepted)
                  end
              end
        end
  | _ => Some (say Get_wrong_arguments s, Get_rejected)
  end.

End Handlers.

(** ** Delete *)

(** [delete_file]: [os.remove] fails on a path that is not there. *)
Definition delete_file (path : string) (d : gmap string bytes)
    : bool * gmap string bytes :=
  match d !! path with
  | Some _ => (true, delete path d)
  | None => (false, d)
  end.

Fixpoint delete_all (batch : list string) (d : gmap string bytes)
    : list bool * gmap string bytes :=
  match batch with
  | [] => ([], d)
  | path :: rest =>
      let '(r, d) := delete_file path d in
      let '(result, d) := delete_all rest d in
      (r :: result, d)
  end.

(** [self.io.map(delete_file, batch)] *)
Definition map_delete (batch : list string) (s : FileStorageSystem)
    : exn * FileStorageSystem + list bool * FileStorageSystem :=
  let '(ok, s) := consult s in
  if negb ok then inl (PoolError, s)
  else
    let '(result, d) := delete_all batch (disk s) in
    inr (result, set_disk d s).

(** Lines 293-294: [parts[file.id][j].status = False] for [j] in
    [range(start, start + n)]. *)
Fixpoint delete_mark (file_id : nat) (start n : nat) (s : FileStorageSystem)
    : exn * FileStorageSystem + FileStorageSystem :=
  match n with
  | 0 => inr s
  | S n =>
      match parts s !! file_id with
      | None => inl (KeyError, s)
      | Some l =>
          match l !! start with
          | None => inl (IndexError, s)
          | Some p =>
              let p := mkFilePart (part_id p) (part_parent_id p) (part_path p)
                                  (part_hash p) false (part_index p) in
              delete_mark file_id (S start) n
                          (set_parts (<[file_id := <[start := p]> l]> (parts s)) s)
          end
      end
  end.

(** Lines 296-300; [len_result] is [len(result)] and [i] the position of
    the head of [result] in the enumeration. *)
Fixpoint delete_erase (file_id index len_result i : nat) (result : list bool)
    (s : FileStorageSystem) : exn * FileStorageSystem + FileStorageSystem :=
  match result with
  | [] => inr s
  | delete_result :: result =>
      if delete_result then
        match parts s !! file_id with
        | None => inl (KeyError, s)
        | Some l =>
            let k := index * batch_size + len_result - i - 1 in
            if k <? length l then
              delete_erase file_id index len_result (S i) result
                           (set_parts (<[file_id := delete k l]> (parts s)) s)
            else inl (IndexError, s)
        end
      else
        delete_erase file_id index len_result (S i) result (say Delete_error s)
  end.

(** One turn of the [while index >= 0] loop, lines 289-300. The alias
    [file_parts] is the registered sequence itself, which the loop edits,
    so it is looked up again whenever it is used. *)
Definition delete_batch (file_id index : nat) (s : FileStorageSystem)
    : exn * FileStorageSystem + FileStorageSystem :=
  match parts s !! file_id with
  | None => inl (KeyError, s)
  | Some file_parts =>
      let start := index * batch_size in
      let end_ := (index + 1) * batch_size in
      let end_ := if end_ <? length file_parts then end_ else length file_parts in
      let batch := store_path s <$> slice start end_ file_parts in
      match delete_mark file_id start (end_ - start) s with
      | inl r => inl r
      | inr s =>
          match map_delete batch s with
          | inl r => inl r
          | inr (result, s) => delete_erase file_id index (length result) 0 result s
          end
      end
  end.

(** The loop itself: [index] runs down to 0 and the loop ends when it
    becomes negative. *)
Fixpoint delete_loop (index : nat) (file_id : nat) (s : FileStorageSystem)
    : exn * FileStorageSystem + FileStorageSystem :=
  match delete_batch file_id index s with
  | inl r => inl r
  | inr s =>
      match index with
      | 0 => inr s
      | S index => delete_loop index file_id s
      end
  end.

Inductive delete_exit :=
  | Delete_rejected           (* lines 271, 275, 279, 283 *)
  | Delete_uncaught (e : exn) (* line 285, outside the [try] *)
  | Delete_done               (* line 302 *)
  | Delete_excepted.          (* the [except] clause *)

(** [handle_delete_command]; [words] is [command.split()]. *)
Definition handle_delete_command (words : list string) (s : FileStorageSystem)
    : FileStorageSystem * delete_exit :=
  match words with
  | [_; raw_file_id] =>
      if negb (isdigit raw_file_id) then (say Delete_invalid_id s, Delete_rejected)
      else
        let _file_id := int raw_file_id in
        match files s !! _file_id with
        | None => (say Delete_does_not_exist s, Delete_rejected)
        | Some file =>
            if negb (file_status file) then (say Delete_not_ready s, Delete_rejected)
            else
              let file' := mkFile (file_id file) (file_name file) false
                                  (file_part_count file) in
              let s := set_files (<[_file_id := file']> (files s)) s in
              match parts s !! file_id file with
              | None => (s, Delete_uncaught KeyError)
              | Some file_parts =>
                  let index := length file_parts / batch_size in
                  match delete_loop index (file_id file) s with
                  | inl (e, s) => (say (Delete_failed e) s, Delete_excepted)
                  | inr s =>
                      (set_files (delete _file_id (files s)) s, Delete_done)
                  end
              end
        end
  | _ => (say Delete_wrong_arguments s, Delete_rejected)
  end.

(** ** List *)

(** [handle_list_command] writes one line per registered file and changes
    nothing else. The lines come in the order of the keys here and in the
    order of registration in the source; nothing below depends on it. *)
Definition handle_list_command (s : FileStorageSystem) : FileStorageSystem :=
  foldl (λ s f, say (List_line (file_id f) (file_name f)) s) s
        (snd <$> map_to_list (files s)).

(** ** The command loop *)

(** The characters on which [str.split()] cuts ASCII text: tab, line feed,
    vertical tab, form feed, carriage return, the four separators
    [0x1c .. 0x1f] and the space. *)
Definition is_space (a : ascii) : bool :=
  ((9 <=? nat_of_ascii a) && (nat_of_ascii a <=? 13))
  || ((28 <=? nat_of_ascii a) && (nat_of_ascii a <=? 32)).

(** [str.split()] with [word] the word being read. *)
Fixpoint split_from (word : string) (text : string) : list string :=
  match text with
  | EmptyString =>
      match word with
      | EmptyString => []
      | _ => [word]
      end
  | String a text =>
      if is_space a then
        match word with
        | EmptyString => split_from "" text
        | _ => word :: split_from "" text
        end
      else split_from (word +:+ String a "") text
  end.

(** [user_input.split()] *)
Definition split (text : string) : list string := split_from "" text.

(** The keys of [self.commands]. *)
Inductive handler := Put | Get | Delete | List | Exit.

(** [self.commands[command] if command in self.commands else None] *)
Definition commands (command : string) : option handler :=
  if bool_decide (command = "put") then Some Put
  else if bool_decide (command = "get") then Some Get
  else if bool_decide (command = "delete") then Some Delete
  else if bool_decide (command = "list") then Some List
  else if bool_decide (command = "exit") then Some Exit
  else None.

(** What [accept_commands] does for one line. *)
Inductive event :=
  | Unknown_command                             (* lines 83 and 88 *)
  | Started (h : handler) (user_input : string) (* lines 93-94 *)
  | Exited.                                     (* lines 91-92 *)

(** [accept_commands]. [stdin] holds the lines still to be read, each with
    its line end; at the end of the input [readline] returns the empty
    string. The result is what has been done after [fuel] turns of the
    [while True] loop, and whether the loop has been left. *)
Fixpoint accept_commands (fuel : nat) (stdin : list string) : list event * bool :=
  match fuel with
  | 0 => ([], false)
  | S fuel =>
      let user_input := hd EmptyString stdin in
      let stdin := tl stdin in
      match split user_input with
      | [] =>
          let '(events, returned) := accept_commands fuel stdin in
          (Unknown_command :: events, returned)
      | command :: _ =>
          match commands command with
          | None =>
              let '(events, returned) := accept_commands fuel stdin in
              (Unknown_command :: events, returned)
          | Some Exit => ([Exited], true)
          | Some h =>
              let '(events, returned) := accept_commands fuel stdin in
              (Started h user_input :: events, returned)
          end
      end
  end.

(** The end of a line as [readline] returns it. *)
Definition line_end : string := String (ascii_of_nat 10) EmptyString.

(** The target of a started thread, called on the line read: every handler
    splits the line again. [None]: the handler has not returned, or the
    line is the one of [exit], which starts no thread. *)
Definition run `{Codec} (fuel : nat) (h : handler) (user_input : string)
    (s : FileStorageSystem) : option FileStorageSystem :=
  match h with
  | Put => fst <$> handle_put_command fuel (split user_input) s
  | Get => fst <$> handle_get_command fuel (split user_input) s
  | Delete => Some (handle_delete_command (split user_input) s).1
  | List => Some (handle_list_command s)
  | Exit => None
  end.

(** * Properties *)

(** ** The state after a loop or a batch *)

Definition flow_state (r : flow) : FileStorageSystem :=
  match r with Finished _ s | Returned s | Raised _ _ s => s end.

Definition filled_state (r : filled) : FileStorageSystem :=
  match r with Fill_returned s | Fill_raised _ s | Fill_done _ _ _ _ _ s => s end.

Definition emitted_state (r : emitted) : FileStorageSystem :=
  match r with Emit_returned s | Emit_raised _ s | Emit_done s => s end.

Definition outcome_state {A} (r : exn * FileStorageSystem + A * FileStorageSystem)
    : FileStorageSystem :=
  match r with inl (_, s) | inr (_, s) => s end.

Definition result_state (r : exn * FileStorageSystem + FileStorageSystem)
    : FileStorageSystem :=
  match r with inl (_, s) | inr s => s end.

Lemma needed_memory_eq : needed_memory = 10240%Z.
Proof. reflexivity. Qed.

Lemma part_size_eq : part_size = 1024.
Proof. reflexivity. Qed.

Lemma batch_size_eq : batch_size = 10.
Proof. reflexivity. Qed.

Global Opaque needed_memory part_size batch_size.

(** ** The admission controller as a transition system

    [memory_usage] changes in two places only, both under the monitor: it
    grows by one batch after the predicate of [wait_for] held, and it
    shrinks by one batch on a release. Every other statement leaves it, and
    the limit, alone. *)
Inductive admission_step (s s' : FileStorageSystem) : Prop :=
  | admission_grant :
      (memory_usage s + needed_memory < memory_limit s)%Z →
      memory_usage s' = (memory_usage s + needed_memory)%Z →
      memory_limit s' = memory_limit s →
      admission_step s s'
  | admission_release :
      memory_usage s' = (memory_usage s - needed_memory)%Z →
      memory_limit s' = memory_limit s →
      admission_step s s'
  | admission_other :
      memory_usage s' = memory_usage s →
      memory_limit s' = memory_limit s →
      admission_step s s'.

Lemma admission_step_budget s s' :
  admission_step s s' →
  (memory_usage s < memory_limit s)%Z → (memory_usage s' < memory_limit s')%Z.
Proof.
  pose proof needed_memory_eq.
  intros [? E1 E2|E1 E2|E1 E2] ?; rewrite E1, E2; lia.
Qed.

Lemma admission_steps_budget s s' :
  rtc admission_step s s' →
  (memory_usage s < memory_limit s)%Z → (memory_usage s' < memory_limit s')%Z.
Proof.
  induction 1 as [|s1 s2 s3 Hstep _ IH]; [done|].
  intros Hb. by apply IH, (admission_step_budget s1).
Qed.

(** ** What no loop of a handler touches

    [stable s s'] collects what stays put, or only grows, from the first
    reservation of a handler to its last statement, and says that the
    usage moved by steps of the admission controller only. *)
Definition stable (s s' : FileStorageSystem) : Prop :=
  parts_directory s' = parts_directory s ∧
  memory_limit s' = memory_limit s ∧
  file_next_id s' = file_next_id s ∧
  files s' = files s ∧
  part_next_id s ≤ part_next_id s' ∧
  dom (parts s) ⊆ dom (parts s') ∧
  rtc admission_step s s'.

Lemma stable_refl s : stable s s.
Proof. repeat split; auto. apply rtc_refl. Qed.

Lemma stable_trans s1 s2 s3 : stable s1 s2 → stable s2 s3 → stable s1 s3.
Proof.
  intros (?&?&?&?&?&?&?) (?&?&?&?&?&?&?).
  repeat split; try congruence; try lia; try set_solver.
  by etrans.
Qed.

(** Closes [stable s s'] when [s'] is written out as updates of [s]. *)
Ltac stable_now :=
  unfold stable, release, reserve; simpl;
  repeat match goal with |- _ ∧ _ => split end;
  try (rewrite ?dom_insert_L; solve [auto | lia | set_solver]);
  first [ apply rtc_once, admission_other; simpl; reflexivity
        | apply rtc_once, admission_release; simpl; reflexivity ].

Lemma stable_reserve s : admits s = true → stable s (reserve s).
Proof.
  intros Ha. apply bool_decide_eq_true in Ha.
  repeat split; simpl; auto.
  by apply rtc_once, admission_grant.
Qed.

Lemma stable_set_oracle o s : stable s (set_oracle o s).
Proof. stable_now. Qed.

Lemma consult_spec s ok s' : consult s = (ok, s') → ∃ o, s' = set_oracle o s.
Proof.
  unfold consult. destruct (oracle s) as [|b o] eqn:E; intros [= <- <-].
  - exists []. destruct s; simpl in E; subst; reflexivity.
  - eauto.
Qed.

(** Case analysis on the next answer of the environment. *)
Ltac ask :=
  let ok := fresh "ok" in
  let s1 := fresh "s" in
  let E := fresh "E" in
  let o := fresh "o" in
  match goal with
  | H : context [consult ?s] |- _ =>
      destruct (consult s) as [ok s1] eqn:E;
      apply consult_spec in E as [o ->]; destruct ok; simpl in H
  | |- context [consult ?s] =>
      destruct (consult s) as [ok s1] eqn:E;
      apply consult_spec in E as [o ->]; destruct ok; simpl
  end.

Ltac stable_then IH := eapply stable_trans; [|apply IH]; stable_now.

(** A dispatch of [save_file] that raised has written to the disk, and has
    done nothing else. *)
Lemma save_some_spec `{Codec} batch : ∀ s,
  ∃ o d, save_some batch s = set_oracle o (set_disk d s).
Proof.
  induction batch as [|[data path] batch IH]; intros s; simpl.
  { exists (oracle s), (disk s). by destruct s. }
  ask; match goal with |- context [save_some batch ?s1] =>
         destruct (IH s1) as (o' & d' & ->) end; by exists o', d'.
Qed.

Section Stability.
Context `{Codec}.

Lemma stable_put_fill n : ∀ fid reader index batch file_parts s,
  stable s (filled_state (put_fill n fid reader index batch file_parts s)).
Proof.
  induction n as [|n IH]; intros; simpl; [apply stable_refl|].
  unfold consult. destruct (oracle s) as [|[|] o]; simpl.
  - destruct (take part_size reader); simpl; [stable_now|].
    destruct (parts s !! fid) eqn:E; simpl; [stable_then IH|stable_now].
  - destruct (take part_size reader); simpl; [stable_now|].
    destruct (parts s !! fid) eqn:E; simpl; [stable_then IH|stable_now].
  - destruct o as [|[|] o]; simpl; stable_now.
Qed.

Lemma stable_starmap_save batch s : stable s (outcome_state (starmap_save batch s)).
Proof.
  unfold starmap_save. ask.
  - destruct (save_all _ _); simpl. stable_now.
  - destruct (save_some_spec batch (set_oracle o s)) as (o' & d' & ->). stable_now.
Qed.

Lemma stable_put_record fid : ∀ file_parts result s,
  stable s (result_state (put_record fid file_parts result s)).
Proof.
  induction file_parts as [|p file_parts IH]; intros; simpl; [stable_now|].
  destruct result; simpl; [stable_now|].
  destruct (parts s !! fid) eqn:E; simpl; [|stable_now].
  destruct (l !! part_index p); simpl; [stable_then IH|stable_now].
Qed.

Lemma stable_put_loop fuel : ∀ fid reader index locked s r,
  put_loop fuel fid reader index locked s = Some r → stable s (flow_state r).
Proof.
  induction fuel as [|fuel IH]; intros * Hr; simpl in Hr; [done|].
  ask; [|eapply stable_trans; [|eapply IH, Hr]; stable_now].
  destruct (admits _) eqn:Ha; simpl in Hr;
    [|eapply stable_trans; [|eapply IH, Hr]; stable_now].
  eapply stable_trans; [apply (stable_set_oracle o)|].
  eapply stable_trans; [apply stable_reserve, Ha|].
  pose proof (stable_put_fill batch_size fid reader index [] []
                (reserve (set_oracle o s))) as Hf.
  destruct (put_fill _ _ _ _ _ _ _) as [s1|e s1|fin reader' index' batch fps s1];
    simpl in Hf; eapply stable_trans; try apply Hf.
  1,2: injection Hr as <-; apply stable_refl.
  pose proof (stable_starmap_save batch s1) as Hs.
  destruct (starmap_save batch s1) as [[e s2]|[result s2]]; simpl in Hs;
    (eapply stable_trans; [apply Hs|]).
  { injection Hr as <-; apply stable_refl. }
  pose proof (stable_put_record fid fps result s2) as Hp.
  destruct (put_record fid fps result s2) as [[e s3]|s3]; simpl in Hp;
    (eapply stable_trans; [apply Hp|]).
  { injection Hr as <-; apply stable_refl. }
  ask; destruct fin; try (injection Hr as <-; stable_now);
    (eapply stable_trans; [|eapply IH, Hr]; stable_now).
Qed.

Lemma stable_starmap_read batch s : stable s (outcome_state (starmap_read batch s)).
Proof.
  unfold starmap_read. ask; [|stable_now].
  destruct (read_all _ _); simpl; stable_now.
Qed.

Lemma stable_get_emit name : ∀ result s,
  stable s (emitted_state (get_emit name result s)).
Proof.
  induction result as [|[[|] data] result IH]; intros; simpl; [stable_now| |].
  - destruct data; simpl; [stable_then IH|stable_now].
  - ask; stable_now.
Qed.

Lemma stable_get_loop fuel : ∀ name file_parts index locked s r,
  get_loop fuel name file_parts index locked s = Some r → stable s (flow_state r).
Proof.
  induction fuel as [|fuel IH]; intros * Hr; simpl in Hr; [done|].
  destruct (_ <? _); simpl in Hr; [|injection Hr as <-; apply stable_refl].
  ask; [|eapply stable_trans; [|eapply IH, Hr]; stable_now].
  destruct (admits _) eqn:Ha; simpl in Hr;
    [|eapply stable_trans; [|eapply IH, Hr]; stable_now].
  eapply stable_trans; [apply (stable_set_oracle o)|].
  eapply stable_trans; [apply stable_reserve, Ha|].
  match type of Hr with context [starmap_read ?b ?s1] =>
    pose proof (stable_starmap_read b s1) as Hs;
    destruct (starmap_read b s1) as [[e s2]|[result s2]] end;
    simpl in Hs, Hr; (eapply stable_trans; [apply Hs|]).
  { injection Hr as <-; apply stable_refl. }
  pose proof (stable_get_emit name result s2) as He.
  destruct (get_emit name result s2) as [s3|e s3|s3]; simpl in He, Hr;
    (eapply stable_trans; [apply He|]).
  1,2: injection Hr as <-; apply stable_refl.
  ask; (eapply stable_trans; [|eapply IH, Hr]; stable_now).
Qed.

End Stability.

Lemma stable_map_delete batch s : stable s (outcome_state (map_delete batch s)).
Proof.
  unfold map_delete. ask; [|stable_now].
  destruct (delete_all _ _); simpl. stable_now.
Qed.

Lemma stable_delete_mark fid : ∀ n start s,
  stable s (result_state (delete_mark fid start n s)).
Proof.
  induction n as [|n IH]; intros; simpl; [stable_now|].
  destruct (parts s !! fid) eqn:E; simpl; [|stable_now].
  destruct (l !! start); simpl; [stable_then IH|stable_now].
Qed.

Lemma stable_delete_erase fid index len : ∀ result i s,
  stable s (result_state (delete_erase fid index len i result s)).
Proof.
  induction result as [|[|] result IH]; intros; simpl; [stable_now| |stable_then IH].
  destruct (parts s !! fid) eqn:E; simpl; [|stable_now].
  destruct (_ <? _); simpl; [stable_then IH|stable_now].
Qed.

Lemma stable_delete_batch fid index s :
  stable s (result_state (delete_batch fid index s)).
Proof.
  unfold delete_batch. destruct (parts s !! fid) as [l|] eqn:E; simpl; [|stable_now].
  match goal with |- context [delete_mark ?a ?b ?c ?d] =>
    pose proof (stable_delete_mark a c b d) as Hm;
    destruct (delete_mark a b c d) as [[e s1]|s1] end; simpl in *; [done|].
  eapply stable_trans; [apply Hm|].
  match goal with |- context [map_delete ?b ?s1] =>
    pose proof (stable_map_delete b s1) as Hd;
    destruct (map_delete b s1) as [[e s2]|[result s2]] end; simpl in *; [done|].
  eapply stable_trans; [apply Hd|]. apply stable_delete_erase.
Qed.

Lemma stable_delete_loop fid : ∀ index s,
  stable s (result_state (delete_loop index fid s)).
Proof.
  induction index as [|index IH]; intros; simpl;
    pose proof (stable_delete_batch fid) as Hb.
  - specialize (Hb 0 s). destruct (delete_batch fid 0 s) as [[e s1]|s1]; done.
  - specialize (Hb (S index) s).
    destruct (delete_batch fid (S index) s) as [[e s1]|s1]; simpl in *; [done|].
    eapply stable_trans; [apply Hb|apply IH].
Qed.

(** ** Accounting of the reservation

    A handler gives up a release only after the acquisition of the monitor
    timed out, and it says so on standard output. *)
Definition reports_leak (m : Message) : bool :=
  match m with
  | Put_could_not_release | Put_failed_to_notify
  | Get_could_not_release | Get_failed_to_notify => true
  | _ => false
  end.

Definition quiet (msgs : list Message) : Prop :=
  existsb reports_leak msgs = false.

(** [s'] comes after [s], and [P] holds unless a lost release was reported
    in between. *)
Definition extends (s s' : FileStorageSystem) (P : Prop) : Prop :=
  ∃ msgs, stdout s' = stdout s ++ msgs ∧ (quiet msgs → P).

Lemma extends_trans s s1 s2 (P1 P2 Q : Prop) :
  extends s s1 P1 → extends s1 s2 P2 → (P1 → P2 → Q) → extends s s2 Q.
Proof.
  intros (m1 & E1 & H1) (m2 & E2 & H2) HQ. exists (m1 ++ m2). split.
  - rewrite E2, E1, app_assoc. reflexivity.
  - unfold quiet. rewrite existsb_app. intros [? ?]%orb_false_elim. auto.
Qed.

Lemma extends_weaken s s' (P Q : Prop) : extends s s' P → (P → Q) → extends s s' Q.
Proof. intros (m & E & HP) HQ. exists m. auto. Qed.

Lemma extends_from s s1 s2 (Q : Prop) :
  stdout s1 = stdout s → extends s1 s2 Q → extends s s2 Q.
Proof. intros E (m & E2 & HQ). exists m. rewrite E2, E. auto. Qed.

Ltac extends_now :=
  eexists; split;
  [ first [ symmetry; apply app_nil_r
          | simpl; rewrite <- ?app_assoc; reflexivity ]
  | let Hq := fresh "Hq" in
    intros Hq; unfold quiet in Hq; simpl in Hq |- *;
    try discriminate; try lia; auto ].

Lemma extends_and s s1 s2 (P1 P2 : Prop) :
  extends s s1 P1 → extends s1 s2 P2 → extends s s2 (P1 ∧ P2).
Proof. intros H1 H2. eapply extends_trans; eauto. Qed.

Lemma extends_say_leak m s s1 :
  stdout s1 = stdout s → reports_leak m = true → extends s (say m s1) False.
Proof.
  intros E Hm. exists [m]. split; [simpl; by rewrite E|].
  unfold quiet. simpl. rewrite Hm. discriminate.
Qed.

Ltac extends_via IH :=
  eapply extends_weaken;
  [ eapply extends_from; [|apply IH]; reflexivity | simpl; solve [auto | lia] ].

(** The reservation is accounted for when a loop hands control back:
    nothing is held at the end of the loop or at a [return], one batch is
    held when an exception leaves the loop. *)
Definition settled (r : flow) (usage : Z) : Prop :=
  match r with
  | Finished locked s => locked = false ∧ memory_usage s = usage
  | Returned s => memory_usage s = usage
  | Raised _ locked s => locked = true ∧ memory_usage s = (usage + needed_memory)%Z
  end.

Section Accounting.
Context `{Codec}.

Lemma account_put_fill n : ∀ fid reader index batch file_parts s,
  match put_fill n fid reader index batch file_parts s with
  | Fill_returned s' => extends s s' (memory_usage s' = memory_usage s - needed_memory)%Z
  | Fill_raised _ s' | Fill_done _ _ _ _ _ s' =>
      extends s s' (memory_usage s' = memory_usage s)
  end.
Proof.
  induction n as [|n IH]; intros; simpl; [extends_now|].
  ask.
  - destruct (take part_size reader); simpl; [extends_now|].
    destruct (parts s !! fid) eqn:E; simpl; [|extends_now].
    match goal with |- context [put_fill n ?a ?b ?c ?d ?e ?f] =>
      specialize (IH a b c d e f); destruct (put_fill n a b c d e f) end;
      extends_via IH.
  - ask; extends_now.
Qed.

Lemma account_starmap_save batch s :
  extends s (outcome_state (starmap_save batch s))
          (memory_usage (outcome_state (starmap_save batch s)) = memory_usage s).
Proof.
  unfold starmap_save. ask.
  - destruct (save_all _ _); simpl. extends_now.
  - destruct (save_some_spec batch (set_oracle o s)) as (o' & d' & ->). extends_now.
Qed.

Lemma account_put_record fid : ∀ file_parts result s,
  extends s (result_state (put_record fid file_parts result s))
          (memory_usage (result_state (put_record fid file_parts result s))
           = memory_usage s).
Proof.
  induction file_parts as [|p file_parts IH]; intros; simpl; [extends_now|].
  destruct result; simpl; [extends_now|].
  destruct (parts s !! fid) eqn:E; simpl; [|extends_now].
  destruct (l !! part_index p); simpl; [|extends_now].
  extends_via IH.
Qed.

Lemma account_put_loop fuel : ∀ fid reader index locked s r,
  put_loop fuel fid reader index locked s = Some r →
  extends s (flow_state r) (locked = false → settled r (memory_usage s)).
Proof.
  induction fuel as [|fuel IH]; intros * Hr; simpl in Hr; [done|].
  ask; [|specialize (IH _ _ _ _ _ _ Hr); extends_via IH].
  destruct (admits _) eqn:Ha; simpl in Hr;
    [|specialize (IH _ _ _ _ _ _ Hr); extends_via IH].
  eapply (extends_from _ (reserve (set_oracle o s))); [reflexivity|].
  pose proof (account_put_fill batch_size fid reader index [] []
                (reserve (set_oracle o s))) as Hf.
  destruct (put_fill _ _ _ _ _ _ _) as [s1|e s1|fin reader' index' batch fps s1];
    simpl in Hf, Hr.
  { injection Hr as <-. eapply extends_weaken; [apply Hf|]. simpl. lia. }
  { injection Hr as <-. eapply extends_weaken; [apply Hf|]. simpl. auto. }
  pose proof (account_starmap_save batch s1) as Hs.
  destruct (starmap_save batch s1) as [[e s2]|[result s2]]; simpl in Hs, Hr;
    pose proof (extends_and _ _ _ _ _ Hf Hs) as H2; clear Hf Hs.
  { injection Hr as <-. eapply extends_weaken; [apply H2|]. simpl.
    intros [-> ->]. auto. }
  pose proof (account_put_record fid fps result s2) as Hp.
  destruct (put_record fid fps result s2) as [[e s3]|s3]; simpl in Hp, Hr;
    pose proof (extends_and _ _ _ _ _ H2 Hp) as H3; clear H2 Hp.
  { injection Hr as <-. eapply extends_weaken; [apply H3|]. simpl.
    intros [[-> ->] ->]. auto. }
  ask.
  - assert (extends (reserve (set_oracle o s)) (release (set_oracle o0 s3))
              (memory_usage (release (set_oracle o0 s3)) = memory_usage s)) as H4.
    { eapply extends_trans; [apply H3| |].
      - exists []. split; [symmetry; apply app_nil_r|]. intros _. exact I.
      - simpl. intros [[-> ->] ->] _. lia. }
    destruct fin.
    + injection Hr as <-. eapply extends_weaken; [apply H4|]. simpl. auto.
    + specialize (IH _ _ _ _ _ _ Hr). eapply extends_trans; [apply H4|apply IH|].
      intros <- Hset _. auto.
  - assert (extends (reserve (set_oracle o s))
              (say Put_failed_to_notify (set_oracle o0 s3)) False) as H4.
    { eapply extends_trans; [apply H3|apply extends_say_leak; reflexivity|]. tauto. }
    destruct fin.
    + injection Hr as <-. eapply extends_weaken; [apply H4|]. tauto.
    + specialize (IH _ _ _ _ _ _ Hr). eapply extends_trans; [apply H4|apply IH|].
      tauto.
Qed.

Lemma account_starmap_read batch s :
  extends s (outcome_state (starmap_read batch s))
          (memory_usage (outcome_state (starmap_read batch s)) = memory_usage s).
Proof.
  unfold starmap_read. ask; [|extends_now].
  destruct (read_all _ _); simpl; extends_now.
Qed.

Lemma account_get_emit name : ∀ result s,
  match get_emit name result s with
  | Emit_returned s' => extends s s' (memory_usage s' = memory_usage s - needed_memory)%Z
  | Emit_raised _ s' | Emit_done s' => extends s s' (memory_usage s' = memory_usage s)
  end.
Proof.
  induction result as [|[[|] data] result IH]; intros; simpl; [extends_now| |].
  - destruct data as [data|]; simpl; [|extends_now].
    specialize (IH (write name data s)).
    destruct (get_emit name result (write name data s)); extends_via IH.
  - ask; extends_now.
Qed.

Lemma account_get_loop fuel : ∀ name file_parts index locked s r,
  get_loop fuel name file_parts index locked s = Some r →
  extends s (flow_state r) (locked = false → settled r (memory_usage s)).
Proof.
  induction fuel as [|fuel IH]; intros * Hr; simpl in Hr; [done|].
  destruct (_ <? _); simpl in Hr; [|injection Hr as <-; extends_now].
  ask; [|specialize (IH _ _ _ _ _ _ Hr); extends_via IH].
  destruct (admits _) eqn:Ha; simpl in Hr;
    [|specialize (IH _ _ _ _ _ _ Hr); extends_via IH].
  eapply (extends_from _ (reserve (set_oracle o s))); [reflexivity|].
  match type of Hr with context [starmap_read ?b ?s1] =>
    pose proof (account_starmap_read b s1) as Hs;
    destruct (starmap_read b s1) as [[e s2]|[result s2]] end; simpl in Hs, Hr.
  { injection Hr as <-. eapply extends_weaken; [apply Hs|]. simpl. auto. }
  pose proof (account_get_emit name result s2) as He.
  destruct (get_emit name result s2) as [s3|e s3|s3]; simpl in He, Hr;
    pose proof (extends_and _ _ _ _ _ Hs He) as H3; clear Hs He.
  { injection Hr as <-. eapply extends_weaken; [apply H3|]. simpl.
    intros [-> ->]. lia. }
  { injection Hr as <-. eapply extends_weaken; [apply H3|]. simpl.
    intros [-> ->]. auto. }
  ask.
  - specialize (IH _ _ _ _ _ _ Hr). eapply extends_trans; [apply H3|apply IH|].
    simpl. intros [E2 E3] Hset _.
    replace (memory_usage s) with (memory_usage s3 - needed_memory)%Z by lia. auto.
  - specialize (IH _ _ _ _ _ _ Hr).
    eapply extends_trans; [apply H3| |].
    + eapply extends_and; [apply (extends_say_leak Get_failed_to_notify s3
                                    (set_oracle o0 s3)); reflexivity|apply IH].
    + tauto.
Qed.

Lemma account_on_exception failed could_not_release e locked s :
  reports_leak could_not_release = true →
  reports_leak (failed e) = false →
  extends s (on_exception failed could_not_release e locked s)
    (memory_usage (on_exception failed could_not_release e locked s)
     = memory_usage s - (if locked then needed_memory else 0))%Z.
Proof.
  intros Hl Hf. unfold on_exception. destruct locked; simpl.
  - ask.
    + exists [failed e]. split; [reflexivity|]. intros _. simpl. lia.
    + exists [failed e; could_not_release]. split.
      * simpl. rewrite <- app_assoc. reflexivity.
      * unfold quiet. simpl. rewrite Hl, Hf. discriminate.
  - exists [failed e]. split; [reflexivity|]. intros _. simpl. lia.
Qed.

Lemma account_except failed could_not_release e (locked : bool) s0 s1 (P : Prop) u :
  reports_leak could_not_release = true →
  reports_leak (failed e) = false →
  extends s0 s1 P →
  (P → memory_usage s1 = u + (if locked then needed_memory else 0))%Z →
  extends s0 (on_exception failed could_not_release e locked s1)
    (memory_usage (on_exception failed could_not_release e locked s1) = u).
Proof.
  intros Hl Hf H1 HP. eapply extends_trans; [exact H1| |].
  - by apply (account_on_exception failed could_not_release e locked).
  - intros HP1 ->. rewrite HP by done. lia.
Qed.

End Accounting.

(** ** What a put stores *)

(** The [i]-th read of [part_size] bytes from a source holding [content]. *)
Definition chunk (content : bytes) (i : nat) : bytes :=
  take part_size (drop (i * part_size) content).

Lemma string_app_length (a b : string) :
  String.length (a +:+ b) = String.length a + String.length b.
Proof. induction a as [|c a IH]; simpl; [reflexivity|]. by rewrite IH. Qed.

Lemma string_app_inj_r (t a b : string) : a +:+ t = b +:+ t → a = b.
Proof.
  revert b. induction a as [|c a IH]; intros [|c' b] E.
  - reflexivity.
  - apply (f_equal String.length) in E.
    rewrite !string_app_length in E. simpl in E. lia.
  - apply (f_equal String.length) in E.
    rewrite !string_app_length in E. simpl in E. lia.
  - simpl in E. injection E as -> E. f_equal. by apply IH.
Qed.

Lemma part_name_inj fid i j : part_name fid i = part_name fid j → i = j.
Proof.
  unfold part_name. intros E.
  apply (inj (String.app _)) in E. apply (inj (String.app _)) in E.
  apply string_app_inj_r in E. by apply (inj pretty) in E.
Qed.

Lemma chunk_nil_drop (content : bytes) i :
  chunk content i = [] → drop (i * part_size) content = [].
Proof.
  unfold chunk. intros [E|E]%take_nil_inv; [|done].
  rewrite part_size_eq in E. discriminate.
Qed.

Lemma drop_chunk (content : bytes) i :
  drop part_size (drop (i * part_size) content) = drop (S i * part_size) content.
Proof. rewrite drop_drop. f_equal. lia. Qed.

Lemma concat_chunks content n :
  concat (chunk content <$> seq 0 n) = take (n * part_size) content.
Proof.
  induction n as [|n IH]; [reflexivity|].
  rewrite seq_S, fmap_app, concat_app, IH. simpl. rewrite app_nil_r.
  unfold chunk. rewrite take_take_drop. f_equal. lia.
Qed.

Section Stored.
Context `{Codec}.
Variables (dir : string) (fid base : nat) (content : bytes).

(** The part appended for the [i]-th chunk, before and after its batch has
    been saved. *)
Definition fresh_part (i : nat) : FilePart :=
  FilePart_init (base + i) fid None false i.

Definition recorded_part (i : nat) : FilePart :=
  FilePart_init (base + i) fid (Some (md5_hexdigest (chunk content i))) true i.

Definition staged (i : nat) : bytes * string :=
  (chunk content i, dir +:+ part_name fid i).

(** The disk once the chunks [k .. k+j-1] have been saved. *)
Definition stored (k j : nat) (d : gmap string bytes) : gmap string bytes :=
  foldl (λ d i, <[dir +:+ part_name fid i := zlib_compress (chunk content i)]> d)
        d (seq k j).

Lemma stored_S k j d :
  stored k (S j) d
  = <[dir +:+ part_name fid (k + j) := zlib_compress (chunk content (k + j))]>
      (stored k j d).
Proof. unfold stored. rewrite seq_S, foldl_app. reflexivity. Qed.

Lemma stored_add k j j' d : stored (k + j) j' (stored k j d) = stored k (j + j') d.
Proof. unfold stored. rewrite seq_app, foldl_app. reflexivity. Qed.


Lemma stored_lookup_in k j d i :
  k ≤ i < k + j →
  stored k j d !! (dir +:+ part_name fid i) = Some (zlib_compress (chunk content i)).
Proof.
  induction j as [|j IH]; intros Hi; [lia|]. rewrite stored_S.
  destruct (decide (i = k + j)) as [->|Hne]; [by rewrite lookup_insert_eq|].
  rewrite lookup_insert_ne; [apply IH; lia|].
  intros E. apply (inj (String.app _)) in E. apply part_name_inj in E. lia.
Qed.

Lemma save_all_staged k j d :
  save_all (staged <$> seq k j) d
  = ((λ i, md5_hexdigest (chunk content i)) <$> seq k j, stored k j d).
Proof.
  revert k d. induction j as [|j IH]; intros; [reflexivity|].
  simpl. rewrite IH. reflexivity.
Qed.

Lemma state_eq_insert_id (s : FileStorageSystem) l n :
  parts s !! fid = Some l → part_next_id s = n →
  s = set_oracle (oracle s) (set_parts (<[fid := l]> (parts s)) (set_part_next_id n s)).
Proof.
  intros Hl <-. rewrite insert_id by done. by destruct s.
Qed.

(** The inner loop of put, started at index [k] with [j] chunks already
    staged: it cannot raise, and when it runs to its end it has staged the
    chunks [k .. k+j'-1] and appended one pending part for each. *)
Lemma put_fill_data k L0 n : ∀ j reader index batch fps s,
  parts_directory s = dir →
  reader = drop ((k + j) * part_size) content →
  index = k + j →
  batch = staged <$> seq k j →
  fps = fresh_part <$> seq k j →
  parts s !! fid = Some (L0 ++ fps) →
  part_next_id s = base + index →
  match put_fill n fid reader index batch fps s with
  | Fill_raised _ _ => False
  | Fill_returned _ => True
  | Fill_done fin reader' index' batch' fps' s' =>
      ∃ j' o',
        index' = k + j' ∧
        reader' = drop ((index' + (if fin then 1 else 0)) * part_size) content ∧
        batch' = staged <$> seq k j' ∧
        fps' = fresh_part <$> seq k j' ∧
        (fin = true → chunk content index' = []) ∧
        (fin = false → j' = j + n) ∧
        (∀ i, k + j ≤ i < index' → chunk content i ≠ []) ∧
        s' = set_oracle o'
               (set_parts (<[fid := L0 ++ fps']> (parts s))
                  (set_part_next_id (base + index' + (if fin then 1 else 0)) s))
  end.
Proof.
  induction n as [|n IH]; intros j reader index batch fps s Hd -> -> -> -> Hl Hn; simpl.
  { exists j, (oracle s). rewrite !Nat.add_0_r. repeat split; [done|lia|].
    by apply state_eq_insert_id. }
  ask; [|by ask].
  destruct (take part_size _) as [|b part] eqn:Et; simpl.
  { exists j, o. rewrite drop_chunk. repeat split; auto.
    - f_equal. lia.
    - done.
    - lia.
    - rewrite insert_id by done. rewrite <- Hn. by destruct s. }
  rewrite Hl.
  match goal with |- context [put_fill n ?a ?b ?c ?d ?e ?f] =>
    specialize (IH (S j) b c d e f) end.
  rewrite Hn in IH |- *.
  lapply IH; [clear IH; intros IH|done].
  lapply IH; [clear IH; intros IH|].
  2:{ rewrite drop_chunk. f_equal. lia. }
  lapply IH; [clear IH; intros IH|lia].
  lapply IH; [clear IH; intros IH|].
  2:{ rewrite seq_S, fmap_app. simpl. unfold store_path, staged. simpl.
      rewrite Hd, <- Et. reflexivity. }
  lapply IH; [clear IH; intros IH|].
  2:{ rewrite seq_S, fmap_app. reflexivity. }
  lapply IH; [clear IH; intros IH|].
  2:{ simpl. rewrite lookup_insert_eq. by rewrite <- app_assoc. }
  lapply IH; [clear IH; intros IH|simpl; lia].
  destruct (put_fill n _ _ _ _ _ _) as [|?|fin reader' index' batch' fps' s']; try done.
  destruct IH as (j' & o' & -> & -> & -> & -> & Hfin & Hj & Hne & ->).
  exists j', o'. repeat split; auto.
  - intros ->. rewrite Hj by done. lia.
  - intros i Hi. destruct (decide (i = k + j)) as [->|Hi'].
    + unfold chunk. by rewrite Et.
    + apply Hne. lia.
  - simpl. rewrite insert_insert_eq. reflexivity.
Qed.

(** Without contention the inner loop does not leave through a [return]. *)
Lemma put_fill_quiet n : ∀ reader index batch fps s,
  oracle s = [] →
  match put_fill n fid reader index batch fps s with
  | Fill_returned _ => False
  | Fill_raised _ s' | Fill_done _ _ _ _ _ s' => oracle s' = []
  end.
Proof.
  induction n as [|n IH]; intros reader index batch fps s Ho; simpl; [done|].
  unfold consult. rewrite Ho. simpl.
  destruct (take part_size reader); simpl; [done|].
  destruct (parts s !! fid); simpl; [|done]. by apply IH.
Qed.

(** Lines 166-168 turn the pending parts of the batch into recorded ones. *)
Lemma put_record_data : ∀ j k pre s,
  length pre = k →
  parts s !! fid = Some (pre ++ (fresh_part <$> seq k j)) →
  put_record fid (fresh_part <$> seq k j)
             ((λ i, md5_hexdigest (chunk content i)) <$> seq k j) s
  = inr (set_parts (<[fid := pre ++ (recorded_part <$> seq k j)]> (parts s)) s).
Proof.
  induction j as [|j IH]; intros k pre s Hk Hl; simpl.
  { f_equal. simpl in Hl. rewrite insert_id by done. by destruct s. }
  rewrite Hl. simpl.
  rewrite list_lookup_middle by done. simpl.
  rewrite (IH (S k) (pre ++ [recorded_part k])).
  - simpl. rewrite insert_insert_eq, <- app_assoc. reflexivity.
  - rewrite length_app. simpl. lia.
  - simpl. rewrite lookup_insert_eq. f_equal.
    rewrite <- Hk, insert_app_r_alt, Nat.sub_diag, <- app_assoc by lia. reflexivity.
Qed.

Lemma recorded_app k j :
  (recorded_part <$> seq 0 k) ++ (recorded_part <$> seq k j)
  = recorded_part <$> seq 0 (k + j).
Proof. by rewrite seq_app, fmap_app. Qed.

(** The outer loop of put, entered with the first [idx] chunks stored and
    recorded: when it finishes, every chunk up to the first empty read is
    stored and recorded, and one more part id has been drawn. *)
Lemma put_loop_data fuel : ∀ idx locked s r,
  parts_directory s = dir →
  parts s !! fid = Some (recorded_part <$> seq 0 idx) →
  part_next_id s = base + idx →
  put_loop fuel fid (drop (idx * part_size) content) idx locked s = Some r →
  match r with
  | Finished _ s' =>
      ∃ n u out o,
        idx ≤ n ∧ chunk content n = [] ∧
        s' = mkSystem dir (memory_limit s) u (file_next_id s) (files s)
               (base + n + 1) (<[fid := recorded_part <$> seq 0 n]> (parts s))
               (stored idx (n - idx) (disk s)) out o
  | _ => True
  end.
Proof.
  induction fuel as [|fuel IH]; intros idx locked s r Hd Hl Hn Hr; simpl in Hr; [done|].
  ask; [|exact (IH idx locked (set_oracle o s) r Hd Hl Hn Hr)].
  destruct (admits _) eqn:Ha; simpl in Hr;
    [|exact (IH idx locked (set_oracle o s) r Hd Hl Hn Hr)].
  pose proof (put_fill_data idx (recorded_part <$> seq 0 idx) batch_size 0
                (drop (idx * part_size) content) idx [] []
                (reserve (set_oracle o s)) Hd) as Hf.
  rewrite Nat.add_0_r in Hf. simpl in Hf. rewrite app_nil_r in Hf.
  specialize (Hf eq_refl eq_refl eq_refl eq_refl Hl Hn).
  destruct (put_fill _ _ _ _ _ _ _) as [s1|e s1|fin reader' index' batch fps s1];
    [by injection Hr as <-|done|].
  destruct Hf as (j & o1 & -> & -> & -> & -> & Hfin & _ & _ & ->).
  unfold starmap_save in Hr. ask; [|by injection Hr as <-].
  rewrite save_all_staged in Hr.
  rewrite (put_record_data j idx (recorded_part <$> seq 0 idx)) in Hr;
    [|by rewrite length_fmap, length_seq|by simpl; rewrite lookup_insert_eq].
  simpl in Hr. rewrite insert_insert_eq, recorded_app in Hr.
  assert (∀ u out o' locked' s',
    s' = mkSystem (parts_directory s) (memory_limit s) u (file_next_id s) (files s)
           (base + (idx + j) + (if fin then 1 else 0))
           (<[fid := recorded_part <$> seq 0 (idx + j)]> (parts s))
           (stored idx j (disk s)) out o' →
    (if fin then Some (Finished locked' s')
     else put_loop fuel fid
            (drop ((idx + j + (if fin then 1 else 0)) * part_size) content)
            (idx + j) locked' s') = Some r →
    match r with
    | Finished _ s' =>
        ∃ n u out o,
          idx ≤ n ∧ chunk content n = [] ∧
          s' = mkSystem dir (memory_limit s) u (file_next_id s) (files s)
                 (base + n + 1) (<[fid := recorded_part <$> seq 0 n]> (parts s))
                 (stored idx (n - idx) (disk s)) out o
    | _ => True
    end) as Hend.
  { intros u out o' locked' s' -> Hr'. destruct fin.
    - injection Hr' as <-. exists (idx + j), u, out, o'.
      split; [lia|]. split; [auto|]. rewrite Hd.
      replace (idx + j - idx) with j by lia. reflexivity.
    - rewrite !Nat.add_0_r in Hr'.
      apply IH in Hr'; simpl; [|done|by rewrite lookup_insert_eq|lia].
      destruct r as [l s'| |]; [|done..].
      destruct Hr' as (n & u' & out' & o'' & Hle & Hc & ->).
      exists n, u', out', o''. split; [lia|]. split; [done|]. simpl.
      rewrite insert_insert_eq, stored_add. do 2 f_equal. lia. }
  ask.
  - refine (Hend (memory_usage s + needed_memory - needed_memory)%Z (stdout s) o2
              _ _ _ Hr).
    destruct s; reflexivity.
  - refine (Hend (memory_usage s + needed_memory)%Z
              (stdout s ++ [Put_failed_to_notify]) o2 _ _ _ Hr).
    destruct s; reflexivity.
Qed.

Lemma chunk_length_lt i : chunk content i ≠ [] → i * part_size < length content.
Proof.
  intros Hc. destruct (decide (i * part_size < length content)); [done|].
  exfalso. apply Hc. unfold chunk. rewrite drop_ge by lia. apply take_nil.
Qed.

(** One turn of the loop of put without contention. *)
Lemma put_loop_step fuel idx s :
  oracle s = [] →
  admits s = true →
  parts_directory s = dir →
  parts s !! fid = Some (recorded_part <$> seq 0 idx) →
  part_next_id s = base + idx →
  ∃ (fin : bool) j s',
    put_loop (S fuel) fid (drop (idx * part_size) content) idx false s
    = (if fin then Some (Finished false s')
       else put_loop fuel fid (drop ((idx + j) * part_size) content) (idx + j)
                     false s') ∧
    oracle s' = [] ∧ admits s' = true ∧ parts_directory s' = dir ∧
    parts s' !! fid = Some (recorded_part <$> seq 0 (idx + j)) ∧
    (fin = false → part_next_id s' = base + (idx + j) ∧ j = batch_size ∧
                   (idx + batch_size - 1) * part_size < length content).
Proof.
  intros Ho Ha Hd Hl Hn. cbn [put_loop].
  unfold consult at 1. rewrite Ho, Ha. cbn [negb].
  pose proof (put_fill_data idx (recorded_part <$> seq 0 idx) batch_size 0
                (drop (idx * part_size) content) idx [] []
                (reserve s) Hd) as Hf.
  rewrite Nat.add_0_r in Hf. simpl in Hf. rewrite app_nil_r in Hf.
  specialize (Hf eq_refl eq_refl eq_refl eq_refl Hl Hn).
  pose proof (put_fill_quiet batch_size (drop (idx * part_size) content) idx [] []
                (reserve s) Ho) as Hq.
  destruct (put_fill _ _ _ _ _ _ _) as [s1|e s1|fin reader' index' batch fps s1];
    [done|done|].
  destruct Hf as (j & o1 & -> & -> & -> & -> & Hfin & Hj & Hne & ->).
  simpl in Hq. subst o1.
  unfold starmap_save, consult at 1. cbn [oracle set_oracle negb].
  rewrite save_all_staged.
  rewrite (put_record_data j idx (recorded_part <$> seq 0 idx));
    [|by rewrite length_fmap, length_seq|by simpl; rewrite lookup_insert_eq].
  unfold consult. cbn [oracle set_oracle set_parts set_disk negb].
  assert (admits (release (reserve s)) = true) as Ha'.
  { unfold admits in *. simpl. rewrite <- Ha. apply bool_decide_ext. lia. }
  destruct fin; [exists true, j|exists false, j]; eexists;
    (split; [rewrite ?Nat.add_0_r; reflexivity|]);
    simpl; rewrite lookup_insert_eq, insert_insert_eq, recorded_app;
    repeat split; auto; try done.
  apply chunk_length_lt, Hne. rewrite Hj by done. rewrite batch_size_eq. lia.
Qed.

(** Without contention and with room for one batch, the loop of put comes
    to its end within one turn per batch of the source. *)
Lemma put_loop_total : ∀ m idx s,
  oracle s = [] →
  admits s = true →
  parts_directory s = dir →
  parts s !! fid = Some (recorded_part <$> seq 0 idx) →
  part_next_id s = base + idx →
  length (drop (idx * part_size) content) + part_size
    ≤ S m * (batch_size * part_size) →
  ∃ s', put_loop (S m) fid (drop (idx * part_size) content) idx false s
        = Some (Finished false s').
Proof.
  induction m as [|m IH]; intros idx s Ho Ha Hd Hl Hn Hlen;
    [destruct (put_loop_step 0 idx s Ho Ha Hd Hl Hn)
       as (fin & j & s' & -> & Ho' & Ha' & Hd' & Hl' & Hfin)
    |destruct (put_loop_step (S m) idx s Ho Ha Hd Hl Hn)
       as (fin & j & s' & -> & Ho' & Ha' & Hd' & Hl' & Hfin)];
    (destruct fin; [eauto|]); destruct (Hfin eq_refl) as (Hn' & -> & Hlt).
  - exfalso. rewrite length_drop in Hlen.
    rewrite batch_size_eq, part_size_eq in *. lia.
  - apply IH; auto. rewrite length_drop in *.
    rewrite batch_size_eq, part_size_eq in *. lia.
Qed.

End Stored.

Section PutDone.
Context `{Codec}.

(** A put that reaches its last statement has stored every chunk of the
    source, in order, and registered the file as complete. *)
Lemma put_done_data fuel w name s s' :
  handle_put_command fuel [w; name] s = Some (s', Put_done) →
  ∃ content n u out o,
    disk s !! name = Some content ∧
    chunk content n = [] ∧
    s' = mkSystem (parts_directory s) (memory_limit s) u (file_next_id s + 1)
           (<[file_next_id s := mkFile (file_next_id s) name true n]> (files s))
           (part_next_id s + n + 1)
           (<[file_next_id s :=
                recorded_part (file_next_id s) (part_next_id s) content <$> seq 0 n]>
              (parts s))
           (stored (parts_directory s) (file_next_id s) content 0 n (disk s))
           out o.
Proof.
  unfold handle_put_command. intros Hp. ask; [|done].
  destruct (disk s !! name) as [content|] eqn:Hc; simpl in Hp; [|done].
  destruct (put_loop _ _ _ _ _ _) as [[locked s1|s1|e locked s1]|] eqn:Hl; try done.
  eapply (put_loop_data (parts_directory s) (file_next_id s) (part_next_id s) content
            fuel 0) in Hl; simpl; [|done|by rewrite lookup_insert_eq|lia].
  destruct Hl as (n & u & out & o' & _ & Hn & ->). simpl in Hp.
  rewrite !lookup_insert_eq in Hp. simpl in Hp.
  injection Hp as <-. exists content, n, u, (out ++ [Put_completed name]), o'.
  split; [done|]. split; [done|].
  rewrite length_fmap, length_seq, Nat.sub_0_r, !insert_insert_eq. reflexivity.
Qed.

(** Without contention, with room for one batch and with the source there,
    a put completes. *)
Lemma put_completes w name s content :
  oracle s = [] →
  admits s = true →
  disk s !! name = Some content →
  ∃ fuel s', handle_put_command fuel [w; name] s = Some (s', Put_done).
Proof.
  intros Ho Ha Hsrc.
  set (s0 := set_parts (<[file_next_id s := []]> (parts s))
               (set_files (<[file_next_id s :=
                               mkFile (file_next_id s) name false 0]> (files s))
                  (set_file_next_id (file_next_id s + 1) s))).
  assert (parts s0 !! file_next_id s
          = Some (recorded_part (file_next_id s) (part_next_id s) content <$> seq 0 0))
    as Hparts by apply lookup_insert_eq.
  assert (part_next_id s0 = part_next_id s + 0) as Hnext by (simpl; lia).
  destruct (put_loop_total (parts_directory s) (file_next_id s) (part_next_id s)
              content (length content) 0 s0 Ho Ha eq_refl Hparts Hnext)
    as (s1 & Hl).
  { simpl. rewrite length_drop, batch_size_eq, part_size_eq. lia. }
  exists (S (length content)). unfold handle_put_command, consult.
  rewrite Ho. cbv zeta. cbn [negb].
  match goal with |- context [disk ?x !! name] => change (disk x) with (disk s) end.
  rewrite Hsrc.
  change (drop (0 * part_size) content) with content in Hl.
  match goal with |- context [put_loop _ _ _ _ _ ?x] => change x with s0 end.
  rewrite Hl.
  eapply (put_loop_data (parts_directory s) (file_next_id s) (part_next_id s) content
            _ 0 _ s0 _ eq_refl Hparts Hnext) in Hl.
  destruct Hl as (n & u & out & o' & _ & Hn & ->). simpl.
  rewrite !lookup_insert_eq. eauto.
Qed.

End PutDone.

(** ** What a get writes *)

Section Loading.
Context `{Codec}.
Variables (dir name : string) (D : gmap string bytes).

(** Part [p] passes the integrity check and yields [data]; part [p] fails
    it. Both refer to the disk [D] on which the get started. *)
Definition loads (p : FilePart) (data : bytes) : Prop :=
  read_file (part_hash p) (dir +:+ part_path p) D = inr (true, Some data).

Definition corrupt (p : FilePart) : Prop :=
  read_file (part_hash p) (dir +:+ part_path p) D = inr (false, None).

Lemma read_file_result h path d ok x :
  read_file h path d = inr (ok, x) →
  (ok = true ∧ ∃ data, x = Some data) ∨ (ok = false ∧ x = None).
Proof.
  unfold read_file. destruct (d !! path); [|done].
  destruct (zlib_decompress _); [|done].
  case_bool_decide; intros [= <- <-]; eauto.
Qed.

Lemma read_file_insert_ne h path acc :
  path ≠ name → read_file h path (<[name := acc]> D) = read_file h path D.
Proof. intros Hne. unfold read_file. by rewrite lookup_insert_ne. Qed.

(** The results of one batch, read while the destination holds [acc]. *)
Lemma read_all_data acc : ∀ (batch : list FilePart) results,
  (∀ p, p ∈ batch → dir +:+ part_path p ≠ name) →
  read_all ((λ p, (part_hash p, dir +:+ part_path p)) <$> batch) (<[name := acc]> D)
  = inr results →
  Forall2 (λ p r, read_file (part_hash p) (dir +:+ part_path p) D = inr r)
          batch results.
Proof.
  induction batch as [|p batch IH]; intros results Hne Hr; simpl in Hr.
  { injection Hr as <-. constructor. }
  rewrite read_file_insert_ne in Hr by (apply Hne; left).
  destruct (read_file _ _ D) as [e|r] eqn:Er; [done|].
  destruct (read_all _ _) as [e|rs] eqn:Ers; [done|].
  injection Hr as <-. constructor; [done|].
  apply IH; [|done]. intros q Hq. apply Hne. by right.
Qed.

Lemma write_insert acc data s :
  disk s = <[name := acc]> D → disk (write name data s) = <[name := acc ++ data]> D.
Proof.
  intros Hd. unfold write. simpl. rewrite Hd, lookup_insert_eq, insert_insert_eq.
  reflexivity.
Qed.

(** Lines 234-246 on the results of one batch: the data of the results
    before the first failed check is appended, and nothing after it. *)
Lemma get_emit_data : ∀ results acc s,
  disk s = <[name := acc]> D →
  match get_emit name results s with
  | Emit_done s' =>
      ∃ datas, Forall2 (λ r data, r = (true, Some data)) results datas ∧
               disk s' = <[name := acc ++ concat datas]> D
  | Emit_returned s' =>
      ∃ k x datas, results !! k = Some (false, x) ∧
                 Forall2 (λ r data, r = (true, Some data)) (take k results) datas ∧
                 disk s' = <[name := acc ++ concat datas]> D
  | Emit_raised _ _ => True
  end.
Proof.
  induction results as [|[[|] x] results IH]; intros acc s Hd; simpl.
  - exists []. rewrite app_nil_r. split; [constructor|done].
  - destruct x as [data|]; [|done].
    specialize (IH (acc ++ data) (write name data s) (write_insert _ _ _ Hd)).
    destruct (get_emit _ _ _) as [s'|e s'|s']; [|done|].
    + destruct IH as (k & x & datas & Hk & Hall & Hdisk).
      exists (S k), x, (data :: datas). simpl. rewrite app_assoc.
      split; [done|]. split; [by constructor|done].
    + destruct IH as (datas & Hall & Hdisk).
      exists (data :: datas). simpl. rewrite app_assoc. split; [by constructor|done].
  - ask; exists 0, x, []; rewrite app_nil_r; (split; [done|]); (split; [constructor|]);
      done.
Qed.

Lemma loads_batch (batch : list FilePart) results : ∀ datas,
  Forall2 (λ p r, read_file (part_hash p) (dir +:+ part_path p) D = inr r)
          batch results →
  Forall2 (λ r data, r = (true, Some data)) results datas →
  Forall2 loads batch datas.
Proof.
  intros datas Hb. revert datas.
  induction Hb as [|p r batch results Hp Hb IH]; intros datas Hr.
  - inversion Hr. constructor.
  - inversion Hr as [|? data ? datas' Hd Hr']; subst. constructor; [exact Hp|auto].
Qed.

Lemma slice_drop {A} (l : list A) index :
  drop (index * batch_size) l
  = slice (index * batch_size)
          (if (index + 1) * batch_size <? length l then (index + 1) * batch_size
           else length l) l
    ++ drop ((index + 1) * batch_size) l.
Proof.
  unfold slice. destruct (_ <? _) eqn:E.
  - replace ((index + 1) * batch_size - index * batch_size) with batch_size by lia.
    replace ((index + 1) * batch_size) with (index * batch_size + batch_size) by lia.
    by rewrite <- drop_drop, take_drop.
  - apply Nat.ltb_ge in E.
    rewrite (drop_ge l ((index + 1) * batch_size)) by done.
    rewrite app_nil_r, take_ge; [done|]. rewrite length_drop. lia.
Qed.

(** The loop of get, entered with [acc] written to the destination and the
    parts from position [index * batch_size] on still to load. *)
Lemma get_loop_data l fuel : ∀ index locked acc s r,
  parts_directory s = dir →
  (∀ p, p ∈ l → dir +:+ part_path p ≠ name) →
  disk s = <[name := acc]> D →
  get_loop fuel name l index locked s = Some r →
  match r with
  | Finished _ s' =>
      ∃ datas, Forall2 loads (drop (index * batch_size) l) datas ∧
               disk s' = <[name := acc ++ concat datas]> D
  | Returned s' =>
      ∃ k p datas,
        drop (index * batch_size) l !! k = Some p ∧ corrupt p ∧
        Forall2 loads (take k (drop (index * batch_size) l)) datas ∧
        disk s' = <[name := acc ++ concat datas]> D
  | Raised _ _ _ => True
  end.
Proof.
  induction fuel as [|fuel IH]; intros index locked acc s r Hdir Hne Hd Hr;
    simpl in Hr; [done|].
  destruct (index * batch_size <? length l) eqn:Hlt; simpl in Hr.
  2:{ injection Hr as <-. exists []. apply Nat.ltb_ge in Hlt.
      rewrite drop_ge, app_nil_r by done. split; [constructor|done]. }
  ask; [|exact (IH index locked acc (set_oracle o s) r Hdir Hne Hd Hr)].
  destruct (admits _) eqn:Ha; simpl in Hr;
    [|exact (IH index locked acc (set_oracle o s) r Hdir Hne Hd Hr)].
  unfold starmap_read in Hr. ask; [|by injection Hr as <-].
  unfold store_path in Hr. simpl in Hr. rewrite Hdir, Hd in Hr.
  rewrite (slice_drop l index).
  set (batch := slice _ _ l) in *.
  assert (∀ p, p ∈ batch → dir +:+ part_path p ≠ name) as Hne'.
  { intros p Hp. apply Hne. unfold batch, slice in Hp.
    apply elem_of_take in Hp as (i & Hi & _). rewrite lookup_drop in Hi.
    by eapply list_elem_of_lookup_2. }
  destruct (read_all _ _) as [e|results] eqn:Hra; [by injection Hr as <-|].
  apply read_all_data in Hra; [|done].
  match type of Hr with context [get_emit name results ?s2] =>
    pose proof (get_emit_data results acc s2 Hd) as He;
    pose proof (stable_get_emit name results s2) as Hst;
    destruct (get_emit name results s2) as [s3|e s3|s3] end; simpl in Hr.
  - injection Hr as <-. destruct He as (k & x & datas & Hk & Hall & Hdisk).
    destruct (Forall2_lookup_r _ _ _ _ _ Hra Hk) as (p & Hp & Hread).
    destruct (read_file_result _ _ _ _ _ Hread) as [[? _]|[_ ->]]; [done|].
    exists k, p, datas. split; [by apply lookup_app_l_Some|]. split; [done|].
    split; [|done].
    rewrite take_app_le by (apply lookup_lt_Some in Hp; lia).
    eapply loads_batch; [|exact Hall]. by apply Forall2_take.
  - by injection Hr as <-.
  - destruct He as (datas1 & Hall & Hdisk).
    pose proof (loads_batch _ _ _ Hra Hall) as Hl1.
    destruct Hst as (Hdir3 & _). simpl in Hdir3.
    assert (∀ locked' s4, disk s4 = disk s3 → parts_directory s4 = parts_directory s3 →
              get_loop fuel name l (index + 1) locked' s4 = Some r →
              match r with
              | Finished _ s' =>
                  ∃ datas, Forall2 loads (batch ++ drop ((index + 1) * batch_size) l) datas ∧
                           disk s' = <[name := acc ++ concat datas]> D
              | Returned s' =>
                  ∃ k p datas,
                    (batch ++ drop ((index + 1) * batch_size) l) !! k = Some p ∧
                    corrupt p ∧
                    Forall2 loads (take k (batch ++ drop ((index + 1) * batch_size) l))
                            datas ∧
                    disk s' = <[name := acc ++ concat datas]> D
              | Raised _ _ _ => True
              end) as Hend.
    { intros locked' s4 Hd4 Hdir4 Hr4.
      apply (IH _ _ (acc ++ concat datas1)) in Hr4; [|congruence|done|congruence].
      pose proof (Forall2_length _ _ _ Hl1) as Hlen.
      destruct r as [? s'|s'|]; [| |done].
      - destruct Hr4 as (datas2 & Hl2 & Hdisk2). exists (datas1 ++ datas2).
        split; [by apply Forall2_app|]. by rewrite concat_app, app_assoc.
      - destruct Hr4 as (k & p & datas2 & Hk & Hc & Hl2 & Hdisk2).
        exists (length batch + k), p, (datas1 ++ datas2).
        split; [by rewrite lookup_app_r, Nat.add_comm, Nat.add_sub by lia|].
        split; [done|]. split; [|by rewrite concat_app, app_assoc].
        rewrite take_app_ge, Nat.add_comm, Nat.add_sub by lia. by apply Forall2_app. }
    ask; (eapply Hend; [| |exact Hr]; reflexivity).
Qed.



Lemma slice_subseteq (l : list FilePart) start end_ p : p ∈ slice start end_ l → p ∈ l.
Proof.
  unfold slice. intros (i & Hi & _)%elem_of_take. rewrite lookup_drop in Hi.
  by eapply list_elem_of_lookup_2.
Qed.




End Loading.

Section LoadingFailed.
Context `{Codec}.

(** [writer.write(data)] is never reached with [data = None]: the results
    of [read_file] carry data whenever their flag is set. *)
Lemma get_emit_raised name : ∀ results s e s',
  get_emit name results s = Emit_raised e s' →
  ∃ k, results !! k = Some (true, None).
Proof.
  induction results as [|[[|] x] results IH]; intros s e s' He; simpl in He; [done| |].
  - destruct x as [data|]; [|by exists 0].
    apply IH in He as [k Hk]. by exists (S k).
  - by ask.
Qed.

Variables (dir name : string) (D : gmap string bytes).

(** A batch whose dispatch raised: one of its parts could not be read. *)
Lemma read_all_raised acc : ∀ (batch : list FilePart) e,
  (∀ p, p ∈ batch → dir +:+ part_path p ≠ name) →
  read_all ((λ p, (part_hash p, dir +:+ part_path p)) <$> batch) (<[name := acc]> D)
  = inl e →
  ∃ k p, batch !! k = Some p ∧
         read_file (part_hash p) (dir +:+ part_path p) D = inl e.
Proof.
  induction batch as [|p batch IH]; intros e Hne Hr; simpl in Hr; [done|].
  rewrite (read_file_insert_ne name D) in Hr by (apply Hne; left).
  destruct (read_file _ _ D) as [e1|r] eqn:Er.
  { injection Hr as <-. by exists 0, p. }
  destruct (read_all _ _) as [e1|rs] eqn:Ers; [|done].
  injection Hr as <-.
  destruct (IH e1) as (k & q & Hk & Hq); [|done|by exists (S k), q].
  intros q Hq. apply Hne. by right.
Qed.

(** The loop of get left on an exception: the batches before the one that
    raised have been written in full, and nothing of that one. *)
Lemma get_loop_raised l fuel : ∀ index locked acc s e locked' s',
  parts_directory s = dir →
  (∀ p, p ∈ l → dir +:+ part_path p ≠ name) →
  disk s = <[name := acc]> D →
  get_loop fuel name l index locked s = Some (Raised e locked' s') →
  ∃ n datas,
    (index + n) * batch_size < length l ∧
    Forall2 (loads dir D) (take (n * batch_size) (drop (index * batch_size) l)) datas ∧
    disk s' = <[name := acc ++ concat datas]> D ∧
    (e = PoolError ∨
     ∃ k p, (index + n) * batch_size ≤ k < (index + n + 1) * batch_size ∧
            l !! k = Some p ∧
            read_file (part_hash p) (dir +:+ part_path p) D = inl e).
Proof.
  induction fuel as [|fuel IH]; intros index locked acc s e locked' s' Hdir Hne Hd Hr;
    simpl in Hr; [done|].
  destruct (index * batch_size <? length l) eqn:Hlt; simpl in Hr; [|done].
  apply Nat.ltb_lt in Hlt.
  ask; [|exact (IH index locked acc (set_oracle o s) _ _ _ Hdir Hne Hd Hr)].
  destruct (admits _) eqn:Ha; simpl in Hr;
    [|exact (IH index locked acc (set_oracle o s) _ _ _ Hdir Hne Hd Hr)].
  unfold starmap_read in Hr. ask.
  2:{ injection Hr as <- <- <-. exists 0, []. rewrite Nat.add_0_r, app_nil_r.
      split; [done|]. split; [constructor|]. split; [done|by left]. }
  unfold store_path in Hr. simpl in Hr. rewrite Hdir, Hd in Hr.
  pose proof (slice_drop l index) as Hsplit.
  set (batch := slice _ _ l) in *.
  assert (∀ p, p ∈ batch → dir +:+ part_path p ≠ name) as Hne'.
  { intros p Hp. eapply Hne, slice_subseteq, Hp. }
  destruct (read_all _ _) as [e1|results] eqn:Hra.
  { injection Hr as <- <- <-. apply read_all_raised in Hra as (k & p & Hk & Hp); [|done].
    exists 0, []. rewrite Nat.add_0_r, app_nil_r.
    split; [done|]. split; [constructor|]. split; [done|right].
    exists (index * batch_size + k), p.
    assert (drop (index * batch_size) l !! k = Some p) as Hk'.
    { rewrite Hsplit. by apply lookup_app_l_Some. }
    rewrite lookup_drop in Hk'. split; [|done].
    apply lookup_lt_Some in Hk. unfold batch, slice in Hk.
    rewrite length_take, length_drop in Hk.
    destruct (_ <? _) eqn:E; [|apply Nat.ltb_ge in E]; lia. }
  apply (read_all_data dir name D) in Hra; [|done].
  match type of Hr with context [get_emit name results ?s2] =>
    pose proof (get_emit_data name D results acc s2 Hd) as He;
    pose proof (stable_get_emit name results s2) as Hst;
    pose proof (get_emit_raised name results s2) as Hnr;
    destruct (get_emit name results s2) as [s3|e3 s3|s3] end; simpl in Hr; [done| |].
  { exfalso. destruct (Hnr _ _ eq_refl) as (k & Hk).
    destruct (Forall2_lookup_r _ _ _ _ _ Hra Hk) as (p & _ & Hread).
    by destruct (read_file_result _ _ _ _ _ Hread) as [[_ [? ?]]|[? _]]. }
  destruct He as (datas1 & Hall & Hdisk).
  pose proof (loads_batch dir D _ _ _ Hra Hall) as Hl1.
  destruct Hst as (Hdir3 & _). simpl in Hdir3.
  assert (∀ locked1 s4, disk s4 = disk s3 → parts_directory s4 = parts_directory s3 →
            get_loop fuel name l (index + 1) locked1 s4 = Some (Raised e locked' s') →
            ∃ n datas,
              (index + n) * batch_size < length l ∧
              Forall2 (loads dir D)
                      (take (n * batch_size) (drop (index * batch_size) l)) datas ∧
              disk s' = <[name := acc ++ concat datas]> D ∧
              (e = PoolError ∨
               ∃ k p, (index + n) * batch_size ≤ k < (index + n + 1) * batch_size ∧
                      l !! k = Some p ∧
                      read_file (part_hash p) (dir +:+ part_path p) D = inl e)) as Hend.
  { intros locked1 s4 Hd4 Hdir4 Hr4.
    apply (IH _ _ (acc ++ concat datas1)) in Hr4; [|congruence|done|congruence].
    destruct Hr4 as (n & datas2 & Hn & Hl2 & Hdisk2 & Hwhy).
    assert (length batch = batch_size) as Hlen.
    { unfold batch, slice. rewrite length_take, length_drop.
      destruct (_ <? _) eqn:E; [lia|]. apply Nat.ltb_ge in E. lia. }
    exists (S n), (datas1 ++ datas2).
    split; [lia|]. split; [|split].
    - rewrite Hsplit, take_app_ge by lia. apply Forall2_app; [done|].
      replace (S n * batch_size - length batch) with (n * batch_size) by lia. done.
    - by rewrite concat_app, app_assoc.
    - destruct Hwhy as [->|(k & p & Hk & Hp & Hread)]; [by left|right].
      exists k, p. split; [lia|done]. }
  ask; (eapply Hend; [| |exact Hr]; reflexivity).
Qed.

End LoadingFailed.

(** ** How a get ends *)


(** The messages from [s] to [s'] all satisfy [P]. *)
Definition says (P : Message → Prop) (s s' : FileStorageSystem) : Prop :=
  ∃ msgs, stdout s' = stdout s ++ msgs ∧ Forall P msgs.

Lemma says_trans P s1 s2 s3 : says P s1 s2 → says P s2 s3 → says P s1 s3.
Proof.
  intros (m1 & E1 & H1) (m2 & E2 & H2). exists (m1 ++ m2).
  split; [by rewrite E2, E1, app_assoc|by apply Forall_app].
Qed.

Ltac says_now :=
  unfold says, release, reserve; eexists; split;
  [ first [ symmetry; apply app_nil_r
          | simpl; rewrite <- ?app_assoc; reflexivity ]
  | repeat constructor; done ].

(** The messages of the loop of get: it does not write "Failed to get
    file", which is left to the [except] clause. *)
Definition of_get_loop (m : Message) : Prop :=
  m = Get_hash_mismatch ∨ m = Get_could_not_release ∨ m = Get_failed_to_notify.

Section LoadingEnds.
Context `{Codec}.

Lemma get_emit_says name : ∀ result s,
  says of_get_loop s (emitted_state (get_emit name result s)).
Proof.
  induction result as [|[[|] data] result IH]; intros; simpl; [says_now| |].
  - destruct data; simpl; [|says_now].
    eapply says_trans; [|apply IH]. says_now.
  - ask; says_now; unfold of_get_loop; auto.
Qed.

Lemma get_loop_says name l fuel : ∀ index locked s r,
  get_loop fuel name l index locked s = Some r →
  says of_get_loop s (flow_state r).
Proof.
  induction fuel as [|fuel IH]; intros * Hr; simpl in Hr; [done|].
  destruct (_ <? _); simpl in Hr; [|injection Hr as <-; says_now].
  ask; [|eapply says_trans; [|eapply IH, Hr]; says_now].
  destruct (admits _) eqn:Ha; simpl in Hr;
    [|eapply says_trans; [|eapply IH, Hr]; says_now].
  unfold starmap_read in Hr. ask; [|injection Hr as <-; says_now].
  destruct (read_all _ _) as [e|result]; simpl in Hr; [injection Hr as <-; says_now|].
  match type of Hr with context [get_emit name result ?s2] =>
    pose proof (get_emit_says name result s2) as He;
    assert (says of_get_loop s s2) as Hs2 by says_now;
    destruct (get_emit name result s2) as [s3|e s3|s3] end; simpl in He, Hr;
    pose proof (says_trans _ _ _ _ Hs2 He) as Hs3.
  1,2: by injection Hr as <-.
  ask; (eapply says_trans; [|eapply IH, Hr]); (eapply says_trans; [exact Hs3|]);
    says_now; unfold of_get_loop; auto.
Qed.



(** The [except] clause reports the exception first. *)
Lemma on_exception_reports failed could_not_release e locked s :
  ∃ rest, stdout (on_exception failed could_not_release e locked s)
          = stdout s ++ failed e :: rest ∧
          (rest = [] ∨ rest = [could_not_release]).
Proof.
  unfold on_exception. destruct locked; simpl; [|exists []; by split; [|left]].
  ask; eexists; simpl; rewrite <- ?app_assoc; (split; [reflexivity|]); auto.
Qed.






End LoadingEnds.

(** ** What a delete leaves in the part registry *)

(** Only the sequence registered under [fid] is edited. *)
Definition elsewhere (fid : nat) (s s' : FileStorageSystem) : Prop :=
  ∀ k, k ≠ fid → parts s' !! k = parts s !! k.

Lemma elsewhere_trans fid s1 s2 s3 :
  elsewhere fid s1 s2 → elsewhere fid s2 s3 → elsewhere fid s1 s3.
Proof. intros H1 H2 k Hk. rewrite H2, H1; auto. Qed.

Ltac elsewhere_now :=
  let k := fresh "k" in
  let Hk := fresh "Hk" in
  intros k Hk; simpl; rewrite ?lookup_insert_ne by done; reflexivity.

Ltac elsewhere_then IH := eapply elsewhere_trans; [|apply IH]; elsewhere_now.

Lemma elsewhere_delete_mark fid : ∀ n start s,
  elsewhere fid s (result_state (delete_mark fid start n s)).
Proof.
  induction n as [|n IH]; intros; simpl; [elsewhere_now|].
  destruct (parts s !! fid) eqn:E; simpl; [|elsewhere_now].
  destruct (l !! start); simpl; [elsewhere_then IH|elsewhere_now].
Qed.

Lemma elsewhere_delete_erase fid index len : ∀ result i s,
  elsewhere fid s (result_state (delete_erase fid index len i result s)).
Proof.
  induction result as [|[|] result IH]; intros; simpl;
    [elsewhere_now| |elsewhere_then IH].
  destruct (parts s !! fid) eqn:E; simpl; [|elsewhere_now].
  destruct (_ <? _); simpl; [elsewhere_then IH|elsewhere_now].
Qed.

Lemma elsewhere_map_delete fid batch s :
  elsewhere fid s (outcome_state (map_delete batch s)).
Proof.
  unfold map_delete. ask; [|elsewhere_now].
  destruct (delete_all _ _); simpl. elsewhere_now.
Qed.

Lemma elsewhere_delete_batch fid index s :
  elsewhere fid s (result_state (delete_batch fid index s)).
Proof.
  unfold delete_batch. destruct (parts s !! fid) as [l|] eqn:E; simpl; [|elsewhere_now].
  match goal with |- context [delete_mark ?a ?b ?c ?d] =>
    pose proof (elsewhere_delete_mark a c b d) as Hm;
    destruct (delete_mark a b c d) as [[e s1]|s1] end; simpl in *; [done|].
  eapply elsewhere_trans; [apply Hm|].
  match goal with |- context [map_delete ?b ?s1] =>
    pose proof (elsewhere_map_delete fid b s1) as Hd;
    destruct (map_delete b s1) as [[e s2]|[result s2]] end; simpl in *; [done|].
  eapply elsewhere_trans; [apply Hd|]. apply elsewhere_delete_erase.
Qed.

Lemma elsewhere_delete_loop fid : ∀ index s,
  elsewhere fid s (result_state (delete_loop index fid s)).
Proof.
  induction index as [|index IH]; intros; simpl;
    pose proof (elsewhere_delete_batch fid) as Hb.
  - specialize (Hb 0 s). destruct (delete_batch fid 0 s) as [[e s1]|s1]; done.
  - specialize (Hb (S index) s).
    destruct (delete_batch fid (S index) s) as [[e s1]|s1]; simpl in *; [done|].
    eapply elsewhere_trans; [apply Hb|apply IH].
Qed.

Lemma store_path_fmap s (l : list FilePart) :
  store_path s <$> l = String.append (parts_directory s) <$> (part_path <$> l).
Proof. by rewrite <- list_fmap_compose. Qed.

Lemma delete_mark_paths fid : ∀ n start s s' cur,
  parts s !! fid = Some cur →
  delete_mark fid start n s = inr s' →
  ∃ cur', parts s' !! fid = Some cur' ∧
          part_path <$> cur' = part_path <$> cur ∧
          disk s' = disk s ∧ parts_directory s' = parts_directory s.
Proof.
  induction n as [|n IH]; intros start s s' cur Hc Hm; simpl in Hm.
  { injection Hm as <-. eauto. }
  rewrite Hc in Hm. destruct (cur !! start) as [p|] eqn:Hp; [|done].
  eapply IH in Hm; [|simpl; apply lookup_insert_eq].
  destruct Hm as (cur' & Hc' & Hpaths & Hdisk & Hdir).
  exists cur'. split; [done|]. split; [|done].
  rewrite Hpaths, list_fmap_insert. simpl. apply list_insert_id.
  by rewrite list_lookup_fmap, Hp.
Qed.

Lemma delete_all_present : ∀ batch d,
  NoDup batch →
  (∀ q, q ∈ batch → is_Some (d !! q)) →
  ∃ d', delete_all batch d = (replicate (length batch) true, d') ∧
        (∀ q, q ∉ batch → d' !! q = d !! q).
Proof.
  induction batch as [|path batch IH]; intros d Hnd Hin; simpl.
  { eauto. }
  apply NoDup_cons in Hnd as [Hnotin Hnd].
  destruct (Hin path) as [x Hx]; [left|]. unfold delete_file. rewrite Hx.
  destruct (IH (delete path d) Hnd) as (d' & -> & Hout).
  { intros q Hq. rewrite lookup_delete_ne; [apply Hin; by right|].
    intros ->. done. }
  exists d'. split; [done|]. intros q Hq. apply not_elem_of_cons in Hq as [Hne Hq].
  rewrite Hout by done. by apply lookup_delete_ne.
Qed.

(** When every removal of the batch succeeded, lines 296-300 cut the
    sequence back to the start of the batch. *)
Lemma delete_erase_all fid index n : ∀ m i s s' lst,
  n = i + m →
  parts s !! fid = Some lst →
  length lst ≤ index * batch_size + m →
  delete_erase fid index n i (replicate m true) s = inr s' →
  parts s' !! fid = Some (take (index * batch_size) lst) ∧
  disk s' = disk s ∧ parts_directory s' = parts_directory s.
Proof.
  induction m as [|m IH]; intros i s s' lst Hn Hl Hlen He; simpl in He.
  { injection He as <-. rewrite take_ge by lia. done. }
  rewrite Hl in He. destruct (_ <? _) eqn:Hk; [|done]. apply Nat.ltb_lt in Hk.
  eapply (IH (S i)) in He; [| lia | simpl; apply lookup_insert_eq |].
  - destruct He as (-> & -> & ->). split; [|done]. f_equal.
    rewrite delete_take_drop, (drop_ge lst) by lia.
    rewrite app_nil_r, take_take. f_equal. lia.
  - rewrite length_delete by (apply lookup_lt_is_Some; lia). lia.
Qed.

(** One turn of the loop of delete on a sequence that ends within the
    batch, every part file being there: the batch is gone from the
    sequence, and the files of the parts before it are still there. *)
Lemma delete_batch_clears fid index s s' cur :
  parts s !! fid = Some cur →
  length cur ≤ (index + 1) * batch_size →
  NoDup (store_path s <$> cur) →
  (∀ q, q ∈ store_path s <$> cur → is_Some (disk s !! q)) →
  delete_batch fid index s = inr s' →
  ∃ cur2, parts s' !! fid = Some cur2 ∧
          length cur2 ≤ index * batch_size ∧
          NoDup (store_path s' <$> cur2) ∧
          (∀ q, q ∈ store_path s' <$> cur2 → is_Some (disk s' !! q)).
Proof.
  intros Hc Hlen Hnd Hin Hb. unfold delete_batch in Hb. rewrite Hc in Hb.
  assert ((if (index + 1) * batch_size <? length cur then (index + 1) * batch_size
           else length cur) = length cur) as Hend.
  { destruct (_ <? _) eqn:E; [|done]. apply Nat.ltb_lt in E. lia. }
  cbv zeta in Hb. rewrite Hend in Hb.
  destruct (delete_mark _ _ _ _) as [[e s1]|s1] eqn:Hm; [done|].
  destruct (delete_mark_paths _ _ _ _ _ _ Hc Hm) as (cur' & Hc' & Hpaths & Hdisk & Hdir).
  unfold map_delete in Hb. ask; [|done].
  set (batch := store_path s <$> slice (index * batch_size) (length cur) cur) in *.
  assert (store_path s <$> cur
          = take (index * batch_size) (store_path s <$> cur) ++ batch) as Hsplit.
  { unfold batch, slice.
    rewrite (take_ge (drop _ cur)) by (rewrite length_drop; lia).
    by rewrite fmap_drop, take_drop. }
  rewrite Hsplit in Hnd. apply NoDup_app in Hnd as (Hnd1 & Hdisj & Hnd2).
  destruct (delete_all_present batch (disk s1) Hnd2) as (d' & Hda & Hout).
  { intros q Hq. rewrite Hdisk. apply Hin. rewrite Hsplit.
    apply elem_of_app. by right. }
  rewrite Hda in Hb.
  apply (delete_erase_all fid index _ _ 0 _ _ cur') in Hb;
    [|by rewrite length_replicate|done|].
  2:{ apply (f_equal length) in Hpaths. rewrite !length_fmap in Hpaths.
      rewrite Hpaths. unfold batch, slice.
      rewrite length_fmap, length_take, length_drop. lia. }
  destruct Hb as (Hc2 & Hd2 & Hdir2). simpl in Hd2, Hdir2.
  assert (store_path s' <$> take (index * batch_size) cur'
          = take (index * batch_size) (store_path s <$> cur)) as Hp2.
  { rewrite fmap_take. f_equal.
    rewrite !store_path_fmap, Hdir2. simpl. by rewrite Hdir, Hpaths. }
  exists (take (index * batch_size) cur'). split; [done|].
  split; [rewrite length_take; lia|]. rewrite Hp2. split; [done|].
  intros q Hq. rewrite Hd2, Hout by (intros Hq'; by apply (Hdisj q)).
  rewrite Hdisk. apply Hin. rewrite Hsplit. apply elem_of_app. by left.
Qed.

Lemma delete_loop_clears fid : ∀ index s s' cur,
  parts s !! fid = Some cur →
  length cur ≤ (index + 1) * batch_size →
  NoDup (store_path s <$> cur) →
  (∀ q, q ∈ store_path s <$> cur → is_Some (disk s !! q)) →
  delete_loop index fid s = inr s' →
  parts s' !! fid = Some [].
Proof.
  induction index as [|index IH]; intros s s' cur Hc Hlen Hnd Hin Hl; simpl in Hl;
    destruct (delete_batch _ _ _) as [[e s1]|s1] eqn:Hb; try done;
    destruct (delete_batch_clears _ _ _ _ _ Hc Hlen Hnd Hin Hb)
      as (cur2 & Hc2 & Hlen2 & Hnd2 & Hin2).
  - injection Hl as <-. rewrite Hc2. f_equal. apply nil_length_inv. lia.
  - eapply IH; eauto. lia.
Qed.

(** ** Whole handlers *)

(** What holds from the first to the last statement of any handler: the
    part registry loses no key and the usage moves by admission steps. *)
Definition evolves (s s' : FileStorageSystem) : Prop :=
  parts_directory s' = parts_directory s ∧
  dom (parts s) ⊆ dom (parts s') ∧
  rtc admission_step s s'.

Lemma stable_evolves s s' : stable s s' → evolves s s'.
Proof. intros (?&?&?&?&?&?&?). by repeat split. Qed.

Lemma evolves_trans s1 s2 s3 : evolves s1 s2 → evolves s2 s3 → evolves s1 s3.
Proof.
  intros (?&?&?) (?&?&?). repeat split; [congruence|set_solver|by etrans].
Qed.

Ltac evolves_now :=
  unfold evolves, release, reserve; simpl;
  repeat match goal with |- _ ∧ _ => split end;
  try (rewrite ?dom_insert_L; solve [auto | lia | set_solver]);
  first [ apply rtc_once, admission_other; simpl; reflexivity
        | apply rtc_once, admission_release; simpl; reflexivity ].

Lemma stable_on_exception failed could_not_release e locked s :
  stable s (on_exception failed could_not_release e locked s).
Proof.
  unfold on_exception. destruct locked; simpl; [|stable_now]. ask; stable_now.
Qed.

Section WholeHandlers.
Context `{Codec}.

Lemma put_evolves fuel words s s' e :
  handle_put_command fuel words s = Some (s', e) → evolves s s'.
Proof.
  unfold handle_put_command. intros Hp.
  destruct words as [|w [|name [|]]]; try (injection Hp as <- <-; evolves_now).
  ask; [|injection Hp as <- <-; evolves_now].
  destruct (disk s !! name) as [content|]; simpl in Hp.
  2:{ injection Hp as <- <-. evolves_now. }
  destruct (put_loop _ _ _ _ _ _) as [r|] eqn:Hl; [|done].
  apply stable_put_loop, stable_evolves in Hl.
  eapply evolves_trans; [|eapply evolves_trans; [exact Hl|]]; [evolves_now|].
  destruct r as [locked s1|s1|e1 locked s1]; simpl in *.
  - destruct (files s1 !! file_next_id s), (parts s1 !! file_next_id s);
      injection Hp as <- <-; try evolves_now;
      apply stable_evolves, stable_on_exception.
  - injection Hp as <- <-. evolves_now.
  - injection Hp as <- <-. apply stable_evolves, stable_on_exception.
Qed.

Lemma get_stable fuel words s s' e :
  handle_get_command fuel words s = Some (s', e) → stable s s'.
Proof.
  unfold handle_get_command. intros Hg.
  destruct words as [|w [|raw [|]]]; try (injection Hg as <- <-; stable_now).
  destruct (isdigit raw); simpl in Hg; [|injection Hg as <- <-; stable_now].
  destruct (files s !! int raw) as [f|]; [|injection Hg as <- <-; stable_now].
  destruct (file_status f); simpl in Hg; [|injection Hg as <- <-; stable_now].
  destruct (parts s !! file_id f) as [l|]; [|injection Hg as <- <-; stable_now].
  destruct (get_loop _ _ _ _ _ _) as [r|] eqn:Hl; [|done].
  apply stable_get_loop in Hl.
  eapply stable_trans; [|eapply stable_trans; [exact Hl|]]; [stable_now|].
  destruct r as [locked s1|s1|e1 locked s1]; simpl in *;
    injection Hg as <- <-; try stable_now.
  apply stable_on_exception.
Qed.

Lemma put_account fuel words s s' e :
  handle_put_command fuel words s = Some (s', e) →
  extends s s' (memory_usage s' = memory_usage s).
Proof.
  intros Hp. unfold handle_put_command in Hp.
  destruct words as [|w [|name [|]]]; try (injection Hp as <- <-; extends_now).
  ask; [|injection Hp as <- <-; extends_now].
  destruct (disk s !! name) as [content|]; simpl in Hp.
  2:{ injection Hp as <- <-. extends_now. }
  destruct (put_loop _ _ _ _ _ _) as [r|] eqn:Hl; [|done].
  apply account_put_loop in Hl.
  eapply (extends_from _ _ _ _ eq_refl).
  destruct r as [locked s1|s1|e1 locked s1]; simpl in *.
  - destruct (files s1 !! file_next_id s), (parts s1 !! file_next_id s);
      injection Hp as <- <-.
    + eapply extends_trans; [exact Hl| |].
      { exists [Put_completed name]. split; [reflexivity|]. intros _. exact I. }
      simpl. intros [_ ->]; auto.
    + eapply account_except; [done|done|exact Hl|]. intros [-> ->]; [done|]. lia.
    + eapply account_except; [done|done|exact Hl|]. intros [-> ->]; [done|]. lia.
    + eapply account_except; [done|done|exact Hl|]. intros [-> ->]; [done|]. lia.
  - injection Hp as <- <-. eapply extends_weaken; [exact Hl|]. auto.
  - injection Hp as <- <-.
    eapply account_except; [done|done|exact Hl|]. intros [-> ->]; [done|]. done.
Qed.

Lemma get_account fuel words s s' e :
  handle_get_command fuel words s = Some (s', e) →
  extends s s' (memory_usage s' = memory_usage s).
Proof.
  intros Hg. unfold handle_get_command in Hg.
  destruct words as [|w [|raw [|]]]; try (injection Hg as <- <-; extends_now).
  destruct (isdigit raw); simpl in Hg; [|injection Hg as <- <-; extends_now].
  destruct (files s !! int raw) as [f|]; [|injection Hg as <- <-; extends_now].
  destruct (file_status f); simpl in Hg; [|injection Hg as <- <-; extends_now].
  destruct (parts s !! file_id f) as [l|]; [|injection Hg as <- <-; extends_now].
  destruct (get_loop _ _ _ _ _ _) as [r|] eqn:Hl; [|done].
  apply account_get_loop in Hl.
  eapply (extends_from _ _ _ _ eq_refl).
  destruct r as [locked s1|s1|e1 locked s1]; simpl in *; injection Hg as <- <-.
  - eapply extends_weaken; [exact Hl|]. intros [_ ->]; auto.
  - eapply extends_weaken; [exact Hl|]. auto.
  - eapply account_except; [done|done|exact Hl|]. intros [-> ->]; [done|]. done.
Qed.

End WholeHandlers.

Lemma delete_evolves words s s' e :
  handle_delete_command words s = (s', e) → evolves s s'.
Proof.
  unfold handle_delete_command. intros Hd.
  destruct words as [|w [|raw [|]]]; try (injection Hd as <- <-; evolves_now).
  destruct (isdigit raw); simpl in Hd; [|injection Hd as <- <-; evolves_now].
  destruct (files s !! int raw) as [f|]; [|injection Hd as <- <-; evolves_now].
  destruct (file_status f); simpl in Hd; [|injection Hd as <- <-; evolves_now].
  destruct (parts s !! file_id f) as [l|]; [|injection Hd as <- <-; evolves_now].
  match type of Hd with context [delete_loop ?i ?fid ?s0] =>
    pose proof (stable_delete_loop fid i s0) as Hl;
    destruct (delete_loop i fid s0) as [[e1 s1]|s1] end;
    simpl in Hl; apply stable_evolves in Hl; injection Hd as <- <-;
    (eapply evolves_trans; [|eapply evolves_trans; [exact Hl|]]); evolves_now.
Qed.

Lemma list_stable s : stable s (handle_list_command s).
Proof.
  unfold handle_list_command. generalize (snd <$> map_to_list (files s)).
  intros l. revert s. induction l as [|f l IH]; intros s; simpl.
  - apply stable_refl.
  - eapply stable_trans; [|apply IH]. stable_now.
Qed.

(** ** How much a lost release costs *)

(** The number of reports of a lost release among [msgs]. *)
Fixpoint lost_releases (msgs : list Message) : nat :=
  match msgs with
  | [] => 0
  | m :: msgs => (if reports_leak m then 1 else 0) + lost_releases msgs
  end.

Lemma lost_releases_app a b :
  lost_releases (a ++ b) = lost_releases a + lost_releases b.
Proof. induction a as [|m a IH]; simpl; [done|]. rewrite IH. lia. Qed.

(** From [s] to [s'] the usage has grown by one batch for every lost
    release reported in between, and by [held] batches more. *)
Definition charged (s s' : FileStorageSystem) (held : Z) : Prop :=
  ∃ msgs, stdout s' = stdout s ++ msgs ∧
          memory_usage s'
          = (memory_usage s + (Z.of_nat (lost_releases msgs) + held) * needed_memory)%Z.

Lemma charged_trans s1 s2 s3 h1 h2 h :
  charged s1 s2 h1 → charged s2 s3 h2 → h = (h1 + h2)%Z → charged s1 s3 h.
Proof.
  intros (m1 & E1 & U1) (m2 & E2 & U2) ->. exists (m1 ++ m2). split.
  - by rewrite E2, E1, app_assoc.
  - rewrite U2, U1, lost_releases_app. rewrite needed_memory_eq. lia.
Qed.

(** Closes [charged s s' h] when [s'] is written out as updates of [s]. *)
Ltac charged_now :=
  unfold charged, release, reserve; eexists; split;
  [ first [ symmetry; apply app_nil_r
          | simpl; rewrite <- ?app_assoc; reflexivity ]
  | simpl; rewrite needed_memory_eq; lia ].

Lemma charged_after s1 s2 s3 h1 h :
  charged s1 s2 h1 → charged s2 s3 (h - h1) → charged s1 s3 h.
Proof. intros H1 H2. eapply charged_trans; [exact H1|exact H2|lia]. Qed.

Lemma charged_before s1 s2 s3 h :
  charged s1 s2 0 → charged s2 s3 h → charged s1 s3 h.
Proof. intros H1 H2. eapply charged_trans; [exact H1|exact H2|lia]. Qed.

Ltac charged_then IH := eapply charged_before; [|apply IH]; charged_now.

Section Charges.
Context `{Codec}.

Lemma charged_put_fill n : ∀ fid reader index batch fps s,
  charged s (filled_state (put_fill n fid reader index batch fps s))
          (match put_fill n fid reader index batch fps s with
           | Fill_returned _ => -1
           | _ => 0
           end).
Proof.
  induction n as [|n IH]; intros; simpl; [charged_now|].
  ask; [|ask; charged_now].
  destruct (take part_size reader); simpl; [charged_now|].
  destruct (parts _ !! fid); simpl; [charged_then IH|charged_now].
Qed.

Lemma charged_put_record fid : ∀ fps result s,
  charged s (result_state (put_record fid fps result s)) 0.
Proof.
  induction fps as [|p fps IH]; intros; simpl; [charged_now|].
  destruct result; simpl; [charged_now|].
  destruct (parts s !! fid) as [l|]; simpl; [|charged_now].
  destruct (l !! part_index p); simpl; [charged_then IH|charged_now].
Qed.

(** An exception leaves the loop of put with one batch reserved; any
    other exit leaves it with none but the lost ones. *)
Lemma charged_put_loop fuel : ∀ fid reader index locked s r,
  put_loop fuel fid reader index locked s = Some r →
  match r with
  | Raised _ locked' s' => locked' = true ∧ charged s s' 1
  | Finished _ s' | Returned s' => charged s s' 0
  end.
Proof.
  induction fuel as [|fuel IH]; intros fid reader index locked s r Hr; simpl in Hr;
    [done|].
  assert (∀ s1 reader1 index1 locked1 h,
    charged s s1 h → h = 0%Z →
    put_loop fuel fid reader1 index1 locked1 s1 = Some r →
    match r with
    | Raised _ locked' s' => locked' = true ∧ charged s s' 1
    | Finished _ s' | Returned s' => charged s s' 0
    end) as Hnext.
  { intros s1 reader1 index1 locked1 h Hs1 -> Hr1. apply IH in Hr1.
    destruct r as [l' s'|s'|e l' s']; [| |destruct Hr1 as [-> Hr1]; split; [done|]];
      (eapply charged_trans; [exact Hs1|exact Hr1|reflexivity]). }
  ask; [|eapply (Hnext _ _ _ _ 0%Z); [|reflexivity|exact Hr]; charged_now].
  destruct (admits _) eqn:Ha; simpl in Hr;
    [|eapply (Hnext _ _ _ _ 0%Z); [|reflexivity|exact Hr]; charged_now].
  pose proof (charged_put_fill batch_size fid reader index [] []
                (reserve (set_oracle o s))) as Hf.
  assert (charged s (reserve (set_oracle o s)) 1) as Hres by charged_now.
  destruct (put_fill _ _ _ _ _ _ _) as [s1|e s1|fin reader' index' batch fps s1];
    simpl in Hf.
  { injection Hr as <-. eapply charged_trans; [exact Hres|exact Hf|reflexivity]. }
  { injection Hr as <-. split; [done|].
    eapply charged_trans; [exact Hres|exact Hf|reflexivity]. }
  assert (charged s s1 1) as Hs1
    by (eapply charged_trans; [exact Hres|exact Hf|reflexivity]).
  clear Hres Hf. unfold starmap_save in Hr. ask.
  2:{ injection Hr as <-. split; [done|].
      destruct (save_some_spec batch (set_oracle o0 s1)) as (o' & d' & ->).
      eapply charged_after; [exact Hs1|charged_now]. }
  destruct (save_all _ _) as [result d]. simpl in Hr.
  match type of Hr with context [put_record fid fps result ?s2] =>
    pose proof (charged_put_record fid fps result s2) as Hp;
    assert (charged s s2 1) as Hs2
      by (eapply charged_after; [exact Hs1|charged_now]);
    destruct (put_record fid fps result s2) as [[e s3]|s3] end; simpl in Hp, Hr.
  { injection Hr as <-. split; [done|].
    eapply charged_trans; [exact Hs2|exact Hp|reflexivity]. }
  assert (charged s s3 1) as Hs3
    by (eapply charged_trans; [exact Hs2|exact Hp|reflexivity]).
  clear Hs1 Hs2 Hp.
  ask; destruct fin.
  - injection Hr as <-. eapply charged_after; [exact Hs3|charged_now].
  - eapply (Hnext _ _ _ _ 0%Z); [|reflexivity|exact Hr].
    eapply charged_after; [exact Hs3|charged_now].
  - injection Hr as <-. eapply charged_after; [exact Hs3|charged_now].
  - eapply (Hnext _ _ _ _ 0%Z); [|reflexivity|exact Hr].
    eapply charged_after; [exact Hs3|charged_now].
Qed.

Lemma charged_get_emit name : ∀ result s,
  charged s (emitted_state (get_emit name result s))
          (match get_emit name result s with
           | Emit_returned _ => -1
           | _ => 0
           end).
Proof.
  induction result as [|[[|] data] result IH]; intros; simpl; [charged_now| |].
  - destruct data; simpl; [charged_then IH|charged_now].
  - ask; charged_now.
Qed.

Lemma charged_get_loop fuel : ∀ name file_parts index locked s r,
  get_loop fuel name file_parts index locked s = Some r →
  match r with
  | Raised _ locked' s' => locked' = true ∧ charged s s' 1
  | Finished _ s' | Returned s' => charged s s' 0
  end.
Proof.
  induction fuel as [|fuel IH]; intros name file_parts index locked s r Hr;
    simpl in Hr; [done|].
  assert (∀ s1 index1 locked1 h,
    charged s s1 h → h = 0%Z →
    get_loop fuel name file_parts index1 locked1 s1 = Some r →
    match r with
    | Raised _ locked' s' => locked' = true ∧ charged s s' 1
    | Finished _ s' | Returned s' => charged s s' 0
    end) as Hnext.
  { intros s1 index1 locked1 h Hs1 -> Hr1. apply IH in Hr1.
    destruct r as [l' s'|s'|e l' s']; [| |destruct Hr1 as [-> Hr1]; split; [done|]];
      (eapply charged_trans; [exact Hs1|exact Hr1|reflexivity]). }
  destruct (_ <? _); simpl in Hr; [|injection Hr as <-; charged_now].
  ask; [|eapply (Hnext _ _ _ 0%Z); [|reflexivity|exact Hr]; charged_now].
  destruct (admits _) eqn:Ha; simpl in Hr;
    [|eapply (Hnext _ _ _ 0%Z); [|reflexivity|exact Hr]; charged_now].
  unfold starmap_read in Hr. ask; [|injection Hr as <-; split; [done|charged_now]].
  destruct (read_all _ _) as [e|result]; simpl in Hr;
    [injection Hr as <-; split; [done|charged_now]|].
  match type of Hr with context [get_emit name result ?s2] =>
    pose proof (charged_get_emit name result s2) as He;
    assert (charged s s2 1) as Hs2 by charged_now;
    destruct (get_emit name result s2) as [s3|e s3|s3] end; simpl in He, Hr.
  { injection Hr as <-. eapply charged_trans; [exact Hs2|exact He|reflexivity]. }
  { injection Hr as <-. split; [done|].
    eapply charged_trans; [exact Hs2|exact He|reflexivity]. }
  assert (charged s s3 1) as Hs3
    by (eapply charged_trans; [exact Hs2|exact He|reflexivity]).
  ask; (eapply (Hnext _ _ _ 0%Z); [|reflexivity|exact Hr]);
    (eapply charged_after; [exact Hs3|charged_now]).
Qed.

Lemma charged_on_exception failed could_not_release e locked s :
  reports_leak (failed e) = false → reports_leak could_not_release = true →
  charged s (on_exception failed could_not_release e locked s)
          (if locked then -1 else 0).
Proof.
  intros Hf Hc. unfold on_exception. destruct locked; simpl.
  - ask; unfold charged, release; simpl; eexists;
      (split; [rewrite <- ?app_assoc; reflexivity|]); simpl; rewrite Hf, ?Hc;
      rewrite needed_memory_eq; lia.
  - unfold charged; simpl; eexists; (split; [reflexivity|]); simpl; rewrite Hf;
      rewrite needed_memory_eq; lia.
Qed.

(** The usage on leaving a put or a get. *)
Lemma put_charged fuel words s s' e :
  handle_put_command fuel words s = Some (s', e) → charged s s' 0.
Proof.
  intros Hp. unfold handle_put_command in Hp.
  destruct words as [|w [|name [|]]]; try (injection Hp as <- <-; charged_now).
  ask; [|injection Hp as <- <-; charged_now].
  destruct (disk s !! name) as [content|]; simpl in Hp.
  2:{ injection Hp as <- <-. charged_now. }
  destruct (put_loop _ _ _ _ _ _) as [r|] eqn:Hl; [|done].
  pose proof (stable_put_loop _ _ _ _ _ _ _ Hl) as (_ & _ & _ & Hfiles & _ & Hdom & _).
  apply charged_put_loop in Hl.
  match type of Hl with context [charged ?s0 _ _] =>
    assert (charged s s0 0) as Hs0 by charged_now end.
  destruct r as [locked s1|s1|e1 locked s1]; simpl in *.
  - assert (is_Some (files s1 !! file_next_id s)) as [f Hf].
    { rewrite Hfiles, lookup_insert_eq. eauto. }
    assert (is_Some (parts s1 !! file_next_id s)) as [l Hpl].
    { apply elem_of_dom, Hdom. rewrite dom_insert_L. set_solver. }
    rewrite Hf, Hpl in Hp. injection Hp as <- <-.
    eapply charged_after; [exact Hs0|]. eapply charged_after; [exact Hl|charged_now].
  - injection Hp as <- <-. eapply charged_trans; [exact Hs0|exact Hl|reflexivity].
  - injection Hp as <- <-. destruct Hl as [-> Hl].
    eapply charged_after; [exact Hs0|]. eapply charged_after; [exact Hl|].
    by apply (charged_on_exception Put_failed Put_could_not_release _ true).
Qed.

Lemma get_charged fuel words s s' e :
  handle_get_command fuel words s = Some (s', e) → charged s s' 0.
Proof.
  intros Hg. unfold handle_get_command in Hg.
  destruct words as [|w [|raw [|]]]; try (injection Hg as <- <-; charged_now).
  destruct (isdigit raw); simpl in Hg; [|injection Hg as <- <-; charged_now].
  destruct (files s !! int raw) as [f|]; [|injection Hg as <- <-; charged_now].
  destruct (file_status f); simpl in Hg; [|injection Hg as <- <-; charged_now].
  destruct (parts s !! file_id f) as [l|]; [|injection Hg as <- <-; charged_now].
  destruct (get_loop _ _ _ _ _ _) as [r|] eqn:Hl; [|done].
  apply charged_get_loop in Hl.
  match type of Hl with context [charged ?s0 _ _] =>
    assert (charged s s0 0) as Hs0 by charged_now end.
  destruct r as [locked s1|s1|e1 locked s1]; simpl in *; injection Hg as <- <-.
  - eapply charged_trans; [exact Hs0|exact Hl|reflexivity].
  - eapply charged_trans; [exact Hs0|exact Hl|reflexivity].
  - destruct Hl as [-> Hl].
    eapply charged_after; [exact Hs0|]. eapply charged_after; [exact Hl|].
    by apply (charged_on_exception Get_failed Get_could_not_release _ true).
Qed.

Lemma lost_releases_quiet msgs :
  existsb reports_leak msgs = false ↔ lost_releases msgs = 0.
Proof.
  induction msgs as [|m msgs IH]; simpl; [done|].
  destruct (reports_leak m); simpl; [split; [done|lia]|]. done.
Qed.

End Charges.

(** * The claims *)

Section Claims.
Context `{Codec}.

(** C6. Whenever a put leaves through a [return] inside the loop or through
    the [except] clause, that is on any failure after it registered its
    file, the File Registry still holds the entry it created, with
    [status = False] and [part_count = 0]. *)
Theorem put_failure_keeps_file_registered fuel w name s s' e :
  handle_put_command fuel [w; name] s = Some (s', e) →
  e = Put_aborted ∨ e = Put_excepted →
  files s' !! file_next_id s = Some (mkFile (file_next_id s) name false 0).
Proof.
  unfold handle_put_command. intros Hp He. ask.
  2:{ injection Hp as <- <-. by destruct He. }
  assert (∀ s1 : FileStorageSystem,
    files s1 = <[file_next_id s := mkFile (file_next_id s) name false 0]> (files s) →
    files s1 !! file_next_id s = Some (mkFile (file_next_id s) name false 0)) as Hreg.
  { intros s1 ->. apply lookup_insert_eq. }
  destruct (disk s !! name) as [content|]; simpl in Hp.
  2:{ injection Hp as <- <-. by apply Hreg. }
  destruct (put_loop _ _ _ _ _ _) as [r|] eqn:Hl; [|done].
  apply stable_put_loop in Hl. destruct Hl as (_ & _ & _ & Hf & _). simpl in Hf.
  destruct r as [locked s1|s1|e1 locked s1]; simpl in *.
  - rewrite Hf, lookup_insert_eq in Hp.
    destruct (parts s1 !! file_next_id s).
    + injection Hp as <- <-. by destruct He.
    + injection Hp as <- <-. apply Hreg.
      by destruct (stable_on_exception Put_failed Put_could_not_release KeyError
                     locked s1) as (_ & _ & _ & -> & _).
  - injection Hp as <- <-. by apply Hreg.
  - injection Hp as <- <-. apply Hreg.
    by destruct (stable_on_exception Put_failed Put_could_not_release e1
                   locked s1) as (_ & _ & _ & -> & _).
Qed.

(** C7. After a put that completed, the part sequence of the file carries
    the indices [0 .. part_count - 1] in order, without gap or repetition,
    and the recorded [part_count] is the length of that sequence. *)
Theorem put_indices_contiguous fuel w name s s' :
  handle_put_command fuel [w; name] s = Some (s', Put_done) →
  ∃ f l,
    files s' !! file_next_id s = Some f ∧
    parts s' !! file_next_id s = Some l ∧
    file_status f = true ∧
    file_part_count f = length l ∧
    part_index <$> l = seq 0 (length l).
Proof.
  intros (content & n & u & out & o & _ & _ & ->)%put_done_data. simpl.
  eexists _, _. rewrite !lookup_insert_eq. repeat split.
  - simpl. by rewrite length_fmap, length_seq.
  - rewrite length_fmap, length_seq, <- list_fmap_compose.
    apply list_fmap_id.
Qed.

(** C9. A put that completed has drawn [part_count + 1] ids from the
    part-id allocator: the parts of the file carry the first [part_count]
    of them, in order, and the last one, drawn before the read that met the
    end of the source, is on no part of any file. So the ids of the parts
    of a file stored next do not continue those of this file. *)
Theorem put_consumes_one_more_part_id fuel w name s s' :
  handle_put_command fuel [w; name] s = Some (s', Put_done) →
  ∃ l,
    parts s' !! file_next_id s = Some l ∧
    part_next_id s' = part_next_id s + length l + 1 ∧
    part_id <$> l = seq (part_next_id s) (length l) ∧
    ((∀ k lk p, parts s !! k = Some lk → p ∈ lk → part_id p < part_next_id s) →
     ∀ k lk p, parts s' !! k = Some lk → p ∈ lk →
               part_id p ≠ part_next_id s + length l) ∧
    ∀ o fuel2 w2 name2 s'',
      handle_put_command fuel2 [w2; name2] (set_oracle o s') = Some (s'', Put_done) →
      ∃ l2,
        parts s'' !! file_next_id s = Some l ∧
        parts s'' !! file_next_id s' = Some l2 ∧
        ∀ p q, p ∈ l → q ∈ l2 → part_id p + 1 < part_id q.
Proof.
  intros (content & n & u & out & o & _ & _ & ->)%put_done_data.
  exists (recorded_part (file_next_id s) (part_next_id s) content <$> seq 0 n).
  rewrite length_fmap, length_seq.
  split; [simpl; apply lookup_insert_eq|]. split; [done|]. split.
  { rewrite <- list_fmap_compose.
    change (Nat.add (part_next_id s) <$> seq 0 n = seq (part_next_id s) n).
    by rewrite fmap_add_seq, Nat.add_0_r. }
  split.
  { intros Hold k lk p Hk Hp. simpl in Hk.
    destruct (decide (k = file_next_id s)) as [->|Hne].
    - rewrite lookup_insert_eq in Hk. injection Hk as <-.
      apply list_elem_of_fmap in Hp as (i & -> & Hi%elem_of_seq). simpl. lia.
    - rewrite lookup_insert_ne in Hk by done. specialize (Hold k lk p Hk Hp). lia. }
  intros o2 fuel2 w2 name2 s'' Hp2. apply put_done_data in Hp2.
  destruct Hp2 as (content2 & n2 & u2 & out2 & o3 & _ & _ & ->). simpl.
  eexists. rewrite lookup_insert_eq.
  rewrite lookup_insert_ne, lookup_insert_eq by lia.
  split; [done|]. split; [done|].
  intros p q (i & -> & Hi)%list_elem_of_fmap (j & -> & Hj)%list_elem_of_fmap.
  apply elem_of_seq in Hi. simpl. lia.
Qed.

(** C3, as amended. On every exit of a put or of a get, the usage is back
    at the value it had on entry, unless the handler reported on standard
    output that an acquisition of the monitor made for a release timed out
    ("Could not release locked memory", "Failed to notify memory
    condition"); a reservation whose release was given up in this way stays
    counted: the usage then exceeds its value on entry by one batch for
    each such report. *)
Theorem reservation_released_unless_reported fuel words s s' :
  (∃ e, handle_put_command fuel words s = Some (s', e)) ∨
  (∃ e, handle_get_command fuel words s = Some (s', e)) →
  ∃ msgs, stdout s' = stdout s ++ msgs ∧
          (existsb reports_leak msgs = false → memory_usage s' = memory_usage s) ∧
          (existsb reports_leak msgs = true →
           (memory_usage s + needed_memory ≤ memory_usage s')%Z) ∧
          memory_usage s'
          = (memory_usage s + Z.of_nat (lost_releases msgs) * needed_memory)%Z.
Proof.
  intros Hrun.
  assert (charged s s' 0) as (msgs & Hout & Hu).
  { destruct Hrun as [[e Hp]|[e Hg]]; [by eapply put_charged|by eapply get_charged]. }
  exists msgs. split; [done|]. rewrite Hu, needed_memory_eq.
  split; [|split; [|lia]].
  - intros Hq%lost_releases_quiet. rewrite Hq. lia.
  - intros Hq. destruct (lost_releases msgs) eqn:E; [|lia].
    apply lost_releases_quiet in E. congruence.
Qed.

(** C4. A reservation is granted only when [usage + amount < limit], and
    the grant adds the amount to the usage; so, the usage being below the
    limit when the system starts, it is below the limit after every grant
    and in every state reached by grants and releases, those of a put and
    of a get among them. *)
Theorem admission_never_oversubscribes s :
  (memory_usage s < memory_limit s)%Z →
  (admits s = true →
     (memory_usage s + needed_memory < memory_limit s)%Z ∧
     memory_usage (reserve s) = (memory_usage s + needed_memory)%Z ∧
     (memory_usage (reserve s) < memory_limit (reserve s))%Z) ∧
  (∀ s', rtc admission_step s s' → (memory_usage s' < memory_limit s')%Z) ∧
  (∀ fuel words s' e,
     handle_put_command fuel words s = Some (s', e) → rtc admission_step s s') ∧
  (∀ fuel words s' e,
     handle_get_command fuel words s = Some (s', e) → rtc admission_step s s').
Proof.
  intros Hb. split; [|split; [|split]].
  - intros Ha%bool_decide_eq_true. simpl. auto.
  - intros s' Hs. by apply (admission_steps_budget s).
  - intros fuel words s' e Hp. by destruct (put_evolves _ _ _ _ _ Hp) as (_ & _ & ?).
  - intros fuel words s' e Hg.
    by destruct (get_stable _ _ _ _ _ Hg) as (_ & _ & _ & _ & _ & _ & ?).
Qed.



(** C10. A delete that completes removes the entry of the file id from the
    File Registry and nothing else from it; the Part Registry still has the
    file id as a key, mapped to what is left of the part sequence, which is
    empty when every part file was there to be removed. No handler ever
    removes a key from the Part Registry. *)
Theorem delete_keeps_part_registry_key :
  (∀ w raw s s',
     handle_delete_command [w; raw] s = (s', Delete_done) →
     ∃ f l residual,
       files s !! int raw = Some f ∧
       parts s !! file_id f = Some l ∧
       files s' = delete (int raw) (files s) ∧
       parts s' = <[file_id f := residual]> (parts s) ∧
       (NoDup (store_path s <$> l) →
        (∀ p, p ∈ l → is_Some (disk s !! store_path s p)) →
        residual = [])) ∧
  (∀ fuel words s s' e,
     handle_put_command fuel words s = Some (s', e) → dom (parts s) ⊆ dom (parts s')) ∧
  (∀ fuel words s s' e,
     handle_get_command fuel words s = Some (s', e) → dom (parts s) ⊆ dom (parts s')) ∧
  (∀ words s s' e,
     handle_delete_command words s = (s', e) → dom (parts s) ⊆ dom (parts s')) ∧
  (∀ s, dom (parts s) ⊆ dom (parts (handle_list_command s))).
Proof.
  split; [|split; [|split; [|split]]].
  - intros w raw s s' Hd. unfold handle_delete_command in Hd.
    destruct (isdigit raw); simpl in Hd; [|done].
    destruct (files s !! int raw) as [f|] eqn:Hf; [|done].
    destruct (file_status f); simpl in Hd; [|done].
    destruct (parts s !! file_id f) as [l|] eqn:Hl; [|done].
    destruct (delete_loop _ _ _) as [[e1 s1]|s1] eqn:Hloop; [done|].
    injection Hd as <-.
    pose proof (stable_delete_loop (file_id f) (length l / batch_size)
                  (set_files (<[int raw := mkFile (file_id f) (file_name f) false
                                             (file_part_count f)]> (files s)) s))
      as (_ & _ & _ & Hfiles & _ & Hdom & _).
    pose proof (elsewhere_delete_loop (file_id f) (length l / batch_size)
                  (set_files (<[int raw := mkFile (file_id f) (file_name f) false
                                             (file_part_count f)]> (files s)) s))
      as Hels.
    rewrite Hloop in Hfiles, Hdom, Hels. simpl in Hfiles, Hdom, Hels.
    assert (is_Some (parts s1 !! file_id f)) as [residual Hres].
    { apply elem_of_dom, Hdom, elem_of_dom. eauto. }
    exists f, l, residual. simpl. repeat split; auto.
    + by rewrite Hfiles, delete_insert_eq.
    + apply map_eq. intros k. destruct (decide (k = file_id f)) as [->|Hk].
      * by rewrite lookup_insert_eq.
      * rewrite lookup_insert_ne by done. by apply Hels.
    + intros Hnd Hin.
      eapply (delete_loop_clears (file_id f)) in Hloop; [| exact Hl | | exact Hnd |].
      * rewrite Hres in Hloop. by injection Hloop.
      * rewrite batch_size_eq. pose proof (Nat.div_mod_eq (length l) 10).
        pose proof (Nat.mod_upper_bound (length l) 10). lia.
      * intros q (p & -> & Hp)%list_elem_of_fmap. by apply Hin.
  - intros fuel words s s' e Hp. by destruct (put_evolves _ _ _ _ _ Hp) as (_ & ? & _).
  - intros fuel words s s' e Hg.
    by destruct (get_stable _ _ _ _ _ Hg) as (_ & _ & _ & _ & _ & ? & _).
  - intros words s s' e Hd. by destruct (delete_evolves _ _ _ _ Hd) as (_ & ? & _).
  - intros s. by destruct (list_stable s) as (_ & _ & _ & _ & _ & ? & _).
Qed.

End Claims.

Section RoundTrip.
Context `{Codec} `{!CodecLaws}.

Lemma recorded_part_loads dir D fid base content i :
  D !! (dir +:+ part_name fid i) = Some (zlib_compress (chunk content i)) →
  loads dir D (recorded_part fid base content i) (chunk content i).
Proof.
  intros HD. unfold loads, read_file. simpl.
  rewrite HD, zlib_decompress_compress. by rewrite bool_decide_eq_false_2 by auto.
Qed.

Lemma stored_parts_load dir fid base content n d :
  Forall2 (loads dir (stored dir fid content 0 n d))
          (recorded_part fid base content <$> seq 0 n)
          (chunk content <$> seq 0 n).
Proof.
  apply Forall2_fmap, Forall_Forall2_diag, Forall_forall.
  intros i Hi%elem_of_seq. apply recorded_part_loads, stored_lookup_in. lia.
Qed.


End RoundTrip.

(** * Further properties of the handlers *)

(** ** What a put leaves on disk, on every exit *)

Section PutFootprint.
Context `{Codec}.

Lemma put_fill_disk n : ∀ fid reader index batch fps s,
  disk (filled_state (put_fill n fid reader index batch fps s)) = disk s.
Proof.
  induction n as [|n IH]; intros; simpl; [done|].
  ask; [|by ask].
  destruct (take part_size reader); simpl; [done|].
  destruct (parts _ !! fid); simpl; [|done]. by rewrite IH.
Qed.

Lemma elsewhere_put_fill n : ∀ fid reader index batch fps s,
  elsewhere fid s (filled_state (put_fill n fid reader index batch fps s)).
Proof.
  induction n as [|n IH]; intros; simpl; [elsewhere_now|].
  ask; [|ask; elsewhere_now].
  destruct (take part_size reader); simpl; [elsewhere_now|].
  destruct (parts _ !! fid); simpl; [elsewhere_then IH|elsewhere_now].
Qed.

Lemma elsewhere_put_record fid : ∀ fps result s,
  elsewhere fid s (result_state (put_record fid fps result s)).
Proof.
  induction fps as [|p fps IH]; intros; simpl; [elsewhere_now|].
  destruct result; simpl; [elsewhere_now|].
  destruct (parts s !! fid) eqn:E; simpl; [|elsewhere_now].
  destruct (l !! part_index p); simpl; [elsewhere_then IH|elsewhere_now].
Qed.

Lemma elsewhere_put_loop fuel : ∀ fid reader index locked s r,
  put_loop fuel fid reader index locked s = Some r → elsewhere fid s (flow_state r).
Proof.
  induction fuel as [|fuel IH]; intros * Hr; simpl in Hr; [done|].
  ask; [|eapply elsewhere_trans; [|eapply IH, Hr]; elsewhere_now].
  destruct (admits _) eqn:Ha; simpl in Hr;
    [|eapply elsewhere_trans; [|eapply IH, Hr]; elsewhere_now].
  pose proof (elsewhere_put_fill batch_size fid reader index [] []
                (reserve (set_oracle o s))) as Hf.
  eapply (elsewhere_trans _ _ (reserve (set_oracle o s))); [elsewhere_now|].
  destruct (put_fill _ _ _ _ _ _ _) as [s1|e s1|fin reader' index' batch fps s1];
    simpl in Hf; eapply elsewhere_trans; try apply Hf.
  1,2: injection Hr as <-; elsewhere_now.
  unfold starmap_save in Hr. ask.
  2:{ injection Hr as <-.
      destruct (save_some_spec batch (set_oracle o0 s1)) as (o' & d' & ->).
      elsewhere_now. }
  destruct (save_all _ _) as [result d]; simpl in Hr.
  match type of Hr with context [put_record ?a ?b ?c ?d] =>
    pose proof (elsewhere_put_record a b c d) as Hp;
    destruct (put_record a b c d) as [[e s3]|s3] end; simpl in Hp, Hr;
    (eapply (elsewhere_trans _ _ s3); [intros k Hk; rewrite Hp by done; reflexivity|]).
  { injection Hr as <-. elsewhere_now. }
  ask; destruct fin; try (injection Hr as <-; elsewhere_now);
    (eapply elsewhere_trans; [|eapply IH, Hr]; elsewhere_now).
Qed.

Variables (dir : string) (fid base : nat) (content : bytes).

(** What a dispatch that raised leaves on the disk: the part files of some
    of the chunks it was given, and nothing else. *)
Lemma save_some_staged : ∀ j k s path,
  disk (save_some (staged dir fid content <$> seq k j) s) !! path = disk s !! path ∨
  ∃ i, k ≤ i < k + j ∧ path = dir +:+ part_name fid i ∧
       disk (save_some (staged dir fid content <$> seq k j) s) !! path
       = Some (zlib_compress (chunk content i)).
Proof.
  induction j as [|j IH]; intros k s path; [by left|].
  cbn [seq fmap list_fmap]. unfold staged at 1. cbn [save_some]. ask.
  - match goal with |- context [save_some _ ?s1] =>
      destruct (IH (S k) s1 path) as [E|(i & Hi & -> & E)] end.
    + destruct (decide (path = dir +:+ part_name fid k)) as [->|Hne].
      * right. exists k. split; [lia|]. split; [done|]. rewrite E. simpl.
        apply lookup_insert_eq.
      * left. rewrite E. simpl. by rewrite lookup_insert_ne.
    + right. exists i. split; [lia|done].
  - destruct (IH (S k) (set_oracle o s) path) as [E|(i & Hi & -> & E)].
    + by left.
    + right. exists i. split; [lia|done].
Qed.

(** The loop of put, on whichever way it is left: the part files of the
    chunks [idx .. idx+m-1] are written, for some [m], none of these chunks
    being empty, and nothing else on the disk has changed; save that, left
    on an exception, the loop may also have written part files of later
    chunks, those of the batch whose dispatch raised. *)
Lemma put_loop_disk fuel : ∀ idx locked s r,
  parts_directory s = dir →
  parts s !! fid = Some (recorded_part fid base content <$> seq 0 idx) →
  part_next_id s = base + idx →
  put_loop fuel fid (drop (idx * part_size) content) idx locked s = Some r →
  ∃ m, (∀ i, idx ≤ i < idx + m → chunk content i ≠ []) ∧
       match r with
       | Finished _ s' =>
           disk s' = stored dir fid content idx m (disk s) ∧
           part_next_id s' = base + idx + m + 1
       | Returned s' => disk s' = stored dir fid content idx m (disk s)
       | Raised _ _ s' =>
           ∀ path,
             disk s' !! path = stored dir fid content idx m (disk s) !! path ∨
             ∃ i, idx + m ≤ i ∧ path = dir +:+ part_name fid i ∧
                  disk s' !! path = Some (zlib_compress (chunk content i))
       end.
Proof.
  induction fuel as [|fuel IH]; intros idx locked s r Hd Hl Hn Hr; simpl in Hr; [done|].
  ask; [|exact (IH idx locked (set_oracle o s) r Hd Hl Hn Hr)].
  destruct (admits _) eqn:Ha; simpl in Hr;
    [|exact (IH idx locked (set_oracle o s) r Hd Hl Hn Hr)].
  pose proof (put_fill_data dir fid base content idx
                (recorded_part fid base content <$> seq 0 idx) batch_size 0
                (drop (idx * part_size) content) idx [] []
                (reserve (set_oracle o s)) Hd) as Hf.
  rewrite Nat.add_0_r in Hf. simpl in Hf. rewrite app_nil_r in Hf.
  specialize (Hf eq_refl eq_refl eq_refl eq_refl Hl Hn).
  pose proof (put_fill_disk batch_size fid (drop (idx * part_size) content) idx [] []
                (reserve (set_oracle o s))) as Hfd.
  destruct (put_fill _ _ _ _ _ _ _) as [s1|e s1|fin reader' index' batch fps s1];
    [injection Hr as <-; exists 0; split; [intros; lia|exact Hfd]|done|].
  destruct Hf as (j & o1 & -> & -> & -> & -> & Hfin & _ & Hne & ->).
  unfold starmap_save in Hr. ask.
  2:{ injection Hr as <-. exists 0. split; [intros; lia|]. intros path.
      match goal with |- context [save_some _ ?s1] =>
        destruct (save_some_staged j idx s1 path) as [E|(i & Hi & -> & E)] end.
      - by left.
      - right. exists i. split; [lia|done]. }
  rewrite save_all_staged in Hr.
  rewrite (put_record_data fid base content j idx
             (recorded_part fid base content <$> seq 0 idx)) in Hr;
    [|by rewrite length_fmap, length_seq|by simpl; rewrite lookup_insert_eq].
  simpl in Hr. rewrite insert_insert_eq, recorded_app in Hr.
  assert (∀ locked' s',
    parts_directory s' = dir →
    parts s' !! fid = Some (recorded_part fid base content <$> seq 0 (idx + j)) →
    part_next_id s' = base + (idx + j) + (if fin then 1 else 0) →
    disk s' = stored dir fid content idx j (disk s) →
    (if fin then Some (Finished locked' s')
     else put_loop fuel fid
            (drop ((idx + j + (if fin then 1 else 0)) * part_size) content)
            (idx + j) locked' s') = Some r →
    ∃ m, (∀ i, idx ≤ i < idx + m → chunk content i ≠ []) ∧
         match r with
         | Finished _ s' =>
             disk s' = stored dir fid content idx m (disk s) ∧
             part_next_id s' = base + idx + m + 1
         | Returned s' => disk s' = stored dir fid content idx m (disk s)
         | Raised _ _ s' =>
             ∀ path,
               disk s' !! path = stored dir fid content idx m (disk s) !! path ∨
               ∃ i, idx + m ≤ i ∧ path = dir +:+ part_name fid i ∧
                    disk s' !! path = Some (zlib_compress (chunk content i))
         end) as Hend.
  { intros locked' s' Hd' Hl' Hn' Hdisk Hr'. destruct fin.
    - injection Hr' as <-. exists j. split; [done|]. split; [done|]. simpl. lia.
    - rewrite !Nat.add_0_r in Hr', Hn'.
      apply IH in Hr'; [|done..].
      destruct Hr' as (m & Hne' & Hfinal). exists (j + m).
      split.
      { intros i Hi. destruct (decide (i < idx + j)); [apply Hne; lia|apply Hne'; lia]. }
      rewrite Hdisk, stored_add in Hfinal.
      destruct r as [locked'' s''|s''|e locked'' s''].
      + destruct Hfinal as [-> ->]. split; [done|lia].
      + done.
      + intros path. destruct (Hfinal path) as [E|(i & Hi & -> & E)]; [by left|].
        right. exists i. split; [lia|done]. }
  ask; (eapply Hend; [| | | |exact Hr]; simpl; rewrite ?lookup_insert_eq; done).
Qed.

End PutFootprint.

Section PutExits.
Context `{Codec}.

(** The [except] clause touches the usage and the standard output only. *)
Lemma on_exception_same failed could_not_release e locked s :
  let s' := on_exception failed could_not_release e locked s in
  files s' = files s ∧ parts s' = parts s ∧ disk s' = disk s ∧
  file_next_id s' = file_next_id s ∧ part_next_id s' = part_next_id s.
Proof.
  unfold on_exception. destruct locked; simpl; [|done]. by ask.
Qed.


Lemma stored_lookup_other dir fid content k j (d : gmap string bytes) path :
  (∀ i, k ≤ i < k + j → path ≠ dir +:+ part_name fid i) →
  stored dir fid content k j d !! path = d !! path.
Proof.
  intros Hp. induction j as [|j IH]; [done|].
  rewrite stored_S, lookup_insert_ne; [|apply not_eq_sym, Hp; lia].
  apply IH. intros i Hi. apply Hp. lia.
Qed.

(** Every exit of put: the part files of the first [m] chunks of the
    source are written, none of these chunks being empty, and the entries
    of the other files are as they were. Nothing else on the disk has
    changed, save that a put left through its [except] clause may also have
    written part files of later chunks. *)
Lemma put_exit_data fuel w name s s' e :
  handle_put_command fuel [w; name] s = Some (s', e) →
  ∃ m,
    (∀ i, i < m → chunk (default [] (disk s !! name)) i ≠ []) ∧
    (∀ path,
       disk s' !! path
       = stored (parts_directory s) (file_next_id s) (default [] (disk s !! name))
                0 m (disk s) !! path ∨
       e = Put_excepted ∧
       ∃ i, m ≤ i ∧ path = parts_directory s +:+ part_name (file_next_id s) i ∧
            disk s' !! path
            = Some (zlib_compress (chunk (default [] (disk s !! name)) i))) ∧
    (∀ k, k ≠ file_next_id s →
          files s' !! k = files s !! k ∧ parts s' !! k = parts s !! k) ∧
    (e = Put_done → part_next_id s' = part_next_id s + m + 1).
Proof.
  unfold handle_put_command. intros Hp. ask.
  2:{ injection Hp as <- <-. exists 0. simpl. split; [intros; lia|]. split; [by left|].
      done. }
  destruct (disk s !! name) as [content|] eqn:Hc; simpl in Hp.
  2:{ injection Hp as <- <-. exists 0. simpl. split; [intros; lia|]. split; [by left|].
      split; [|done]. intros k Hk. by rewrite lookup_insert_ne. }
  destruct (put_loop _ _ _ _ _ _) as [r|] eqn:Hl; [|done].
  pose proof (stable_put_loop _ _ _ _ _ _ _ Hl) as (_ & _ & _ & Hfiles & _).
  pose proof (elsewhere_put_loop _ _ _ _ _ _ _ Hl) as Helse.
  eapply (put_loop_disk (parts_directory s) (file_next_id s) (part_next_id s) content
            fuel 0) in Hl; simpl; [|done|by rewrite lookup_insert_eq|lia].
  destruct Hl as (m & Hne & Hdisk). simpl in Hdisk, Hfiles, Helse.
  exists m. simpl.
  assert (∀ k, k ≠ file_next_id s →
            files (flow_state r) !! k = files s !! k ∧
            parts (flow_state r) !! k = parts s !! k) as Hother.
  { intros k Hk. rewrite Hfiles, Helse by done. simpl.
    by rewrite !lookup_insert_ne. }
  assert (∀ e1 locked,
    let s2 := on_exception Put_failed Put_could_not_release e1 locked (flow_state r) in
    disk s2 = disk (flow_state r) ∧
    (∀ k, k ≠ file_next_id s →
          files s2 !! k = files s !! k ∧ parts s2 !! k = parts s !! k)) as Hexc.
  { intros e1 locked s2.
    destruct (on_exception_same Put_failed Put_could_not_release e1 locked (flow_state r))
      as (Ef & Ep & Ed & _). fold s2 in Ef, Ep, Ed.
    rewrite Ef, Ep, Ed. done. }
  assert (∀ i, i < m → chunk content i ≠ []) as Hne' by (intros; apply Hne; lia).
  split; [done|].
  destruct r as [locked s1|s1|e1 locked s1]; simpl in *.
  - destruct Hdisk as [Hdisk Hnext].
    destruct (files s1 !! file_next_id s) as [f|] eqn:Ef,
             (parts s1 !! file_next_id s) as [l|] eqn:El;
      injection Hp as <- <-;
      try (destruct (Hexc KeyError locked) as [-> ?];
           split; [intros path; left; by rewrite Hdisk|]; split; [done|done]).
    simpl. split; [intros path; left; by rewrite Hdisk|].
    split; [|intros _; lia]. intros k Hk. rewrite lookup_insert_ne by done.
    by apply Hother.
  - injection Hp as <- <-. split; [intros path; left; by rewrite Hdisk|]. done.
  - injection Hp as <- <-. destruct (Hexc e1 locked) as [-> ?].
    split; [|done]. intros path.
    destruct (Hdisk path) as [E|(i & Hi & -> & E)]; [by left|].
    right. split; [done|]. exists i. split; [lia|done].
Qed.

End PutExits.

Section PutProperties.
Context `{Codec}.


(** X2. A put that completed on a source that is not one of its own part
    files has cut it into [ceil(size / part_size)] parts, which is the
    recorded [part_count]: every part holds at least one byte and at most
    [part_size] of them, the bytes of the source at its index, and an empty
    source gives a ready file without parts. *)
Theorem put_part_count fuel w name s s' :
  (∀ i, name ≠ parts_directory s +:+ part_name (file_next_id s) i) →
  handle_put_command fuel [w; name] s = Some (s', Put_done) →
  ∃ content f l,
    disk s !! name = Some content ∧
    files s' !! file_next_id s = Some f ∧
    parts s' !! file_next_id s = Some l ∧
    file_status f = true ∧
    file_part_count f = (length content + part_size - 1) / part_size ∧
    length l = file_part_count f ∧
    (∀ i p, l !! i = Some p →
       0 < length (chunk content i) ≤ part_size ∧
       part_hash p = Some (md5_hexdigest (chunk content i)) ∧
       disk s' !! store_path s' p = Some (zlib_compress (chunk content i))) ∧
    concat (chunk content <$> seq 0 (length l)) = content.
Proof.
  intros _ Hp. pose proof (put_exit_data _ _ _ _ _ _ Hp) as (m & Hne & _ & _ & Hm).
  apply put_done_data in Hp as (content & n & u & out & o & Hc & Hn & ->).
  rewrite Hc in Hne. simpl in Hne, Hm. specialize (Hm eq_refl).
  assert (m = n) as -> by lia.
  exists content. eexists _, _. simpl. rewrite !lookup_insert_eq.
  split; [done|]. split; [done|]. split; [done|]. split; [done|]. simpl.
  rewrite length_fmap, length_seq.
  assert (n = 0 ∨ (n - 1) * part_size < length content) as Hlow.
  { destruct n as [|n]; [by left|right]. apply chunk_length_lt, Hne. lia. }
  split; [|split; [done|split]].
  - apply chunk_nil_drop in Hn. apply (f_equal length) in Hn.
    rewrite length_drop in Hn. simpl in Hn.
    rewrite part_size_eq in *.
    apply (Nat.div_unique _ _ _ (length content + 1023 - 1024 * n)); lia.
  - intros i p Hi. apply list_lookup_fmap_Some_1 in Hi as (i' & -> & Hi').
    apply lookup_seq in Hi' as [-> Hlt]. simpl. split; [|split; [done|]].
    + specialize (Hne i Hlt). split.
      * destruct (chunk content i); [done|simpl; lia].
      * unfold chunk. rewrite length_take. lia.
    + unfold store_path. simpl. apply stored_lookup_in. lia.
  - rewrite concat_chunks. apply take_ge, drop_nil_inv. by apply chunk_nil_drop.
Qed.

(** X3. A put whose source does not exist, once it has drawn its file id,
    leaves through the [except] clause whatever the fuel: the file is
    registered but no key is made for it in the Part Registry, no part id
    is drawn, nothing is written and nothing reserved. *)
Theorem put_of_missing_source fuel w name s :
  disk s !! name = None →
  (consult s).1 = true →
  ∃ s',
    handle_put_command fuel [w; name] s = Some (s', Put_excepted) ∧
    stdout s' = stdout s ++ [Put_failed FileNotFoundError] ∧
    files s' = <[file_next_id s := mkFile (file_next_id s) name false 0]> (files s) ∧
    file_next_id s' = file_next_id s + 1 ∧
    parts s' = parts s ∧
    part_next_id s' = part_next_id s ∧
    disk s' = disk s ∧
    memory_usage s' = memory_usage s.
Proof.
  intros Hsrc Hok. unfold handle_put_command.
  destruct (consult s) as [ok s1] eqn:Ec. simpl in Hok. subst ok.
  apply consult_spec in Ec as [o ->]. simpl. rewrite Hsrc.
  eexists. split; [reflexivity|]. done.
Qed.

End PutProperties.

(** ** What a get touches *)

(** Only the file at [name] is written, and the part registry is read only. *)
Definition only_at (name : string) (s s' : FileStorageSystem) : Prop :=
  parts s' = parts s ∧ part_next_id s' = part_next_id s ∧
  (∀ path, path ≠ name → disk s' !! path = disk s !! path) ∧
  (∀ path, is_Some (disk s !! path) → is_Some (disk s' !! path)).

Lemma only_at_trans name s1 s2 s3 :
  only_at name s1 s2 → only_at name s2 s3 → only_at name s1 s3.
Proof.
  intros (?&?&H1&K1) (?&?&H2&K2). repeat split; try congruence; [|by auto].
  intros path Hp. by rewrite H2, H1.
Qed.

Ltac only_at_now :=
  unfold only_at; simpl; repeat split; auto;
  let path := fresh "path" in
  let Hp := fresh "Hp" in
  intros path Hp;
  first [ rewrite ?lookup_insert_ne by done; reflexivity
        | apply lookup_insert_is_Some'; by right ].

Ltac only_at_then IH := eapply only_at_trans; [|apply IH]; only_at_now.

Section GetFootprint.
Context `{Codec}.

Lemma only_at_get_emit name : ∀ result s,
  only_at name s (emitted_state (get_emit name result s)).
Proof.
  induction result as [|[[|] data] result IH]; intros; simpl; [only_at_now| |].
  - destruct data; simpl; [only_at_then IH|only_at_now].
  - ask; only_at_now.
Qed.

Lemma only_at_get_loop name fuel : ∀ file_parts index locked s r,
  get_loop fuel name file_parts index locked s = Some r → only_at name s (flow_state r).
Proof.
  induction fuel as [|fuel IH]; intros * Hr; simpl in Hr; [done|].
  destruct (_ <? _); simpl in Hr; [|injection Hr as <-; only_at_now].
  ask; [|eapply only_at_trans; [|eapply IH, Hr]; only_at_now].
  destruct (admits _) eqn:Ha; simpl in Hr;
    [|eapply only_at_trans; [|eapply IH, Hr]; only_at_now].
  unfold starmap_read in Hr. ask; [|injection Hr as <-; only_at_now].
  destruct (read_all _ _) as [e|result]; simpl in Hr; [injection Hr as <-; only_at_now|].
  match type of Hr with context [get_emit name result ?s2] =>
    pose proof (only_at_get_emit name result s2) as He;
    destruct (get_emit name result s2) as [s3|e s3|s3] end; simpl in He, Hr;
    (eapply (only_at_trans _ _ s3); [eapply only_at_trans; [|exact He]; only_at_now|]).
  1,2: injection Hr as <-; only_at_now.
  ask; (eapply only_at_trans; [|eapply IH, Hr]; only_at_now).
Qed.

End GetFootprint.

Section GetProperties.
Context `{Codec}.

(** X4. A get given ASCII words leaves, on every exit, both registries
    and both id allocators as they were, removes no file from the disk and
    changes no file but its destination, the path that is the name of the
    registered file whose id it was given. A get that was rejected has
    changed nothing at all but the standard output, on which it has written
    one message. *)
Theorem get_changes_only_the_destination fuel words s s' e :
  Forall (λ w, isascii w = true) words →
  handle_get_command fuel words s = Some (s', e) →
  files s' = files s ∧ file_next_id s' = file_next_id s ∧
  parts s' = parts s ∧ part_next_id s' = part_next_id s ∧
  (∀ path,
     file_name <$> (words !! 1 ≫= λ raw, files s !! int raw) ≠ Some path →
     disk s' !! path = disk s !! path) ∧
  (∀ path, is_Some (disk s !! path) → is_Some (disk s' !! path)) ∧
  (e = Get_rejected →
   disk s' = disk s ∧ memory_usage s' = memory_usage s ∧ oracle s' = oracle s ∧
   ∃ m, stdout s' = stdout s ++ [m]).
Proof.
  intros _ Hg. pose proof (get_stable _ _ _ _ _ Hg) as (_ & _ & Hfn & Hf & _).
  split; [done|]. split; [done|].
  unfold handle_get_command in Hg.
  assert (∀ m, parts (say m s) = parts s ∧ part_next_id (say m s) = part_next_id s ∧
    (∀ path,
       file_name <$> (words !! 1 ≫= λ raw, files s !! int raw) ≠ Some path →
       disk (say m s) !! path = disk s !! path) ∧
    (∀ path, is_Some (disk s !! path) → is_Some (disk (say m s) !! path)) ∧
    (Get_rejected = Get_rejected →
     disk (say m s) = disk s ∧ memory_usage (say m s) = memory_usage s ∧
     oracle (say m s) = oracle s ∧ ∃ m', stdout (say m s) = stdout s ++ [m'])) as Hrej.
  { intros m. simpl. repeat split; eauto. }
  destruct words as [|w [|raw [|]]]; try (injection Hg as <- <-; apply Hrej).
  destruct (isdigit raw); simpl in Hg; [|injection Hg as <- <-; apply Hrej].
  destruct (files s !! int raw) as [f|] eqn:Ef; [|injection Hg as <- <-; apply Hrej].
  destruct (file_status f); simpl in Hg; [|injection Hg as <- <-; apply Hrej].
  clear Hrej. simpl. rewrite Ef. simpl.
  destruct (parts s !! file_id f) as [l|]; [|by injection Hg as <- <-].
  destruct (get_loop _ _ _ _ _ _) as [r|] eqn:Hl; [|done].
  apply only_at_get_loop in Hl as (Hp & Hn & Hd & Hk). simpl in Hp, Hn, Hd, Hk.
  assert (∀ s2, parts s2 = parts (flow_state r) →
            part_next_id s2 = part_next_id (flow_state r) →
            disk s2 = disk (flow_state r) →
    parts s2 = parts s ∧ part_next_id s2 = part_next_id s ∧
    (∀ path, Some (file_name f) ≠ Some path → disk s2 !! path = disk s !! path) ∧
    (∀ path, is_Some (disk s !! path) → is_Some (disk s2 !! path))) as Hend.
  { intros s2 -> -> ->. split; [done|]. split; [done|]. split.
    - intros path Hpath. assert (path ≠ file_name f) as Hne by congruence.
      rewrite Hd by done. by apply lookup_insert_ne.
    - intros path Hpath. apply Hk, lookup_insert_is_Some'. by right. }
  destruct r as [locked s1|s1|e1 locked s1]; simpl in *; injection Hg as <- <-.
  - destruct (Hend s1) as (?&?&?&?); done.
  - destruct (Hend s1) as (?&?&?&?); done.
  - destruct (on_exception_same Get_failed Get_could_not_release e1 locked s1)
      as (_ & Ep & Ed & _ & En).
    destruct (Hend (on_exception Get_failed Get_could_not_release e1 locked s1))
      as (?&?&?&?); done.
Qed.

(** X5. A get of a file whose destination is not one of its part files,
    and that reports a decompression error ("Failed to get file" on a
    [zlib.error]), has left through its [except] clause on the dispatch of
    a batch one part of which does not decompress. The destination then
    holds the data of the batches before that one, each in full, and
    nothing of that batch, not even of its parts that come before the
    failing one and can be read: a batch is written only once all its
    parts have been loaded. *)
Theorem get_exception_keeps_whole_batches fuel w raw s s' e f l :
  isdigit raw = true →
  files s !! int raw = Some f →
  file_status f = true →
  parts s !! file_id f = Some l →
  (∀ p, p ∈ l → store_path s p ≠ file_name f) →
  handle_get_command fuel [w; raw] s = Some (s', e) →
  Get_failed zlib_error ∈ drop (length (stdout s)) (stdout s') →
  e = Get_excepted ∧
  ∃ n datas k p,
    Forall2 (loads (parts_directory s) (disk s)) (take (n * batch_size) l) datas ∧
    disk s' !! file_name f = Some (concat datas) ∧
    n * batch_size ≤ k < (n + 1) * batch_size ∧
    l !! k = Some p ∧
    read_file (part_hash p) (store_path s p) (disk s) = inl zlib_error.
Proof.
  intros Hdig Hf Hst Hl Hne Hg Hmsg.
  unfold handle_get_command in Hg. rewrite Hdig, Hf, Hst, Hl in Hg. simpl in Hg.
  destruct (get_loop _ _ _ _ _ _) as [r|] eqn:Hloop; [|done].
  pose proof (get_loop_says _ _ _ _ _ _ _ Hloop) as (m1 & E1 & Hm1). simpl in E1.
  assert (Get_failed zlib_error ∉ m1) as Hnot.
  { intros Hin. eapply Forall_forall in Hm1; [|exact Hin].
    by destruct Hm1 as [?|[?|?]]. }
  destruct r as [locked s1|s1|e1 locked s1]; injection Hg as <- <-; simpl in E1.
  - exfalso. by rewrite E1, drop_app_length in Hmsg.
  - exfalso. by rewrite E1, drop_app_length in Hmsg.
  - split; [done|].
    destruct (on_exception_reports Get_failed Get_could_not_release e1 locked s1)
      as (rest & E2 & Hrest).
    rewrite E2, E1, <- app_assoc, drop_app_length in Hmsg.
    apply elem_of_app in Hmsg as [?|Hmsg]; [done|].
    assert (e1 = zlib_error) as ->.
    { apply elem_of_cons in Hmsg as [[= <-]|Hmsg]; [done|].
      destruct Hrest as [-> | ->]; [by apply elem_of_nil in Hmsg|].
      by apply list_elem_of_singleton in Hmsg. }
    eapply (get_loop_raised (parts_directory s) (file_name f) (disk s)) in Hloop;
      [|done|exact Hne|reflexivity].
    destruct Hloop as (n & datas & Hn & Hall & Hdisk & [?|(k & p & Hk & Hp & Hread)]);
      [done|].
    rewrite drop_0 in Hall. simpl in Hk.
    exists n, datas, k, p. split; [done|].
    destruct (on_exception_same Get_failed Get_could_not_release zlib_error locked s1)
      as (_ & _ & -> & _).
    split; [by rewrite Hdisk, lookup_insert_eq|]. done.
Qed.

End GetProperties.

(** ** What a delete does to the sequence, the disk and the output *)

(** A part as line 294 leaves it. *)
Definition faded (p : FilePart) : FilePart :=
  mkFilePart (part_id p) (part_parent_id p) (part_path p) (part_hash p) false
             (part_index p).

Lemma faded_path s p : store_path s (faded p) = store_path s p.
Proof. reflexivity. Qed.

(** Lines 293-294 within the bounds of the sequence. *)
Lemma delete_mark_fades fid : ∀ n start s cur,
  parts s !! fid = Some cur →
  start + n ≤ length cur →
  ∃ cur1,
    delete_mark fid start n s = inr (set_parts (<[fid := cur1]> (parts s)) s) ∧
    length cur1 = length cur ∧
    faded <$> cur1 = faded <$> cur ∧
    (∀ j p, start ≤ j < start + n → cur1 !! j = Some p → part_status p = false) ∧
    (∀ j, ¬ start ≤ j < start + n → cur1 !! j = cur !! j).
Proof.
  induction n as [|n IH]; intros start s cur Hc Hlen; simpl.
  { exists cur. rewrite insert_id by done. split; [by destruct s|].
    repeat split; auto. intros; lia. }
  rewrite Hc. destruct (lookup_lt_is_Some_2 cur start) as [p Hp]; [lia|].
  rewrite Hp.
  match goal with |- context [delete_mark fid (S start) n ?s1] =>
    destruct (IH (S start) s1 (<[start := faded p]> cur)) as (cur1 & -> & Hl & Hf & Hin & Hout)
  end.
  { simpl. apply lookup_insert_eq. }
  { rewrite length_insert. lia. }
  exists cur1. simpl. rewrite insert_insert_eq. split; [done|].
  rewrite length_insert in Hl. split; [done|]. split; [|split].
  - rewrite Hf, list_fmap_insert. apply list_insert_id.
    by rewrite list_lookup_fmap, Hp.
  - intros j q Hj Hq. destruct (decide (j = start)) as [->|Hne].
    + rewrite Hout, list_lookup_insert_eq in Hq by lia. by injection Hq as <-.
    + apply (Hin j); [lia|done].
  - intros j Hj. rewrite Hout by lia. apply list_lookup_insert_ne. lia.
Qed.

(** [self.io.map(delete_file, batch)] gives one result per path, removes
    files and touches no path outside the batch. *)
Lemma delete_all_only_removes : ∀ batch d result d',
  delete_all batch d = (result, d') →
  length result = length batch ∧ d' ⊆ d ∧ (∀ q, q ∉ batch → d' !! q = d !! q).
Proof.
  induction batch as [|path batch IH]; intros d result d' Hd; simpl in Hd.
  { by injection Hd as <- <-. }
  destruct (delete_file path d) as [r d1] eqn:Hf.
  destruct (delete_all batch d1) as [rs d2] eqn:Hrest. injection Hd as <- <-.
  apply IH in Hrest as (Hlen & Hsub & Hout).
  assert (d1 ⊆ d ∧ ∀ q, q ≠ path → d1 !! q = d !! q) as [Hsub1 Hout1].
  { unfold delete_file in Hf. destruct (d !! path); injection Hf as <- <-.
    - split; [apply delete_subseteq|]. intros q Hq. by apply lookup_delete_ne.
    - done. }
  split; [simpl; by rewrite Hlen|]. split; [by etrans|].
  intros q [Hq1 Hq2]%not_elem_of_cons. by rewrite Hout, Hout1.
Qed.

(** Every path of the batch has been handed to [os.remove]: none is on
    the disk afterwards. *)
Lemma delete_all_gone : ∀ batch d result d' q,
  delete_all batch d = (result, d') → q ∈ batch → d' !! q = None.
Proof.
  induction batch as [|path batch IH]; intros d result d' q Hd Hq; simpl in Hd.
  { by apply elem_of_nil in Hq. }
  destruct (delete_file path d) as [r d1] eqn:Hf.
  destruct (delete_all batch d1) as [rs d2] eqn:Hrest. injection Hd as <- <-.
  apply elem_of_cons in Hq as [->|Hq]; [|by eapply IH].
  apply delete_all_only_removes in Hrest as (_ & Hsub & _).
  eapply lookup_weaken_None; [|exact Hsub].
  unfold delete_file in Hf. destruct (d !! path) eqn:E; injection Hf as <- <-;
    [apply lookup_delete_eq|done].
Qed.

(** Lines 296-300 never leave the bounds of the sequence: each result
    either erases one entry at or after the start of the batch, or writes
    one message. *)
Lemma delete_erase_counts fid index n : ∀ result i s cur,
  parts s !! fid = Some cur →
  i + length result = n →
  index * batch_size + (n - i) ≤ length cur →
  (∀ j p, index * batch_size ≤ j → cur !! j = Some p → part_status p = false) →
  ∃ cur1 k,
    delete_erase fid index n i result s
    = inr (mkSystem (parts_directory s) (memory_limit s) (memory_usage s)
             (file_next_id s) (files s) (part_next_id s)
             (<[fid := cur1]> (parts s)) (disk s)
             (stdout s ++ replicate k Delete_error) (oracle s)) ∧
    length cur1 + (length result - k) = length cur ∧
    k ≤ length result ∧
    index * batch_size ≤ length cur1 ∧
    sublist cur1 cur ∧
    (∀ j p, index * batch_size ≤ j → cur1 !! j = Some p → part_status p = false) ∧
    (∀ j, j < index * batch_size → cur1 !! j = cur !! j).
Proof.
  induction result as [|[|] result IH]; intros i s cur Hc Hi Hlen Hst; simpl in *.
  - exists cur, 0. rewrite insert_id, app_nil_r by done.
    split; [by destruct s|]. repeat split; auto; lia.
  - rewrite Hc.
    assert (index * batch_size + n - i - 1 < length cur) as Hk by lia.
    apply Nat.ltb_lt in Hk as Hk'. rewrite Hk'.
    match goal with |- context [delete_erase _ _ _ _ _ ?s1] =>
      destruct (IH (S i) s1 (delete (index * batch_size + n - i - 1) cur))
        as (cur1 & k & -> & Hl1 & Hk1 & Hs1 & Hsub & Hst1 & Hlow)
    end.
    + simpl. apply lookup_insert_eq.
    + lia.
    + rewrite length_delete by (apply lookup_lt_is_Some; lia). lia.
    + intros j p Hj Hp. rewrite list_lookup_delete in Hp.
      destruct (decide _); eapply Hst; try exact Hp; lia.
    + exists cur1, k. simpl. rewrite insert_insert_eq. split; [done|].
      rewrite length_delete in Hl1 by (apply lookup_lt_is_Some; lia).
      split; [lia|]. split; [lia|]. split; [done|].
      split; [etrans; [exact Hsub|apply sublist_delete]|]. split; [done|].
      intros j Hj. rewrite Hlow by done. apply list_lookup_delete_lt. lia.
  - match goal with |- context [delete_erase _ _ _ _ _ ?s1] =>
      destruct (IH (S i) s1 cur)
        as (cur1 & k & -> & Hl1 & Hk1 & Hs1 & Hsub & Hst1 & Hlow)
    end; [done|lia|lia|done|].
    exists cur1, (S k). simpl. rewrite <- app_assoc. split; [done|].
    split; [lia|]. split; [lia|]. done.
Qed.

(** What one turn of the loop of delete amounts to. *)
Definition delete_outcome (fid : nat) (s : FileStorageSystem) (cur1 : list FilePart)
    (d1 : gmap string bytes) (k : nat) (o1 : list bool) : FileStorageSystem :=
  mkSystem (parts_directory s) (memory_limit s) (memory_usage s)
           (file_next_id s) (files s) (part_next_id s)
           (<[fid := cur1]> (parts s)) d1
           (stdout s ++ replicate k Delete_error) o1.

(** One turn of the loop of delete, entered with the sequence reaching at
    least to the start of the batch and faded from the end of the batch
    on: it raises only when the dispatch to the pool fails. *)
Lemma delete_batch_counts fid index s cur :
  parts s !! fid = Some cur →
  index * batch_size ≤ length cur →
  (∀ j p, (index + 1) * batch_size ≤ j → cur !! j = Some p → part_status p = false) →
  ∃ cur1 d1 k o1,
    sublist (faded <$> cur1) (faded <$> cur) ∧
    d1 ⊆ disk s ∧
    (∀ q, q ∉ store_path s <$> cur → d1 !! q = disk s !! q) ∧
    (delete_batch fid index s = inr (delete_outcome fid s cur1 d1 k o1) ∧
     (oracle s = [] → o1 = []) ∧
     index * batch_size ≤ length cur1 ∧
     length cur1 + Nat.min ((index + 1) * batch_size) (length cur)
       = index * batch_size + k + length cur ∧
     (∀ j p, index * batch_size ≤ j → cur1 !! j = Some p → part_status p = false) ∧
     (∀ j, j < index * batch_size → cur1 !! j = cur !! j) ∧
     (∀ j p, index * batch_size ≤ j < Nat.min ((index + 1) * batch_size) (length cur) →
             cur !! j = Some p → d1 !! store_path s p = None)
     ∨
     delete_batch fid index s = inl (PoolError, delete_outcome fid s cur1 d1 k o1) ∧
     oracle s ≠ [] ∧ k = 0).
Proof.
  intros Hc Hlen Hst. unfold delete_batch. rewrite Hc. cbv zeta.
  set (end_ := if (index + 1) * batch_size <? length cur then (index + 1) * batch_size
               else length cur).
  assert (end_ = Nat.min ((index + 1) * batch_size) (length cur)) as Hend.
  { unfold end_. destruct (_ <? _) eqn:E; [apply Nat.ltb_lt in E|apply Nat.ltb_ge in E];
      lia. }
  destruct (delete_mark_fades fid (end_ - index * batch_size) (index * batch_size) s cur)
    as (cur0 & -> & Hl0 & Hf0 & Hin0 & Hout0); [done|lia|].
  assert (∀ j p, index * batch_size ≤ j → cur0 !! j = Some p → part_status p = false)
    as Hst0.
  { intros j p Hj Hp. destruct (decide (j < end_)).
    - apply (Hin0 j); [lia|done].
    - rewrite Hout0 in Hp by lia. apply (Hst j); [|done].
      apply lookup_lt_Some in Hp. lia. }
  assert (∀ o1 d1 result,
    delete_all (store_path s <$> slice (index * batch_size) end_ cur) (disk s)
    = (result, d1) →
    (oracle s = [] → o1 = []) →
    ∃ cur1 k,
      sublist (faded <$> cur1) (faded <$> cur) ∧
      d1 ⊆ disk s ∧
      (∀ q, q ∉ store_path s <$> cur → d1 !! q = disk s !! q) ∧
      delete_erase fid index (length result) 0 result
        (set_disk d1 (set_oracle o1 (set_parts (<[fid := cur0]> (parts s)) s)))
      = inr (delete_outcome fid s cur1 d1 k o1) ∧
      (oracle s = [] → o1 = []) ∧
      index * batch_size ≤ length cur1 ∧
      length cur1 + Nat.min ((index + 1) * batch_size) (length cur)
        = index * batch_size + k + length cur ∧
      (∀ j p, index * batch_size ≤ j → cur1 !! j = Some p → part_status p = false) ∧
      (∀ j, j < index * batch_size → cur1 !! j = cur !! j) ∧
      (∀ j p, index * batch_size ≤ j < Nat.min ((index + 1) * batch_size) (length cur) →
              cur !! j = Some p → d1 !! store_path s p = None))
    as Hrun.
  { intros o1 d1 result Hda Ho1.
    pose proof (λ q, delete_all_gone _ _ _ _ q Hda) as Hgone.
    apply delete_all_only_removes in Hda as (Hlr & Hsub & Hout).
    rewrite length_fmap in Hlr.
    assert (length result = end_ - index * batch_size) as Hlr'
      by (rewrite Hlr; unfold slice; rewrite length_take, length_drop; lia).
    destruct (delete_erase_counts fid index (length result) result 0
                (set_disk d1 (set_oracle o1 (set_parts (<[fid := cur0]> (parts s)) s)))
                cur0)
      as (cur1 & k & He & Hl1 & Hk1 & Hs1 & Hsub1 & Hst1 & Hlow1);
      [simpl; apply lookup_insert_eq|lia|lia|done|].
    exists cur1, k. rewrite He. simpl. rewrite insert_insert_eq.
    split; [rewrite <- Hf0; by apply fmap_sublist|]. split; [done|].
    split.
    { intros q Hq. apply Hout. intros Hq'. apply Hq.
      apply list_elem_of_fmap in Hq' as (p & -> & Hp).
      apply list_elem_of_fmap. exists p. split; [done|]. eapply slice_subseteq, Hp. }
    split; [done|]. split; [done|]. split; [done|]. split; [lia|].
    split; [done|]. split.
    { intros j Hj. rewrite Hlow1 by done. apply Hout0. lia. }
    intros j p Hj Hp. apply Hgone. apply list_elem_of_fmap. exists p. split; [done|].
    apply (list_elem_of_lookup_2 _ (j - index * batch_size)). unfold slice.
    rewrite lookup_take_lt by lia. rewrite lookup_drop. rewrite <- Hp. f_equal. lia. }
  unfold map_delete, consult. simpl.
  destruct (oracle s) as [|[|] o] eqn:Ho; simpl.
  - destruct (delete_all _ _) as [result d1] eqn:Hda. simpl.
    destruct (Hrun [] d1 result eq_refl) as (cur1 & k & ? & ? & ? & He & ?); [done|].
    exists cur1, d1, k, []. split; [done|]. split; [done|]. split; [done|]. left.
    split; [|done]. rewrite <- He. do 2 f_equal. destruct s; simpl in *. by subst.
  - destruct (delete_all _ _) as [result d1] eqn:Hda. simpl.
    destruct (Hrun o d1 result eq_refl) as (cur1 & k & ? & ? & ? & He & ?); [done|].
    exists cur1, d1, k, o. split; [done|]. split; [done|]. split; [done|]. left.
    split; [|done]. by rewrite <- He.
  - exists cur0, (disk s), 0, o. split; [by rewrite Hf0|]. split; [done|].
    split; [done|]. right. split; [|done].
    unfold delete_outcome. by rewrite app_nil_r.
Qed.

Lemma faded_paths s s' (a b : list FilePart) :
  parts_directory s' = parts_directory s →
  sublist (faded <$> a) (faded <$> b) →
  ∀ q, q ∈ store_path s' <$> a → q ∈ store_path s <$> b.
Proof.
  intros Hdir Hsub q (p & -> & Hp)%list_elem_of_fmap.
  assert (faded p ∈ faded <$> b) as (p' & Hpp & Hp')%list_elem_of_fmap.
  { eapply elem_of_sublist; [|exact Hsub]. apply list_elem_of_fmap. eauto. }
  apply list_elem_of_fmap. exists p'. split; [|done].
  unfold store_path. rewrite Hdir. f_equal.
  change (part_path (faded p) = part_path (faded p')). by rewrite Hpp.
Qed.

Lemma delete_outcome_twice fid s cur1 d1 k1 o1 cur2 d2 k2 o2 :
  delete_outcome fid (delete_outcome fid s cur1 d1 k1 o1) cur2 d2 k2 o2
  = delete_outcome fid s cur2 d2 (k1 + k2) o2.
Proof.
  unfold delete_outcome. simpl.
  by rewrite insert_insert_eq, replicate_add, app_assoc.
Qed.

(** The loop of delete from batch [index] down, [m] entries having been
    kept by the batches above: it raises only when a dispatch to the pool
    fails, and when it ends it has written one message for each entry that
    it kept and has faded each of them. *)
Lemma delete_loop_counts fid : ∀ index s cur m,
  parts s !! fid = Some cur →
  index * batch_size ≤ length cur →
  (∀ j p, (index + 1) * batch_size ≤ j → cur !! j = Some p → part_status p = false) →
  length cur = Nat.min ((index + 1) * batch_size) (length cur) + m →
  ∃ cur' d' k o',
    sublist (faded <$> cur') (faded <$> cur) ∧
    d' ⊆ disk s ∧
    (∀ q, q ∉ store_path s <$> cur → d' !! q = disk s !! q) ∧
    (delete_loop index fid s = inr (delete_outcome fid s cur' d' k o') ∧
     (oracle s = [] → o' = []) ∧
     length cur' = m + k ∧
     Forall (λ p, part_status p = false) cur' ∧
     (∀ j p, j < Nat.min ((index + 1) * batch_size) (length cur) →
             cur !! j = Some p → d' !! store_path s p = None)
     ∨
     delete_loop index fid s = inl (PoolError, delete_outcome fid s cur' d' k o') ∧
     oracle s ≠ []).
Proof.
  induction index as [|index IH]; intros s cur m Hc Hlen Hst Hm; simpl;
    destruct (delete_batch_counts fid _ s cur Hc Hlen Hst)
      as (cur1 & d1 & k1 & o1 & Hsub1 & Hd1 & Hout1 & Hb).
  - destruct Hb as [(-> & Ho1 & Hl1 & Hn1 & Hst1 & _ & Hgone1)|(-> & Ho & _)].
    + exists cur1, d1, k1, o1. split; [done|]. split; [done|]. split; [done|]. left.
      split; [done|]. split; [done|]. split; [lia|]. split.
      * apply Forall_lookup. intros j p Hp. apply (Hst1 j); [lia|done].
      * intros j p Hj Hp. apply (Hgone1 j); [lia|done].
    + exists cur1, d1, k1, o1. split; [done|]. split; [done|]. split; [done|]. by right.
  - destruct Hb as [(-> & Ho1 & Hl1 & Hn1 & Hst1 & Hlow1 & Hgone1)|(-> & Ho & _)].
    2:{ exists cur1, d1, k1, o1. split; [done|]. split; [done|]. split; [done|].
        by right. }
    destruct (IH (delete_outcome fid s cur1 d1 k1 o1) cur1 (m + k1))
      as (cur2 & d2 & k2 & o2 & Hsub2 & Hd2 & Hout2 & Hl);
      [simpl; apply lookup_insert_eq|lia| |lia|].
    { intros j p Hj Hp. apply (Hst1 j); [lia|done]. }
    rewrite !delete_outcome_twice in Hl. simpl in Hd2, Hout2.
    exists cur2, d2, (k1 + k2), o2.
    split; [by etrans|]. split; [by etrans|]. split.
    { intros q Hq. rewrite Hout2, Hout1; [done..|].
      intros Hq'. apply Hq. by eapply (faded_paths s _ cur1 cur). }
    destruct Hl as [(-> & Ho2 & Hl2 & Hst2 & Hgone2)|(-> & Ho2)]; [left|right].
    + split; [done|]. split; [auto|]. split; [lia|]. split; [done|].
      intros j p Hj Hp. destruct (decide (j < S index * batch_size)) as [Hlt|Hge].
      * apply (Hgone2 j p); [|by rewrite Hlow1]. lia.
      * eapply lookup_weaken_None; [|exact Hd2]. apply (Hgone1 j); [lia|done].
    + split; [done|]. simpl in Ho2. intros Ho. by apply Ho2, Ho1.
Qed.

(** Every way through [handle_delete_command]. *)
Lemma delete_run words s :
  (∃ m, handle_delete_command words s = (say m s, Delete_rejected)) ∨
  ∃ w raw f,
    words = [w; raw] ∧ files s !! int raw = Some f ∧ file_status f = true ∧
    let s0 := set_files (<[int raw := mkFile (file_id f) (file_name f) false
                                             (file_part_count f)]> (files s)) s in
    (parts s !! file_id f = None ∧
     handle_delete_command words s = (s0, Delete_uncaught KeyError)) ∨
    ∃ l cur' d' k o',
      parts s !! file_id f = Some l ∧
      sublist (faded <$> cur') (faded <$> l) ∧
      d' ⊆ disk s ∧
      (∀ q, q ∉ store_path s <$> l → d' !! q = disk s !! q) ∧
      (handle_delete_command words s
       = (set_files (delete (int raw) (files s0))
                    (delete_outcome (file_id f) s0 cur' d' k o'), Delete_done) ∧
       (oracle s = [] → o' = []) ∧
       length cur' = k ∧
       Forall (λ p, part_status p = false) cur' ∧
       (∀ p, p ∈ l → d' !! store_path s p = None)
       ∨
       handle_delete_command words s
       = (say (Delete_failed PoolError) (delete_outcome (file_id f) s0 cur' d' k o'),
          Delete_excepted) ∧
       oracle s ≠ []).
Proof.
  unfold handle_delete_command.
  destruct words as [|w [|raw [|]]]; try (left; eauto; fail).
  destruct (isdigit raw); simpl; [|left; eauto].
  destruct (files s !! int raw) as [f|] eqn:Ef; [|left; eauto].
  destruct (file_status f) eqn:Est; simpl; [|left; eauto].
  right. exists w, raw, f. split; [done|]. split; [done|]. split; [done|].
  destruct (parts s !! file_id f) as [l|] eqn:El; [right|by left].
  match goal with |- context [delete_loop ?i ?fid ?s0] =>
    destruct (delete_loop_counts fid i s0 l 0)
      as (cur' & d' & k & o' & Hsub & Hd & Hout & Hl)
  end; [done| | | |].
  { rewrite Nat.mul_comm. apply Nat.Div0.mul_div_le. }
  { intros j p Hj Hp. apply lookup_lt_Some in Hp.
    pose proof (Nat.mul_succ_div_gt (length l) batch_size) as Hgt.
    rewrite batch_size_eq in *. lia. }
  { pose proof (Nat.mul_succ_div_gt (length l) batch_size) as Hgt.
    rewrite batch_size_eq in *. lia. }
  exists l, cur', d', k, o'. split; [done|]. split; [done|]. split; [done|].
  split; [done|].
  destruct Hl as [(-> & Ho & Hk & Hst & Hgone)|(-> & Ho)]; [left|right]; [|done].
  split; [done|]. split; [done|]. split; [done|]. split; [done|].
  intros p (j & Hj)%list_elem_of_lookup. apply (Hgone j); [|done].
  apply lookup_lt_Some in Hj.
  pose proof (Nat.mul_succ_div_gt (length l) batch_size) as Hgt.
  rewrite batch_size_eq in *. lia.
Qed.

Lemma faded_id (l : list FilePart) :
  Forall (λ p, part_status p = false) l → faded <$> l = l.
Proof.
  intros Hl. induction Hl as [|p l Hp _ IH]; [done|]. rewrite fmap_cons, IH.
  f_equal. destruct p. simpl in Hp. by subst.
Qed.

(** X6. The [try] block of a delete can fail on a dispatch to the worker
    pool only: its index arithmetic never leaves the bounds of the
    sequence. After such a failure the file is still registered, with
    [status = False]. *)
Theorem delete_fails_only_on_a_pool_fault words s s' :
  handle_delete_command words s = (s', Delete_excepted) →
  oracle s ≠ [] ∧
  (∃ k, stdout s' = stdout s ++ replicate k Delete_error ++ [Delete_failed PoolError]) ∧
  ∃ w raw f,
    words = [w; raw] ∧ files s !! int raw = Some f ∧
    files s' !! int raw
    = Some (mkFile (file_id f) (file_name f) false (file_part_count f)).
Proof.
  intros Hd.
  destruct (delete_run words s) as [[m Hr]|(w & raw & f & -> & Hf & Hst & Hr)];
    [congruence|].
  destruct Hr as [[_ Hr]|(l & cur' & d' & k & o' & Hl & _ & _ & _ & Hr)]; [congruence|].
  destruct Hr as [(Hr & _)|(Hr & Ho)]; [congruence|].
  rewrite Hr in Hd. injection Hd as <-. split; [done|]. split.
  - exists k. simpl. by rewrite <- app_assoc.
  - exists w, raw, f. simpl. by rewrite lookup_insert_eq.
Qed.

(** X7. A delete that completed has written one "Error deleting file."
    for each entry it left in the sequence of the file, and nothing else;
    the entries left are entries the sequence had, in their order, each
    with [status = False]. *)
Theorem delete_reports_each_entry_it_keeps w raw s s' :
  handle_delete_command [w; raw] s = (s', Delete_done) →
  ∃ f l l',
    files s !! int raw = Some f ∧
    parts s !! file_id f = Some l ∧
    parts s' !! file_id f = Some l' ∧
    stdout s' = stdout s ++ replicate (length l') Delete_error ∧
    sublist l' (faded <$> l).
Proof.
  intros Hd.
  destruct (delete_run [w; raw] s) as [[m Hr]|(w' & raw' & f & [= <- <-] & Hf & Hst & Hr)];
    [congruence|].
  destruct Hr as [[_ Hr]|(l & cur' & d' & k & o' & Hl & Hsub & _ & _ & Hr)];
    [congruence|].
  destruct Hr as [(Hr & _ & Hk & Hfaded & _)|(Hr & _)]; [|congruence].
  rewrite Hr in Hd. injection Hd as <-. exists f, l, cur'. simpl.
  rewrite lookup_insert_eq, Hk. split; [done|]. split; [done|]. split; [done|].
  split; [done|]. by rewrite <- (faded_id cur').
Qed.

(** X8. A delete, on every exit, only removes: what is on the disk after
    it was there before with the same content, and only part files of the
    file it was given are gone. It reserves no memory, draws no id and
    touches no other entry of either registry. *)
Theorem delete_only_removes words s s' e :
  handle_delete_command words s = (s', e) →
  disk s' ⊆ disk s ∧
  memory_usage s' = memory_usage s ∧
  file_next_id s' = file_next_id s ∧
  part_next_id s' = part_next_id s ∧
  (∀ k, k ≠ int (default EmptyString (words !! 1)) → files s' !! k = files s !! k) ∧
  (∀ k, (∀ f, files s !! int (default EmptyString (words !! 1)) = Some f →
              k ≠ file_id f) →
        parts s' !! k = parts s !! k) ∧
  (∀ path, (∀ f l p, files s !! int (default EmptyString (words !! 1)) = Some f →
                     parts s !! file_id f = Some l → p ∈ l →
                     path ≠ store_path s p) →
           disk s' !! path = disk s !! path).
Proof.
  intros Hd.
  destruct (delete_run words s) as [[m Hr]|(w & raw & f & -> & Hf & Hst & Hr)].
  { rewrite Hr in Hd. injection Hd as <- <-. done. }
  simpl.
  destruct Hr as [[_ Hr]|(l & cur' & d' & k & o' & Hl & Hsub & Hdisk & Hout & Hr)].
  { rewrite Hr in Hd. injection Hd as <- <-. simpl. repeat split; auto.
    intros k Hk. by rewrite lookup_insert_ne. }
  assert (∀ path, (∀ f0 l0 p, files s !! int raw = Some f0 →
                     parts s !! file_id f0 = Some l0 → p ∈ l0 →
                     path ≠ store_path s p) → d' !! path = disk s !! path) as Hout'.
  { intros path Hpath. apply Hout. intros (p & -> & Hp)%list_elem_of_fmap.
    by eapply Hpath. }
  destruct Hr as [(Hr & _)|(Hr & _)]; rewrite Hr in Hd; injection Hd as <- <-; simpl;
    repeat split; auto.
  - intros j Hj. by rewrite lookup_delete_ne, lookup_insert_ne.
  - intros j Hj. rewrite lookup_insert_ne; [done|]. intros <-. by eapply Hj.
  - intros j Hj. by rewrite lookup_insert_ne.
  - intros j Hj. rewrite lookup_insert_ne; [done|]. intros <-. by eapply Hj.
Qed.

(** ** The ids a put gives to its parts, on every exit *)

Section PutIds.
Context `{Codec}.
Variables (fid base : nat).

(** The parts of the file carry ids drawn one after the other from [base]
    on and the indices from [0] on, and bear the name made of the file id
    and of their index. Inside the loop of put the next id to draw is the
    one after them and the next index is [index]; on leaving it, an id may
    have been drawn that no part carries. *)
Definition numbered (next : option nat) (s : FileStorageSystem) : Prop :=
  ∃ l, parts s !! fid = Some l ∧
       part_id <$> l = seq base (length l) ∧
       part_index <$> l = seq 0 (length l) ∧
       Forall (λ p, part_parent_id p = fid ∧
                    part_path p = part_name fid (part_index p)) l ∧
       match next with
       | Some index => part_next_id s = base + length l ∧ index = length l
       | None => base + length l ≤ part_next_id s
       end.

Lemma numbered_weaken index s : numbered (Some index) s → numbered None s.
Proof. intros (l & ? & ? & ? & ? & ? & ?). exists l. repeat split; auto. lia. Qed.

Lemma numbered_same next s s' :
  parts s' = parts s → part_next_id s' = part_next_id s →
  numbered next s → numbered next s'.
Proof. intros Ep En (l & ? & ? & ? & ? & ?). exists l. by rewrite Ep, En. Qed.

Lemma numbered_put_fill n : ∀ reader index batch fps s,
  numbered (Some index) s →
  match put_fill n fid reader index batch fps s with
  | Fill_done false _ index' _ _ s' => numbered (Some index') s'
  | Fill_returned s' | Fill_done true _ _ _ _ s' | Fill_raised _ s' => numbered None s'
  end.
Proof.
  induction n as [|n IH]; intros reader index batch fps s Hs; simpl; [done|].
  ask; [|ask; apply (numbered_weaken index); by eapply numbered_same; [| |exact Hs]].
  destruct (take part_size reader) as [|b part]; simpl.
  { destruct Hs as (l & ? & ? & ? & ? & ? & ?). exists l. simpl. repeat split; auto. lia. }
  destruct Hs as (l & Hl & Hids & Hidx & Hpar & Hn & ->). simpl. rewrite Hl. simpl.
  apply IH. eexists. simpl. rewrite lookup_insert_eq. split; [done|].
  rewrite !fmap_app, length_app, !seq_app, Hids, Hidx. simpl.
  split; [by rewrite Hn|]. split; [done|]. split; [|lia].
  apply Forall_app. split; [done|]. by constructor.
Qed.

Lemma numbered_put_record next : ∀ fps result s,
  numbered next s → numbered next (result_state (put_record fid fps result s)).
Proof.
  induction fps as [|p fps IH]; intros result s Hs; simpl; [done|].
  destruct result as [|h result]; simpl; [done|].
  destruct Hs as (l & Hl & Hids & Hidx & Hpar & Hn). rewrite Hl.
  destruct (l !! part_index p) as [q|] eqn:Hq; simpl; [|by exists l].
  apply IH. eexists. simpl. rewrite lookup_insert_eq. split; [done|].
  rewrite length_insert, !list_fmap_insert. simpl.
  split; [rewrite list_insert_id; [done|]; by rewrite list_lookup_fmap, Hq|].
  split; [rewrite list_insert_id; [done|]; by rewrite list_lookup_fmap, Hq|].
  split; [|done]. apply Forall_insert; [done|]. simpl.
  eapply (Forall_lookup_1 _ _ _ _ Hpar Hq).
Qed.

Lemma numbered_put_loop fuel : ∀ reader index locked s r,
  numbered (Some index) s →
  put_loop fuel fid reader index locked s = Some r →
  numbered None (flow_state r).
Proof.
  induction fuel as [|fuel IH]; intros reader index locked s r Hs Hr; simpl in Hr;
    [done|].
  ask; [|eapply IH; [|exact Hr]; by eapply numbered_same; [| |exact Hs]].
  destruct (admits _) eqn:Ha; simpl in Hr;
    [|eapply IH; [|exact Hr]; by eapply numbered_same; [| |exact Hs]].
  pose proof (numbered_put_fill batch_size reader index [] []
                (reserve (set_oracle o s))) as Hf.
  lapply Hf; [clear Hf; intros Hf|by eapply numbered_same; [| |exact Hs]].
  destruct (put_fill _ _ _ _ _ _ _) as [s1|e s1|fin reader' index' batch fps s1].
  { by injection Hr as <-. }
  { by injection Hr as <-. }
  assert (numbered None s1) as Hf'.
  { destruct fin; [done|by apply (numbered_weaken index')]. }
  unfold starmap_save in Hr. ask.
  2:{ injection Hr as <-.
      destruct (save_some_spec batch (set_oracle o0 s1)) as (o' & d' & ->).
      by eapply numbered_same; [| |exact Hf']. }
  destruct (save_all _ _) as [result d]. simpl in Hr.
  match type of Hr with context [put_record fid fps result ?s2] =>
    pose proof (λ next, numbered_put_record next fps result s2) as Hp;
    destruct (put_record fid fps result s2) as [[e s3]|s3] end; simpl in Hp, Hr.
  { injection Hr as <-. apply Hp. by eapply numbered_same; [| |exact Hf']. }
  destruct fin.
  - ask; injection Hr as <-;
      (eapply numbered_same; [| |apply (Hp None);
                                  by eapply numbered_same; [| |exact Hf']]); done.
  - ask; (eapply IH; [|exact Hr]);
      (eapply numbered_same; [| |apply (Hp (Some index'));
                                  by eapply numbered_same; [| |exact Hf]]); done.
Qed.

End PutIds.

Section PutRegistry.
Context `{Codec}.

(** What a put does to the registries, on every exit. *)
Lemma put_registry fuel words s s' e :
  handle_put_command fuel words s = Some (s', e) →
  (e = Put_rejected ∧ files s' = files s ∧ parts s' = parts s ∧
   file_next_id s' = file_next_id s ∧ part_next_id s' = part_next_id s)
  ∨
  (e ≠ Put_rejected ∧
   file_next_id s' = file_next_id s + 1 ∧
   part_next_id s ≤ part_next_id s' ∧
   (∃ f, files s' = <[file_next_id s := f]> (files s) ∧
         file_id f = file_next_id s ∧
         words = [default EmptyString (words !! 0); file_name f] ∧
         (file_status f = true ↔ e = Put_done) ∧
         (file_status f = true → is_Some (parts s' !! file_next_id s))) ∧
   (∀ k, k ≠ file_next_id s → parts s' !! k = parts s !! k) ∧
   (parts s' !! file_next_id s = parts s !! file_next_id s ∨
    numbered (file_next_id s) (part_next_id s) None s')).
Proof.
  unfold handle_put_command. intros Hp.
  destruct words as [|w [|name [|]]]; try (injection Hp as <- <-; by left).
  ask; [|injection Hp as <- <-; by left].
  right.
  destruct (disk s !! name) as [content|] eqn:Hc; simpl in Hp.
  2:{ injection Hp as <- <-. simpl. split; [done|]. split; [done|]. split; [done|].
      split; [eexists; split; [done|]; split; [done|]; by split|]. split; [done|].
      by left. }
  destruct (put_loop _ _ _ _ _ _) as [r|] eqn:Hl; [|done].
  pose proof (stable_put_loop _ _ _ _ _ _ _ Hl) as (_ & _ & Hfn & Hfiles & Hpn & _).
  pose proof (elsewhere_put_loop _ _ _ _ _ _ _ Hl) as Helse.
  apply (numbered_put_loop (file_next_id s) (part_next_id s)) in Hl as Hnum.
  2:{ exists []. simpl. rewrite lookup_insert_eq. repeat split; auto. }
  simpl in Hfn, Hfiles, Hpn, Helse.
  assert (∀ k, k ≠ file_next_id s → parts (flow_state r) !! k = parts s !! k) as Hother.
  { intros k Hk. rewrite Helse by done. simpl. by rewrite lookup_insert_ne. }
  assert (∀ e1 locked,
    let s2 := on_exception Put_failed Put_could_not_release e1 locked (flow_state r) in
    Put_excepted ≠ Put_rejected ∧
    file_next_id s2 = file_next_id s + 1 ∧
    part_next_id s ≤ part_next_id s2 ∧
    (∃ f, files s2 = <[file_next_id s := f]> (files s) ∧
          file_id f = file_next_id s ∧
          [w; name] = [w; file_name f] ∧
          (file_status f = true ↔ Put_excepted = Put_done) ∧
          (file_status f = true → is_Some (parts s2 !! file_next_id s))) ∧
    (∀ k, k ≠ file_next_id s → parts s2 !! k = parts s !! k) ∧
    (parts s2 !! file_next_id s = parts s !! file_next_id s ∨
     numbered (file_next_id s) (part_next_id s) None s2)) as Hexc.
  { intros e1 locked s2.
    destruct (on_exception_same Put_failed Put_could_not_release e1 locked (flow_state r))
      as (Ef & Ep & _ & Efn & Epn). fold s2 in Ef, Ep, Efn, Epn.
    rewrite Ef, Efn, Epn, Hfiles, Hfn. split; [done|]. split; [done|]. split; [done|].
    split; [eexists; split; [done|]; split; [done|]; by split|].
    split; [intros k Hk; rewrite Ep; by apply Hother|].
    right. by eapply numbered_same; [| |exact Hnum]. }
  destruct r as [locked s1|s1|e1 locked s1]; simpl in *.
  - destruct (files s1 !! file_next_id s) as [f|] eqn:Ef,
             (parts s1 !! file_next_id s) as [l|] eqn:El;
      injection Hp as <- <-; try apply (Hexc KeyError locked).
    simpl. split; [done|]. split; [done|]. split; [done|]. split.
    { eexists. rewrite Hfiles, insert_insert_eq. split; [done|].
      rewrite Hfiles, lookup_insert_eq in Ef. injection Ef as <-. simpl.
      split; [done|]. split; [done|]. split; [done|]. by rewrite El. }
    split; [done|]. right. by eapply numbered_same; [| |exact Hnum].
  - injection Hp as <- <-. split; [done|]. split; [done|]. split; [done|].
    split; [eexists; split; [done|]; split; [done|]; by split|]. split; [done|].
    by right.
  - injection Hp as <- <-. apply (Hexc e1 locked).
Qed.

End PutRegistry.

(** [handle_list_command] writes, and does nothing else. *)
Lemma list_writes_only s :
  let s' := handle_list_command s in
  ∃ out, s' = mkSystem (parts_directory s) (memory_limit s) (memory_usage s)
                (file_next_id s) (files s) (part_next_id s) (parts s) (disk s)
                (stdout s ++ out) (oracle s) ∧
         out = (λ f, List_line (file_id f) (file_name f)) <$> (map_to_list (files s)).*2.
Proof.
  unfold handle_list_command. simpl. eexists. split; [|reflexivity].
  generalize ((map_to_list (files s)).*2). intros l.
  assert (∀ s0 : FileStorageSystem,
    foldl (λ s f, say (List_line (file_id f) (file_name f)) s) s0 l
    = mkSystem (parts_directory s0) (memory_limit s0) (memory_usage s0)
        (file_next_id s0) (files s0) (part_next_id s0) (parts s0) (disk s0)
        (stdout s0 ++ ((λ f, List_line (file_id f) (file_name f)) <$> l)) (oracle s0))
    as Hgen.
  { induction l as [|f l IH]; intros s0; simpl.
    - rewrite app_nil_r. by destruct s0.
    - rewrite IH. simpl. by rewrite <- app_assoc. }
  apply Hgen.
Qed.

(** ** The registries of a state the handlers can reach *)

Record tidy (s : FileStorageSystem) : Prop := mkTidy {
  tidy_file_keys : ∀ k f, files s !! k = Some f → k < file_next_id s ∧ file_id f = k;
  tidy_part_keys : ∀ k l, parts s !! k = Some l → k < file_next_id s;
  tidy_ready : ∀ k f, files s !! k = Some f → file_status f = true →
                      is_Some (parts s !! k);
  tidy_part_ids : ∀ k l p, parts s !! k = Some l → p ∈ l →
                           part_id p < part_next_id s ∧ part_parent_id p = k;
  tidy_unique : ∀ k l, parts s !! k = Some l → NoDup (part_id <$> l);
  tidy_apart : ∀ k1 k2 l1 l2 p1 p2,
    k1 ≠ k2 → parts s !! k1 = Some l1 → parts s !! k2 = Some l2 →
    p1 ∈ l1 → p2 ∈ l2 → part_id p1 ≠ part_id p2;
  tidy_paths : ∀ k l p, parts s !! k = Some l → p ∈ l →
                        part_path p = part_name k (part_index p);
  tidy_indices : ∀ k l, parts s !! k = Some l → NoDup (part_index <$> l);
}.

Lemma tidy_same s s' :
  files s' = files s → parts s' = parts s →
  file_next_id s' = file_next_id s → part_next_id s' = part_next_id s →
  tidy s → tidy s'.
Proof.
  intros Ef Ep Efn Epn [? ? ? ? ? ? ? ?]. split; rewrite ?Ef, ?Ep, ?Efn, ?Epn; auto.
Qed.

Lemma tidy_init parts_dir max_memory d env :
  tidy (FileStorageSystem_init parts_dir max_memory d env).
Proof. split; simpl; intros *; rewrite ?lookup_empty; done. Qed.

Lemma tidy_put `{Codec} fuel words s s' e :
  handle_put_command fuel words s = Some (s', e) → tidy s → tidy s'.
Proof.
  intros Hp Hs. apply put_registry in Hp.
  destruct Hp as [(_ & Ef & Ep & Efn & Epn)|(_ & Efn & Epn & Hf & Hother & Hnew)];
    [by eapply tidy_same|].
  destruct Hs as [Hfk Hpk Hrd Hid Hun Hap Hpa Hix].
  destruct Hf as (f & Ef & Hfid & _ & _ & Hfst).
  assert (parts s !! file_next_id s = None) as Hfresh.
  { destruct (parts s !! file_next_id s) as [l|] eqn:E; [|done].
    apply Hpk in E. lia. }
  assert (∀ k l, parts s' !! k = Some l →
            k ≠ file_next_id s ∧ parts s !! k = Some l ∨
            k = file_next_id s ∧
            part_id <$> l = seq (part_next_id s) (length l) ∧
            part_index <$> l = seq 0 (length l) ∧
            Forall (λ p, part_parent_id p = file_next_id s ∧
                         part_path p = part_name (file_next_id s) (part_index p)) l ∧
            part_next_id s + length l ≤ part_next_id s') as Hcase.
  { intros k l Hl. destruct (decide (k = file_next_id s)) as [->|Hne].
    - destruct Hnew as [Hnew|(l' & Hl' & ? & ? & ? & ?)]; [congruence|].
      right. rewrite Hl in Hl'. injection Hl' as <-. done.
    - left. by rewrite Hother in Hl. }
  assert (∀ l p, part_id <$> l = seq (part_next_id s) (length l) → p ∈ l →
            part_next_id s ≤ part_id p < part_next_id s + length l) as Hrange.
  { intros l p Hl Hp.
    assert (part_id p ∈ seq (part_next_id s) (length l)) as Hin%elem_of_seq.
    { rewrite <- Hl. by apply list_elem_of_fmap_2. }
    lia. }
  split.
  - intros k f0. rewrite Ef, Efn. intros Hk.
    destruct (decide (k = file_next_id s)) as [->|Hne].
    + rewrite lookup_insert_eq in Hk. injection Hk as <-. split; [lia|done].
    + rewrite lookup_insert_ne in Hk by done. apply Hfk in Hk. split; [lia|tauto].
  - intros k l Hl. rewrite Efn.
    destruct (Hcase k l Hl) as [[_ Hl']|[-> _]]; [apply Hpk in Hl'|]; lia.
  - intros k f0. rewrite Ef. intros Hk Hst.
    destruct (decide (k = file_next_id s)) as [->|Hne].
    + rewrite lookup_insert_eq in Hk. injection Hk as <-. by apply Hfst.
    + rewrite lookup_insert_ne in Hk by done. rewrite Hother by done. by eapply Hrd.
  - intros k l p Hl Hp.
    destruct (Hcase k l Hl) as [[_ Hl']|(-> & Hids & _ & Hpar & Hle)].
    + destruct (Hid k l p Hl' Hp). split; [lia|done].
    + pose proof (Hrange l p Hids Hp). split; [lia|].
      by destruct (proj1 (Forall_forall _ _) Hpar p Hp).
  - intros k l Hl.
    destruct (Hcase k l Hl) as [[_ Hl']|(-> & Hids & _)]; [by eapply Hun|].
    rewrite Hids. apply NoDup_seq.
  - intros k1 k2 l1 l2 p1 p2 Hne Hl1 Hl2 Hp1 Hp2.
    destruct (Hcase k1 l1 Hl1) as [[_ Hl1']|(-> & Hids1 & _)],
             (Hcase k2 l2 Hl2) as [[_ Hl2']|(-> & Hids2 & _)].
    + by eapply Hap.
    + pose proof (Hrange l2 p2 Hids2 Hp2). destruct (Hid k1 l1 p1 Hl1' Hp1). lia.
    + pose proof (Hrange l1 p1 Hids1 Hp1). destruct (Hid k2 l2 p2 Hl2' Hp2). lia.
    + done.
  - intros k l p Hl Hp.
    destruct (Hcase k l Hl) as [[_ Hl']|(-> & _ & _ & Hpar & _)]; [by eapply Hpa|].
    by destruct (proj1 (Forall_forall _ _) Hpar p Hp).
  - intros k l Hl.
    destruct (Hcase k l Hl) as [[_ Hl']|(-> & _ & Hidx & _)]; [by eapply Hix|].
    rewrite Hidx. apply NoDup_seq.
Qed.

Lemma tidy_get `{Codec} fuel words s s' e :
  handle_get_command fuel words s = Some (s', e) → tidy s → tidy s'.
Proof.
  intros Hg. pose proof (get_stable _ _ _ _ _ Hg) as (_ & _ & Hfn & Hf & _).
  unfold handle_get_command in Hg.
  assert (parts s' = parts s ∧ part_next_id s' = part_next_id s) as [Hp Hn].
  { destruct words as [|w [|raw [|]]]; try (by injection Hg as <- <-).
    destruct (isdigit raw); simpl in Hg; [|by injection Hg as <- <-].
    destruct (files s !! int raw) as [f|]; [|by injection Hg as <- <-].
    destruct (file_status f); simpl in Hg; [|by injection Hg as <- <-].
    destruct (parts s !! file_id f) as [l|]; [|by injection Hg as <- <-].
    destruct (get_loop _ _ _ _ _ _) as [r|] eqn:Hl; [|done].
    apply only_at_get_loop in Hl as (Hp & Hn & _). simpl in Hp, Hn.
    destruct r as [locked s1|s1|e1 locked s1]; simpl in *; injection Hg as <- <-;
      try done.
    by destruct (on_exception_same Get_failed Get_could_not_release e1 locked s1)
      as (_ & -> & _ & _ & ->). }
  by apply tidy_same.
Qed.

Lemma faded_sublist_elem (a b : list FilePart) p :
  sublist (faded <$> a) (faded <$> b) → p ∈ a →
  ∃ q, q ∈ b ∧ part_id q = part_id p ∧ part_parent_id q = part_parent_id p ∧
       part_path q = part_path p ∧ part_index q = part_index p.
Proof.
  intros Hsub Hp.
  assert (faded p ∈ faded <$> b) as (q & Hq & Hqb)%list_elem_of_fmap.
  { eapply elem_of_sublist; [|exact Hsub]. by apply list_elem_of_fmap_2. }
  exists q. split; [done|].
  change (part_id (faded q) = part_id (faded p) ∧
          part_parent_id (faded q) = part_parent_id (faded p) ∧
          part_path (faded q) = part_path (faded p) ∧
          part_index (faded q) = part_index (faded p)).
  by rewrite Hq.
Qed.

Lemma tidy_delete words s s' e :
  handle_delete_command words s = (s', e) → tidy s → tidy s'.
Proof.
  intros Hd Hs.
  destruct (delete_run words s) as [[m Hr]|(w & raw & f & -> & Hf & Hst & Hr)].
  { rewrite Hr in Hd. injection Hd as <- <-. by eapply tidy_same; [..|exact Hs]. }
  destruct Hs as [Hfk Hpk Hrd Hid Hun Hap Hpa Hix]. cbv zeta in Hr.
  destruct (Hfk _ _ Hf) as [Hlt Hfid].
  destruct Hr as [[Hnone _]|(l & cur' & d' & k & o' & Hl & Hsub & _ & _ & Hr)].
  { destruct (Hrd _ _ Hf Hst) as [l Hl]. congruence. }
  assert (∀ files',
    (∀ j g, files' !! j = Some g →
            j ≠ int raw ∧ files s !! j = Some g ∨
            j = int raw ∧ file_id g = int raw ∧ file_status g = false) →
    ∀ s2, files s2 = files' → parts s2 = <[file_id f := cur']> (parts s) →
          file_next_id s2 = file_next_id s → part_next_id s2 = part_next_id s →
          tidy s2) as Hgen.
  { intros files' Hfiles s2 E2 P2 Fn2 Pn2.
    assert (∀ j lj, parts s2 !! j = Some lj →
              ∃ lj', parts s !! j = Some lj' ∧ sublist (faded <$> lj) (faded <$> lj'))
      as Hparts.
    { intros j lj. rewrite P2. intros Hj.
      destruct (decide (j = file_id f)) as [->|Hne].
      - rewrite lookup_insert_eq in Hj. injection Hj as <-. eauto.
      - rewrite lookup_insert_ne in Hj by done. eauto. }
    split; rewrite ?E2, ?Fn2, ?Pn2.
    - intros j g Hj. destruct (Hfiles j g Hj) as [[_ Hj']|(-> & ? & _)]; [by apply Hfk|].
      done.
    - intros j lj Hj. destruct (Hparts j lj Hj) as (lj' & Hj' & _). by eapply Hpk.
    - intros j g Hj Hg. destruct (Hfiles j g Hj) as [[Hne Hj']|(_ & _ & ?)]; [|congruence].
      rewrite P2. destruct (decide (j = file_id f)) as [->|Hne'].
      + rewrite lookup_insert_eq. eauto.
      + rewrite lookup_insert_ne by done. by eapply Hrd.
    - intros j lj p Hj Hp. destruct (Hparts j lj Hj) as (lj' & Hj' & Hs').
      destruct (faded_sublist_elem _ _ _ Hs' Hp) as (q & Hq & <- & <- & _).
      by eapply Hid.
    - intros j lj Hj. destruct (Hparts j lj Hj) as (lj' & Hj' & Hs').
      eapply sublist_NoDup; [by eapply Hun|].
      apply (fmap_sublist part_id) in Hs'.
      by rewrite <- !list_fmap_compose in Hs'.
    - intros k1 k2 l1 l2 p1 p2 Hne H1 H2 Hp1 Hp2.
      destruct (Hparts k1 l1 H1) as (l1' & H1' & Hs1).
      destruct (Hparts k2 l2 H2) as (l2' & H2' & Hs2).
      destruct (faded_sublist_elem _ _ _ Hs1 Hp1) as (q1 & Hq1 & <- & _).
      destruct (faded_sublist_elem _ _ _ Hs2 Hp2) as (q2 & Hq2 & <- & _).
      by eapply Hap.
    - intros j lj p Hj Hp. destruct (Hparts j lj Hj) as (lj' & Hj' & Hs').
      destruct (faded_sublist_elem _ _ _ Hs' Hp) as (q & Hq & _ & _ & <- & <-).
      by eapply Hpa.
    - intros j lj Hj. destruct (Hparts j lj Hj) as (lj' & Hj' & Hs').
      eapply sublist_NoDup; [by eapply Hix|].
      apply (fmap_sublist part_index) in Hs'.
      by rewrite <- !list_fmap_compose in Hs'. }
  destruct Hr as [(Hr & _)|(Hr & _)]; rewrite Hr in Hd; injection Hd as <- <-;
    (eapply Hgen; [|reflexivity..]); intros j g; simpl.
  - intros Hj. destruct (decide (j = int raw)) as [->|Hne].
    + by rewrite lookup_delete_eq in Hj.
    + rewrite lookup_delete_ne, lookup_insert_ne in Hj by done. by left.
  - intros Hj. destruct (decide (j = int raw)) as [->|Hne].
    + rewrite lookup_insert_eq in Hj. injection Hj as <-. by right.
    + rewrite lookup_insert_ne in Hj by done. by left.
Qed.

Lemma tidy_list s : tidy s → tidy (handle_list_command s).
Proof.
  destruct (list_writes_only s) as (out & -> & _). by apply tidy_same.
Qed.

Section Reachable.
Context `{Codec}.

(** One command run to its end on its own, the environment having chosen
    its answers. *)
Definition handler_step (s s' : FileStorageSystem) : Prop :=
  ∃ env fuel h user_input, run fuel h user_input (set_oracle env s) = Some s'.

Lemma tidy_step s s' : handler_step s s' → tidy s → tidy s'.
Proof.
  intros (env & fuel & h & line & Hrun) Hs.
  assert (tidy (set_oracle env s)) as Hs' by by eapply tidy_same; [..|exact Hs].
  destruct h; unfold run in Hrun.
  - destruct (handle_put_command _ _ _) as [[s1 e]|] eqn:Hp; [|done].
    injection Hrun as <-. by eapply tidy_put.
  - destruct (handle_get_command _ _ _) as [[s1 e]|] eqn:Hg; [|done].
    injection Hrun as <-. by eapply tidy_get.
  - injection Hrun as <-.
    destruct (handle_delete_command _ _) as [s1 e] eqn:Hd. by eapply tidy_delete.
  - injection Hrun as <-. by apply tidy_list.
  - done.
Qed.

Lemma tidy_reachable s s' : rtc handler_step s s' → tidy s → tidy s'.
Proof. induction 1 as [|s1 s2 s3 Hstep _ IH]; [done|]. intros Hs. by eapply IH, tidy_step. Qed.

(** X9. In every state that the handlers reach from start-up, run one
    after the other under any answers of the locks and of the pool: the
    key of a registered file is the id it carries and was drawn from the
    file-id allocator, as was every key of the Part Registry; a ready file
    has a part sequence; every part names the file under whose key it is
    registered, and no two parts of the registry carry the same id. *)
Theorem reachable_registries_are_tidy parts_dir max_memory d env s :
  rtc handler_step (FileStorageSystem_init parts_dir max_memory d env) s →
  (∀ k f, files s !! k = Some f → k < file_next_id s ∧ file_id f = k) ∧
  (∀ k l, parts s !! k = Some l → k < file_next_id s) ∧
  (∀ k f, files s !! k = Some f → file_status f = true → is_Some (parts s !! k)) ∧
  (∀ k l p, parts s !! k = Some l → p ∈ l →
            part_id p < part_next_id s ∧ part_parent_id p = k) ∧
  (∀ k l, parts s !! k = Some l → NoDup (part_id <$> l)) ∧
  (∀ k1 k2 l1 l2 p1 p2,
     k1 ≠ k2 → parts s !! k1 = Some l1 → parts s !! k2 = Some l2 →
     p1 ∈ l1 → p2 ∈ l2 → part_id p1 ≠ part_id p2).
Proof.
  intros Hr. apply tidy_reachable in Hr; [|apply tidy_init].
  by destruct Hr.
Qed.

(** X10. In such a state a put overwrites nothing, the id it draws being
    the key of no entry of either registry, and neither a get nor a delete
    fails outside its [try] block on a file without part sequence. *)
Theorem reachable_ids_are_fresh parts_dir max_memory d env s :
  rtc handler_step (FileStorageSystem_init parts_dir max_memory d env) s →
  files s !! file_next_id s = None ∧
  parts s !! file_next_id s = None ∧
  (∀ o fuel words s' e,
     handle_get_command fuel words (set_oracle o s) = Some (s', e) →
     ∀ x, e ≠ Get_uncaught x) ∧
  (∀ o words s' e,
     handle_delete_command words (set_oracle o s) = (s', e) →
     ∀ x, e ≠ Delete_uncaught x).
Proof.
  intros Hr. apply tidy_reachable in Hr; [|apply tidy_init].
  destruct Hr as [Hfk Hpk Hrd _ _ _ _ _]. split; [|split; [|split]].
  - destruct (files s !! file_next_id s) as [f|] eqn:E; [|done].
    apply Hfk in E. lia.
  - destruct (parts s !! file_next_id s) as [l|] eqn:E; [|done].
    apply Hpk in E. lia.
  - intros o fuel words s' e Hg x ->. unfold handle_get_command in Hg.
    destruct words as [|w [|raw [|]]]; try done.
    destruct (isdigit raw); simpl in Hg; [|done].
    destruct (files _ !! int raw) as [f|] eqn:Ef; [|done]. simpl in Ef.
    destruct (file_status f) eqn:Est; simpl in Hg; [|done].
    destruct (Hfk _ _ Ef) as [_ Hid]. destruct (Hrd _ _ Ef Est) as [l Hl].
    rewrite Hid, Hl in Hg.
    destruct (get_loop _ _ _ _ _ _) as [[locked s1|s1|e1 locked s1]|]; done.
  - intros o words s' e Hd x ->.
    destruct (delete_run words (set_oracle o s))
      as [[m Hm]|(w & raw & f & -> & Ef & Est & Hm)]; [congruence|].
    simpl in Ef. destruct (Hfk _ _ Ef) as [_ Hid]. destruct (Hrd _ _ Ef Est) as [l Hl].
    destruct Hm as [[Hnone _]|(l' & cur' & d' & k & o' & _ & _ & _ & _ & Hm)].
    + simpl in Hnone. congruence.
    + destruct Hm as [[Hm _]|[Hm _]]; congruence.
Qed.

Lemma unready_step s s' k f :
  handler_step s s' →
  files s !! k = Some f → file_status f = false → k < file_next_id s →
  files s' !! k = Some f ∧ k < file_next_id s'.
Proof.
  intros (env & fuel & h & line & Hrun) Hf Hst Hk.
  destruct h; unfold run in Hrun.
  - destruct (handle_put_command _ _ _) as [[s1 e]|] eqn:Hp; [|done].
    injection Hrun as <-. apply put_registry in Hp. simpl in Hp.
    destruct Hp as [(_ & -> & _ & -> & _)|(_ & -> & _ & (g & -> & _) & _)]; [done|].
    rewrite lookup_insert_ne by lia. split; [done|lia].
  - destruct (handle_get_command _ _ _) as [[s1 e]|] eqn:Hg; [|done].
    injection Hrun as <-. apply get_stable in Hg as (_ & _ & -> & -> & _). done.
  - injection Hrun as <-.
    destruct (delete_run (split line) (set_oracle env s))
      as [[m ->]|(w & raw & g & _ & Hg & Hgst & Hr)]; [done|].
    simpl in Hg. assert (k ≠ int raw) as Hne by (intros ->; congruence).
    destruct Hr as [[_ ->]|(l & cur' & d' & j & o' & _ & _ & _ & _ & [[-> _]|[-> _]])];
      simpl; rewrite ?lookup_delete_ne, lookup_insert_ne by done; done.
  - injection Hrun as <-. destruct (list_writes_only (set_oracle env s)) as (out & -> & _).
    done.
  - done.
Qed.

(** X11. A registered file that is not ready stays as it is whatever
    commands are run afterwards: the file of a put that failed, or of a
    delete that failed, can be neither read nor deleted, and is listed for
    ever. *)
Theorem unready_file_stays_unready s s' k f :
  files s !! k = Some f → file_status f = false → k < file_next_id s →
  rtc handler_step s s' →
  files s' !! k = Some f ∧
  (∀ fuel w raw, isdigit raw = true → int raw = k →
     handle_get_command fuel [w; raw] s' = Some (say Get_not_ready s', Get_rejected)) ∧
  (∀ w raw, isdigit raw = true → int raw = k →
     handle_delete_command [w; raw] s' = (say Delete_not_ready s', Delete_rejected)) ∧
  List_line (file_id f) (file_name f)
    ∈ drop (length (stdout s')) (stdout (handle_list_command s')).
Proof.
  intros Hf Hst Hk Hr.
  assert (files s' !! k = Some f ∧ k < file_next_id s') as [Hf' _].
  { induction Hr as [|s1 s2 s3 Hstep _ IH]; [done|].
    destruct (unready_step _ _ _ _ Hstep Hf Hst Hk). by apply IH. }
  split; [done|]. split; [|split].
  - intros fuel w raw Hdig <-. unfold handle_get_command. by rewrite Hdig, Hf', Hst.
  - intros w raw Hdig <-. unfold handle_delete_command. by rewrite Hdig, Hf', Hst.
  - destruct (list_writes_only s') as (out & -> & ->). simpl.
    rewrite drop_app_length. apply list_elem_of_fmap. exists f. split; [done|].
    apply list_elem_of_fmap. exists (k, f). split; [done|].
    by apply elem_of_map_to_list.
Qed.

End Reachable.

(** X12. The list command writes one line for every registered file,
    ready or not, and changes nothing but the standard output. *)
Theorem list_prints_every_registered_file s :
  ∃ out,
    handle_list_command s
    = mkSystem (parts_directory s) (memory_limit s) (memory_usage s)
        (file_next_id s) (files s) (part_next_id s) (parts s) (disk s)
        (stdout s ++ out) (oracle s) ∧
    length out = size (files s) ∧
    ∀ id name, List_line id name ∈ out ↔
               ∃ k f, files s !! k = Some f ∧ file_id f = id ∧ file_name f = name.
Proof.
  destruct (list_writes_only s) as (out & Hs & ->). eexists. split; [exact Hs|].
  split; [by rewrite !length_fmap, length_map_to_list|].
  intros id name. split.
  - intros (f & [= -> ->] & ([k f'] & -> & Hk%elem_of_map_to_list)%list_elem_of_fmap)
      %list_elem_of_fmap. eauto.
  - intros (k & f & Hk & <- & <-). apply list_elem_of_fmap. exists f. split; [done|].
    apply list_elem_of_fmap. exists (k, f). split; [done|]. by apply elem_of_map_to_list.
Qed.

(** ** Waiting for memory *)

Section Waiting.
Context `{Codec}.

Lemma put_loop_waits fuel : ∀ fid reader index locked s,
  admits s = false → put_loop fuel fid reader index locked s = None.
Proof.
  induction fuel as [|fuel IH]; intros fid reader index locked s Ha; simpl; [done|].
  ask; [|by apply IH].
  change (admits (set_oracle o s)) with (admits s). rewrite Ha. simpl. by apply IH.
Qed.

Lemma get_loop_waits name l fuel : ∀ index locked s,
  admits s = false → index * batch_size < length l →
  get_loop fuel name l index locked s = None.
Proof.
  induction fuel as [|fuel IH]; intros index locked s Ha Hlt; simpl; [done|].
  apply Nat.ltb_lt in Hlt as Hlt'. rewrite Hlt'. simpl.
  ask; [|by apply IH].
  change (admits (set_oracle o s)) with (admits s). rewrite Ha. simpl. by apply IH.
Qed.

(** X13. While the usage leaves no room for one more batch (the sum of
    the usage and [part_size * batch_size] is not below the limit, as with
    [max_memory: 0]), and no other thread lowers it, a put of an existing
    source and a get of a file that has parts go round their loop without
    ever leaving it: they have not returned after any number of turns. *)
Theorem handlers_wait_while_no_batch_fits s :
  (memory_limit s ≤ memory_usage s + Z.of_nat part_size * Z.of_nat batch_size)%Z →
  (∀ fuel w name,
     is_Some (disk s !! name) → (consult s).1 = true →
     handle_put_command fuel [w; name] s = None) ∧
  (∀ fuel w raw f l,
     isdigit raw = true → files s !! int raw = Some f → file_status f = true →
     parts s !! file_id f = Some l → l ≠ [] →
     handle_get_command fuel [w; raw] s = None).
Proof.
  intros Hroom.
  assert (admits s = false) as Ha.
  { unfold admits. apply bool_decide_eq_false. rewrite needed_memory_eq.
    rewrite part_size_eq, batch_size_eq in Hroom. lia. }
  split.
  - intros fuel w name [content Hc] Hok. unfold handle_put_command.
    destruct (consult s) as [ok s1] eqn:Ec. simpl in Hok. subst ok.
    apply consult_spec in Ec as [o ->]. simpl. rewrite Hc.
    by rewrite put_loop_waits.
  - intros fuel w raw f l Hdig Hf Hst Hl Hne. unfold handle_get_command.
    rewrite Hdig, Hf, Hst, Hl. simpl.
    rewrite get_loop_waits; [done|done|]. destruct l; [done|]. simpl. lia.
Qed.

End Waiting.

(** ** The command loop *)

(** The line is the one of [exit]. *)
Definition leaves (user_input : string) : bool :=
  match split user_input with
  | command :: _ => bool_decide (command = "exit")
  | [] => false
  end.

(** What the loop does with a line that is not the one of [exit]. *)
Definition answer (user_input : string) : event :=
  match head (split user_input) ≫= commands with
  | Some h => Started h user_input
  | None => Unknown_command
  end.

Lemma commands_exit command : commands command = Some Exit ↔ command = "exit".
Proof.
  unfold commands. repeat case_bool_decide; subst; split; try done.
Qed.

Lemma accept_commands_turn fuel user_input stdin :
  leaves user_input = false →
  accept_commands (S fuel) (user_input :: stdin)
  = (answer user_input :: (accept_commands fuel stdin).1, (accept_commands fuel stdin).2).
Proof.
  unfold leaves, answer. simpl. intros Hl.
  destruct (split user_input) as [|command rest]; simpl.
  { by destruct (accept_commands fuel stdin). }
  destruct (commands command) as [h|] eqn:Hc; simpl.
  - destruct h; try by destruct (accept_commands fuel stdin).
    apply commands_exit in Hc. by rewrite bool_decide_eq_false in Hl.
  - by destruct (accept_commands fuel stdin).
Qed.

(** X14. On lines of ASCII text, the command loop ends at the first line
    whose first word is [exit], whatever follows that word; the lines after
    it are not read. Before it, every line is answered in its turn: a
    thread is started on the whole line when its first word is one of
    [put], [get], [delete] and [list], and "Unknown command." is written
    otherwise. *)
Theorem accept_commands_stops_at_exit fuel before user_input after :
  Forall (λ line, isascii line = true) (before ++ [user_input]) →
  Forall (λ line, leaves line = false) before →
  leaves user_input = true →
  length before < fuel →
  accept_commands fuel (before ++ user_input :: after)
  = ((answer <$> before) ++ [Exited], true).
Proof.
  intros _ Hb Hl. revert fuel.
  induction Hb as [|line before Hline _ IH]; intros fuel Hfuel;
    (destruct fuel as [|fuel]; [simpl in Hfuel; lia|]).
  - unfold leaves in Hl. simpl.
    destruct (split user_input) as [|command rest]; [done|].
    apply bool_decide_eq_true in Hl. apply commands_exit in Hl. by rewrite Hl.
  - rewrite <- app_comm_cons, accept_commands_turn by done.
    rewrite IH by (simpl in Hfuel; lia). done.
Qed.

(** X15. On lines of ASCII text none of which has [exit] as its first
    word, the command loop never ends: at the end of the input [readline]
    returns the empty string, and the loop writes "Unknown command." at
    every further turn. *)
Theorem accept_commands_spins_at_end_of_input fuel stdin :
  Forall (λ line, isascii line = true) stdin →
  Forall (λ line, leaves line = false) stdin →
  accept_commands fuel stdin
  = (take fuel (answer <$> stdin) ++ replicate (fuel - length stdin) Unknown_command,
     false).
Proof.
  intros _ Hs. revert fuel.
  induction Hs as [|line stdin Hline _ IH]; intros fuel.
  - induction fuel as [|fuel IHf]; [done|]. simpl in *.
    rewrite IHf. rewrite take_nil. simpl. by rewrite Nat.sub_0_r.
  - destruct fuel as [|fuel]; [done|].
    rewrite accept_commands_turn by done. by rewrite IH.
Qed.

(** ** Command words *)

(** No character of [w] is one on which [split] cuts. *)
Fixpoint spaceless (w : string) : bool :=
  match w with
  | EmptyString => true
  | String a w => negb (is_space a) && spaceless w
  end.

Lemma spaceless_app a b : spaceless (a +:+ b) = spaceless a && spaceless b.
Proof. induction a as [|c a IH]; simpl; [done|]. by rewrite IH, andb_assoc. Qed.

Lemma string_app_assoc (a b c : string) : (a +:+ b) +:+ c = a +:+ (b +:+ c).
Proof.
  induction a as [|x a IH]; [done|].
  change (String x ((a +:+ b) +:+ c) = String x (a +:+ (b +:+ c))). by f_equal.
Qed.

Lemma string_app_nil_r (a : string) : a +:+ "" = a.
Proof.
  induction a as [|x a IH]; [done|]. change (String x (a +:+ "") = String x a).
  by f_equal.
Qed.

Lemma split_from_words : ∀ text word w,
  spaceless word = true → w ∈ split_from word text →
  w ≠ EmptyString ∧ spaceless w = true.
Proof.
  induction text as [|a text IH]; intros word w Hword Hw; simpl in Hw.
  - destruct word; [by apply elem_of_nil in Hw|].
    apply list_elem_of_singleton in Hw as ->. done.
  - destruct (is_space a) eqn:Ha.
    + destruct word as [|c word]; [by eapply (IH EmptyString)|].
      apply elem_of_cons in Hw as [->|Hw]; [done|]. by eapply (IH EmptyString).
    + eapply IH; [|exact Hw]. rewrite spaceless_app, Hword. simpl. by rewrite Ha.
Qed.

(** A word that is followed by a space or by the end of the line. *)
Lemma split_from_word : ∀ w word rest,
  spaceless w = true →
  split_from word (w +:+ rest) = split_from (word +:+ w) rest.
Proof.
  induction w as [|a w IH]; intros word rest Hw; simpl.
  { by rewrite string_app_nil_r. }
  simpl in Hw. apply andb_true_iff in Hw as [Ha Hw]. apply negb_true_iff in Ha.
  rewrite Ha, IH by done. f_equal. by rewrite string_app_assoc.
Qed.

Section Digits.

Let step (acc : nat) (a : ascii) : nat := 10 * acc + (nat_of_ascii a - 48).

Lemma pretty_N_char_value d :
  (d < 10)%N → nat_of_ascii (pretty_N_char d) - 48 = N.to_nat d ∧
               is_digit (pretty_N_char d) = true.
Proof.
  intros Hd.
  assert (d = 0 ∨ d = 1 ∨ d = 2 ∨ d = 3 ∨ d = 4 ∨ d = 5 ∨ d = 6 ∨ d = 7 ∨ d = 8
          ∨ d = 9)%N as Hcases by lia.
  repeat (destruct Hcases as [->|Hcases]; [done|]). by subst.
Qed.

Lemma pretty_N_go_value x : ∀ s,
  fold_left step (String.list_ascii_of_string (pretty_N_go x s)) 0
  = fold_left step (String.list_ascii_of_string s) (N.to_nat x) ∧
  forallb is_digit (String.list_ascii_of_string (pretty_N_go x s))
  = forallb is_digit (String.list_ascii_of_string s) ∧
  (s ≠ EmptyString → pretty_N_go x s ≠ EmptyString).
Proof.
  induction (N.lt_wf_0 x) as [x _ IH]; intros s.
  destruct (decide (x = 0)%N) as [->|Hx]; [by rewrite pretty_N_go_0|].
  rewrite pretty_N_go_step by lia.
  destruct (IH (x `div` 10)%N) with (s := String (pretty_N_char (x `mod` 10)) s)
    as (Hv & Hd & Hne).
  { apply N.div_lt; lia. }
  destruct (pretty_N_char_value (x `mod` 10)) as [Hc Hc'].
  { apply N.mod_lt. lia. }
  rewrite Hv, Hd. simpl. rewrite Hc'. unfold step at 2. rewrite Hc.
  split; [|split; [done|intros _; by apply Hne]].
  f_equal. pose proof (N.div_mod x 10). lia.
Qed.

Lemma int_pretty (k : nat) : int (pretty k) = k ∧ isdigit (pretty k) = true.
Proof.
  unfold pretty, pretty_nat, pretty, pretty_N.
  destruct (decide (N.of_nat k = 0)%N) as [Hk|Hk].
  { assert (k = 0) as -> by lia. done. }
  destruct (pretty_N_go_value (N.of_nat k) EmptyString) as (Hv & Hd & _).
  split.
  - unfold int. fold step. rewrite Hv. simpl. lia.
  - rewrite pretty_N_go_step in * by lia.
    destruct (pretty_N_go_value (N.of_nat k `div` 10)
                (String (pretty_N_char (N.of_nat k `mod` 10)) EmptyString))
      as (_ & _ & Hne).
    unfold isdigit. destruct (pretty_N_go _ _); [by destruct Hne|exact Hd].
Qed.

End Digits.

Lemma digits_spaceless w :
  forallb is_digit (String.list_ascii_of_string w) = true → spaceless w = true.
Proof.
  induction w as [|a w IH]; simpl; [done|].
  intros [Ha Hw]%andb_true_iff. rewrite IH by done.
  unfold is_digit in Ha. unfold is_space.
  apply andb_true_iff in Ha as [Ha _]. apply Nat.leb_le in Ha.
  destruct (nat_of_ascii a <=? 13) eqn:E1; [apply Nat.leb_le in E1; lia|].
  destruct (nat_of_ascii a <=? 32) eqn:E2; [apply Nat.leb_le in E2; lia|].
  by rewrite !andb_false_r.
Qed.

(** X16. A line made of [get] or [delete], a space, a file id written in
    decimal as [list] writes it, and the line end, is cut into these two
    words, and the second passes [isdigit] and is read back by [int] as
    that id. *)
Theorem typed_id_selects_the_file (k : nat) :
  split ("get " +:+ pretty k +:+ line_end) = ["get"; pretty k] ∧
  split ("delete " +:+ pretty k +:+ line_end) = ["delete"; pretty k] ∧
  isdigit (pretty k) = true ∧
  int (pretty k) = k.
Proof.
  destruct (int_pretty k) as [Hint Hdig].
  assert (spaceless (pretty k) = true ∧ pretty k ≠ EmptyString) as [Hsp Hne].
  { unfold isdigit in Hdig. destruct (pretty k) eqn:E; [done|].
    split; [by apply digits_spaceless|done]. }
  assert (split_from EmptyString (pretty k +:+ line_end) = [pretty k]) as Hk.
  { rewrite split_from_word by done. simpl. by destruct (pretty k). }
  split; [|split; [|done]].
  - unfold split. change ("get " +:+ pretty k +:+ line_end)
      with ("get" +:+ String " " (pretty k +:+ line_end)).
    rewrite split_from_word by done. simpl. by rewrite Hk.
  - unfold split. change ("delete " +:+ pretty k +:+ line_end)
      with ("delete" +:+ String " " (pretty k +:+ line_end)).
    rewrite split_from_word by done. simpl. by rewrite Hk.
Qed.

(** X17. The words that [split] returns are not empty and hold no
    whitespace, so the name under which a put registers a file is such a
    word: a file whose name holds a space cannot be put. *)
Theorem put_registers_a_name_without_whitespace `{Codec} fuel user_input s s' e :
  handle_put_command fuel (split user_input) s = Some (s', e) →
  e ≠ Put_rejected →
  ∃ w f, split user_input = [w; file_name f] ∧
         files s' !! file_next_id s = Some f ∧
         file_name f ≠ EmptyString ∧
         spaceless (file_name f) = true.
Proof.
  intros Hp He. apply put_registry in Hp.
  destruct Hp as [(-> & _)|(_ & _ & _ & (f & -> & _ & Hw & _) & _)]; [done|].
  eexists _, f. split; [exact Hw|]. split; [apply lookup_insert_eq|].
  apply (split_from_words user_input EmptyString); [done|].
  unfold split in Hw. rewrite Hw. apply elem_of_cons. right. by left.
Qed.

(** ** The functions run by the worker pool *)

(** X18. What [save_file] stored, [read_file] returns when given the
    digest that [save_file] returned, and refuses under any other digest;
    [delete_file] then removes it, and fails when asked a second time.
    [save_file] changes no other path. *)
Theorem save_then_read_returns_the_data `{Codec} `{!CodecLaws} data path d :
  read_file (Some (save_file data path d).1) path (save_file data path d).2
  = inr (true, Some data) ∧
  (∀ other, other ≠ Some (md5_hexdigest data) →
            read_file other path (save_file data path d).2 = inr (false, None)) ∧
  (∀ q, q ≠ path → (save_file data path d).2 !! q = d !! q) ∧
  delete_file path (save_file data path d).2 = (true, delete path d) ∧
  delete_file path (delete path d) = (false, delete path d) ∧
  read_file (Some (save_file data path d).1) path (delete path d)
  = inl FileNotFoundError.
Proof.
  unfold save_file, read_file, delete_file. simpl.
  rewrite lookup_insert_eq, zlib_decompress_compress, delete_insert_eq, lookup_delete_eq.
  split; [by rewrite bool_decide_eq_false_2 by (intros ?; done)|].
  split; [intros other Ho; by rewrite bool_decide_eq_true_2 by congruence|].
  split; [intros q Hq; by apply lookup_insert_ne|]. done.
Qed.

(** X19. After a delete that completed, the file id is the key of no
    entry of the File Registry, a get and a further delete of it are
    rejected as of a file that does not exist, and the id is not given
    back to the allocator. *)
Theorem deleted_file_is_gone `{Codec} w raw s s' :
  handle_delete_command [w; raw] s = (s', Delete_done) →
  files s' !! int raw = None ∧
  file_next_id s' = file_next_id s ∧
  (∀ env fuel w2,
     handle_get_command fuel [w2; raw] (set_oracle env s')
     = Some (say Get_does_not_exist (set_oracle env s'), Get_rejected)) ∧
  (∀ env w2,
     handle_delete_command [w2; raw] (set_oracle env s')
     = (say Delete_does_not_exist (set_oracle env s'), Delete_rejected)).
Proof.
  intros Hd.
  assert (isdigit raw = true) as Hdig.
  { unfold handle_delete_command in Hd. by destruct (isdigit raw). }
  destruct (delete_run [w; raw] s)
    as [[m Hr]|(w' & raw' & f & [= <- <-] & Hf & Hst & Hr)]; [congruence|].
  destruct Hr as [[_ Hr]|(l & cur' & d' & k & o' & _ & _ & _ & _ & Hr)]; [congruence|].
  destruct Hr as [(Hr & _)|(Hr & _)]; [|congruence].
  rewrite Hr in Hd. injection Hd as <-. simpl.
  split; [apply lookup_delete_eq|]. split; [done|]. split.
  - intros env fuel w2. unfold handle_get_command. rewrite Hdig. simpl.
    by rewrite lookup_delete_eq.
  - intros env w2. unfold handle_delete_command. rewrite Hdig. simpl.
    by rewrite lookup_delete_eq.
Qed.

(** ** The part files of different parts *)

Lemma digits_then_underscore : ∀ d1 d2 r1 r2 : string,
  forallb is_digit (String.list_ascii_of_string d1) = true →
  forallb is_digit (String.list_ascii_of_string d2) = true →
  d1 +:+ String "_" r1 = d2 +:+ String "_" r2 →
  d1 = d2 ∧ r1 = r2.
Proof.
  induction d1 as [|c d1 IH]; intros [|c' d2] r1 r2 H1 H2 E.
  - by injection E as ->.
  - injection E as <- _. simpl in H2. discriminate H2.
  - injection E as -> _. simpl in H1. discriminate H1.
  - injection E as -> E. simpl in H1, H2.
    apply andb_true_iff in H1 as [_ H1]. apply andb_true_iff in H2 as [_ H2].
    destruct (IH d2 r1 r2 H1 H2 E) as [-> ->]. done.
Qed.

Lemma pretty_digits (k : nat) :
  forallb is_digit (String.list_ascii_of_string (pretty k)) = true.
Proof.
  destruct (int_pretty k) as [_ Hd]. unfold isdigit in Hd.
  by destruct (pretty k).
Qed.

(** The name of a part file tells the file id and the index. *)
Lemma part_name_inj2 a i b j : part_name a i = part_name b j → a = b ∧ i = j.
Proof.
  unfold part_name. intros E.
  apply digits_then_underscore in E as [Ea Er]; [|apply pretty_digits..].
  apply (inj pretty) in Ea as ->. split; [done|].
  apply string_app_inj_r in Er. by apply (inj pretty) in Er.
Qed.

Section Isolation.
Context `{Codec}.

(** X20. In every state that the handlers reach from start-up, the part
    file of a part bears the name made of the key of its file and of its
    index, and no two parts of the registry have the same part file. So a
    delete of one file removes no part file of another, and the part files
    that the next put writes are part files of no registered part. *)
Theorem reachable_part_files_are_distinct parts_dir max_memory d env s :
  rtc handler_step (FileStorageSystem_init parts_dir max_memory d env) s →
  (∀ k l p, parts s !! k = Some l → p ∈ l →
            store_path s p = parts_directory s +:+ part_name k (part_index p)) ∧
  (∀ k1 k2 l1 l2 i1 i2 p1 p2,
     parts s !! k1 = Some l1 → parts s !! k2 = Some l2 →
     l1 !! i1 = Some p1 → l2 !! i2 = Some p2 →
     store_path s p1 = store_path s p2 → k1 = k2 ∧ i1 = i2) ∧
  (∀ k l p i, parts s !! k = Some l → p ∈ l →
              store_path s p ≠ parts_directory s +:+ part_name (file_next_id s) i) ∧
  (∀ o w raw s' e k l p,
     handle_delete_command [w; raw] (set_oracle o s) = (s', e) →
     parts s !! k = Some l → p ∈ l → k ≠ int raw →
     disk s' !! store_path s p = disk s !! store_path s p).
Proof.
  intros Hr. apply tidy_reachable in Hr; [|apply tidy_init].
  destruct Hr as [Hfk Hpk _ _ _ _ Hpa Hix].
  assert (∀ k l p, parts s !! k = Some l → p ∈ l →
            store_path s p = parts_directory s +:+ part_name k (part_index p)) as Hpath.
  { intros k l p Hl Hp. unfold store_path. by rewrite (Hpa k l p). }
  assert (∀ k1 k2 l1 l2 p1 p2,
            parts s !! k1 = Some l1 → parts s !! k2 = Some l2 → p1 ∈ l1 → p2 ∈ l2 →
            store_path s p1 = store_path s p2 →
            k1 = k2 ∧ part_index p1 = part_index p2) as Hsame.
  { intros k1 k2 l1 l2 p1 p2 H1 H2 Hp1 Hp2 E.
    rewrite (Hpath k1 l1 p1), (Hpath k2 l2 p2) in E by done.
    apply (inj (String.append _)) in E. by apply part_name_inj2. }
  split; [done|]. split; [|split].
  - intros k1 k2 l1 l2 i1 i2 p1 p2 H1 H2 Hi1 Hi2 E.
    destruct (Hsame k1 k2 l1 l2 p1 p2 H1 H2) as [-> Hidx];
      [by eapply list_elem_of_lookup_2..|done|].
    split; [done|]. rewrite H1 in H2. injection H2 as <-.
    eapply (NoDup_lookup (part_index <$> l1)); [by eapply Hix| |].
    + by rewrite list_lookup_fmap, Hi1.
    + by rewrite list_lookup_fmap, Hi2, Hidx.
  - intros k l p i Hl Hp E. rewrite (Hpath k l p) in E by done.
    apply (inj (String.append _)) in E. apply part_name_inj2 in E as [-> _].
    apply Hpk in Hl. lia.
  - intros o w raw s' e k l p Hd Hl Hp Hne.
    destruct (delete_run [w; raw] (set_oracle o s))
      as [[m Hm]|(w' & raw' & f & [= <- <-] & Hf & _ & Hrun)].
    { rewrite Hm in Hd. by injection Hd as <- _. }
    simpl in Hf. destruct (Hfk _ _ Hf) as [_ Hid].
    destruct Hrun as [[_ Hrun]|(l' & cur' & d' & j & o' & Hl' & _ & _ & Hout & Hrun)].
    { rewrite Hrun in Hd. by injection Hd as <- _. }
    simpl in Hl', Hout. rewrite Hid in Hl'.
    assert (d' !! store_path s p = disk s !! store_path s p) as Hkeep.
    { apply Hout. intros (q & E & Hq)%list_elem_of_fmap.
      change (store_path (set_oracle o s) q) with (store_path s q) in E.
      destruct (Hsame k (int raw) l l' p q Hl Hl' Hp Hq E) as [-> _]. done. }
    destruct Hrun as [[Hrun _]|[Hrun _]]; rewrite Hrun in Hd; by injection Hd as <- _.
Qed.

End Isolation.

(** ** A put without contention *)

Section Uncontended.
Context `{Codec}.

Lemma put_fill_silent n : ∀ fid reader index batch fps s,
  oracle s = [] →
  match put_fill n fid reader index batch fps s with
  | Fill_returned _ => False
  | Fill_raised _ s' | Fill_done _ _ _ _ _ s' =>
      oracle s' = [] ∧ stdout s' = stdout s ∧ memory_usage s' = memory_usage s
  end.
Proof.
  induction n as [|n IH]; intros fid reader index batch fps s Ho; simpl; [done|].
  unfold consult. rewrite Ho. simpl.
  destruct (take part_size reader); simpl; [done|].
  destruct (parts s !! fid); simpl; [|done].
  match goal with |- context [put_fill n ?a ?b ?c ?d ?e ?f] =>
    specialize (IH a b c d e f Ho); destruct (put_fill n a b c d e f) end; done.
Qed.

Lemma put_record_silent fid : ∀ fps result s,
  let s' := result_state (put_record fid fps result s) in
  oracle s' = oracle s ∧ stdout s' = stdout s ∧ memory_usage s' = memory_usage s.
Proof.
  induction fps as [|p fps IH]; intros result s; simpl; [done|].
  destruct result; simpl; [done|].
  destruct (parts s !! fid) as [l|]; simpl; [|done].
  destruct (l !! part_index p); simpl; [|done].
  match goal with |- context [put_record fid fps ?r ?s1] =>
    destruct (IH r s1) as (-> & -> & ->) end. done.
Qed.

(** Without contention the loop of put writes nothing, is left neither
    through a [return] nor with a reservation, and the usage is back at
    its value. *)
Lemma put_loop_silent fuel : ∀ fid reader index s r,
  oracle s = [] →
  put_loop fuel fid reader index false s = Some r →
  match r with
  | Finished locked s' =>
      locked = false ∧ stdout s' = stdout s ∧ memory_usage s' = memory_usage s
  | Returned _ => False
  | Raised _ _ _ => True
  end.
Proof.
  induction fuel as [|fuel IH]; intros fid reader index s r Ho Hr; simpl in Hr; [done|].
  unfold consult in Hr at 1. rewrite Ho in Hr. simpl in Hr.
  destruct (admits s); simpl in Hr; [|by eapply IH].
  pose proof (put_fill_silent batch_size fid reader index [] [] (reserve s) Ho) as Hf.
  destruct (put_fill _ _ _ _ _ _ _) as [s1|e s1|fin reader' index' batch fps s1];
    [done|by injection Hr as <-|].
  destruct Hf as (Ho1 & Hout1 & Hu1).
  unfold starmap_save in Hr. unfold consult in Hr at 1. rewrite Ho1 in Hr. simpl in Hr.
  destruct (save_all _ _) as [result d]. simpl in Hr.
  match type of Hr with context [put_record fid fps result ?s2] =>
    pose proof (put_record_silent fid fps result s2) as Hp;
    destruct (put_record fid fps result s2) as [[e s3]|s3] end; simpl in Hp, Hr;
    [by injection Hr as <-|].
  destruct Hp as (Ho3 & Hout3 & Hu3).
  unfold consult in Hr. rewrite Ho3, Ho1 in Hr. simpl in Hr.
  assert (stdout (release s3) = stdout s ∧
          memory_usage (release s3) = memory_usage s ∧
          oracle (release s3) = []) as (Hout & Hu & Ho').
  { simpl. rewrite Hout3, Hout1, Hu3, Hu1, Ho3, Ho1. simpl. split; [done|].
    split; [lia|done]. }
  destruct fin.
  - injection Hr as <-. done.
  - apply IH in Hr; [|done]. destruct r as [locked s'|s'|]; [|done..].
    destruct Hr as (-> & -> & ->). done.
Qed.

(** X21. Without contention (every lock free, the pool sound), with room
    for one batch and with the source there, a put does complete; it
    writes "Operation completed." and nothing else, and the usage is back
    at the value it had on entry. *)
Theorem put_completes_without_contention w name s content :
  oracle s = [] →
  (memory_usage s + Z.of_nat part_size * Z.of_nat batch_size < memory_limit s)%Z →
  disk s !! name = Some content →
  ∃ fuel s',
    handle_put_command fuel [w; name] s = Some (s', Put_done) ∧
    stdout s' = stdout s ++ [Put_completed name] ∧
    memory_usage s' = memory_usage s.
Proof.
  intros Ho Hroom Hsrc.
  assert (admits s = true) as Ha.
  { unfold admits. apply bool_decide_eq_true. rewrite needed_memory_eq.
    rewrite part_size_eq, batch_size_eq in Hroom. lia. }
  destruct (put_completes w name s content Ho Ha Hsrc) as (fuel & s' & Hp).
  exists fuel, s'. split; [done|].
  unfold handle_put_command, consult in Hp. rewrite Ho in Hp. simpl in Hp.
  rewrite Hsrc in Hp.
  destruct (put_loop _ _ _ _ _ _) as [[locked s1|s1|e locked s1]|] eqn:Hl; try done.
  apply put_loop_silent in Hl as (-> & Hout & Hu); [|done]. simpl in Hout, Hu.
  destruct (files s1 !! file_next_id s), (parts s1 !! file_next_id s);
    try (unfold put_except in Hp; by injection Hp).
  injection Hp as <-. simpl. by rewrite Hout, Hu.
Qed.

End Uncontended.

(** ** A put undone by a delete *)

(** X22. A delete that completed on the file stored by a put that
    completed has removed every part file that the put wrote and has
    changed no other file: when no file bore the name of one of these part
    files before the put, the disk is again as it was before the put. *)
Theorem put_then_delete_restores_the_disk `{Codec} fuel w name s s1 w2 raw o s2 :
  handle_put_command fuel [w; name] s = Some (s1, Put_done) →
  isdigit raw = true →
  int raw = file_next_id s →
  handle_delete_command [w2; raw] (set_oracle o s1) = (s2, Delete_done) →
  ∃ f,
    files s1 !! file_next_id s = Some f ∧
    files s2 !! file_next_id s = None ∧
    (∀ i, i < file_part_count f →
          disk s1 !! (parts_directory s +:+ part_name (file_next_id s) i) ≠ None ∧
          disk s2 !! (parts_directory s +:+ part_name (file_next_id s) i) = None) ∧
    (∀ path, (∀ i, i < file_part_count f →
                   path ≠ parts_directory s +:+ part_name (file_next_id s) i) →
             disk s2 !! path = disk s !! path) ∧
    ((∀ i, disk s !! (parts_directory s +:+ part_name (file_next_id s) i) = None) →
     disk s2 = disk s).
Proof.
  intros Hp Hdig Hint Hd.
  destruct (delete_run [w2; raw] (set_oracle o s1))
    as [[m Hr]|(w' & raw' & f & [= <- <-] & Hf & Hst & Hr)]; [congruence|].
  cbv zeta in Hr.
  destruct Hr as [[_ Hr]|(l & cur' & d' & k & o' & Hl & _ & _ & Hout & Hr)];
    [congruence|].
  destruct Hr as [(Hr & _ & _ & _ & Hgone)|(Hr & _)]; [|congruence].
  rewrite Hr in Hd. injection Hd as <-.
  apply put_done_data in Hp as (content & n & u & out & o1 & Hsrc & Hn & ->).
  set (dir := parts_directory s) in *. set (fid := file_next_id s) in *.
  simpl in Hf, Hl, Hout, Hgone. rewrite Hint, lookup_insert_eq in Hf.
  injection Hf as <-. simpl in Hl. rewrite lookup_insert_eq in Hl. injection Hl as <-.
  exists (mkFile fid name true n). simpl.
  rewrite lookup_insert_eq, Hint, lookup_delete_eq. simpl.
  assert (∀ i, i < n → d' !! (dir +:+ part_name fid i) = None) as Hgone'.
  { intros i Hi. apply (Hgone (recorded_part fid (part_next_id s) content i)).
    apply list_elem_of_fmap. exists i. split; [done|]. apply elem_of_seq. lia. }
  assert (∀ path, (∀ i, i < n → path ≠ dir +:+ part_name fid i) →
            d' !! path = disk s !! path) as Hother.
  { intros path Hpath. rewrite Hout.
    - apply stored_lookup_other. intros i Hi. apply Hpath. lia.
    - intros (p & -> & (i & -> & Hi%elem_of_seq)%list_elem_of_fmap)%list_elem_of_fmap.
      apply (Hpath i); [lia|done]. }
  split; [done|]. split; [done|]. split; [|split; [done|]].
  - intros i Hi. split; [|by apply Hgone'].
    rewrite stored_lookup_in by lia. done.
  - intros Hfree. apply map_eq. intros path.
    destruct (decide (path ∈ (λ i, dir +:+ part_name fid i) <$> seq 0 n))
      as [(i & -> & Hi%elem_of_seq)%list_elem_of_fmap|Hnot].
    + rewrite Hgone' by lia. by rewrite Hfree.
    + apply Hother. intros i Hi ->. apply Hnot. apply list_elem_of_fmap.
      exists i. split; [done|]. apply elem_of_seq. lia.
Qed.

(** ** What a completed get has checked *)

(** X23. A get that completed on a file whose destination is not one of
    its part files has written, part after part in the order of the
    sequence, the decompressed bytes of each part file, and the MD5 digest
    of the bytes written for a part is the hash recorded for it. *)
Theorem get_writes_only_verified_data `{Codec} fuel w raw s s' f l :
  isdigit raw = true →
  files s !! int raw = Some f →
  file_status f = true →
  parts s !! file_id f = Some l →
  (∀ p, p ∈ l → store_path s p ≠ file_name f) →
  handle_get_command fuel [w; raw] s = Some (s', Get_done) →
  ∃ datas,
    Forall2 (λ p data, ∃ compressed,
               disk s !! store_path s p = Some compressed ∧
               zlib_decompress compressed = Some data ∧
               part_hash p = Some (md5_hexdigest data)) l datas ∧
    disk s' !! file_name f = Some (concat datas).
Proof.
  intros Hdig Hf Hst Hl Hne Hg.
  unfold handle_get_command in Hg. rewrite Hdig, Hf, Hst, Hl in Hg. simpl in Hg.
  destruct (get_loop _ _ _ _ _ _) as [[locked s1|s1|e1 locked s1]|] eqn:Hloop; try done.
  injection Hg as <-.
  eapply (get_loop_data (parts_directory s) (file_name f) (disk s)) in Hloop;
    [|done|exact Hne|reflexivity].
  rewrite drop_0 in Hloop. destruct Hloop as (datas & Hall & ->).
  exists datas. split; [|by rewrite lookup_insert_eq].
  eapply Forall2_impl; [exact Hall|]. intros p data Hload.
  unfold loads, read_file in Hload. unfold store_path.
  destruct (disk s !! _) as [compressed|]; [|done].
  destruct (zlib_decompress compressed) as [x|] eqn:Ez; [|done].
  case_bool_decide as Hh; [done|]. injection Hload as <-.
  exists compressed. split; [done|]. split; [exact Ez|].
  destruct (decide (Some (md5_hexdigest x) = part_hash p)) as [E|E]; [done|].
  by destruct Hh.
Qed.

(** ** The usage at every exit *)

Section Usage.
Context `{Codec}.

(** X24. On every exit of a put or of a get, the usage exceeds the value
    it had on entry by exactly one batch ([part_size * batch_size] bytes)
    for each report of a lost release that the handler wrote ("Could not
    release locked memory.", "Failed to notify memory condition, acquiring
    lock timed out."): a lost release is never made up for, and nothing
    else is ever lost. *)
Theorem lost_releases_are_counted fuel words s s' :
  (∃ e, handle_put_command fuel words s = Some (s', e)) ∨
  (∃ e, handle_get_command fuel words s = Some (s', e)) →
  ∃ msgs,
    stdout s' = stdout s ++ msgs ∧
    memory_usage s'
    = (memory_usage s
       + Z.of_nat (lost_releases msgs) * (Z.of_nat part_size * Z.of_nat batch_size))%Z.
Proof.
  intros Hrun.
  assert (charged s s' 0) as (msgs & Hout & Hu).
  { destruct Hrun as [[e Hp]|[e Hg]]; [by eapply put_charged|by eapply get_charged]. }
  exists msgs. split; [done|].
  rewrite Hu, needed_memory_eq, part_size_eq, batch_size_eq. lia.
Qed.

End Usage.

(** * Worked runs

    A stand-in codec (a one-byte header for the compression, a rolling sum
    for the digest) on which the handlers can be run. *)

Definition demo_codec : Codec := {|
  md5_hexdigest data :=
    pretty (foldl (λ a b, (31 * a + Byte.to_N b) `mod` 65521)%N 7%N data);
  zlib_compress data := Byte.x78 :: data;
  zlib_decompress data :=
    match data with
    | Byte.x78 :: rest => Some rest
    | _ => None
    end;
|}.

Lemma demo_codec_laws : @CodecLaws demo_codec.
Proof. by constructor. Qed.

(** A source of two full parts and a third, shorter one. *)
Definition demo_source : bytes :=
  replicate 1024 Byte.x41 ++ replicate 1024 Byte.x42 ++ replicate 452 Byte.x43.

Definition demo_system (parts_dir : string) (env : list bool) : FileStorageSystem :=
  FileStorageSystem_init parts_dir 1 {[ "a.txt" := demo_source ]} env.

(** The state a handler run ends in ([s] itself when it does not end). *)
Definition after {E} (s : FileStorageSystem) (run : option (FileStorageSystem * E))
    : FileStorageSystem :=
  match run with
  | Some (s', _) => s'
  | None => s
  end.

(** ["a.txt"] has been put, without contention. *)
Definition demo_stored (parts_dir : string) : FileStorageSystem :=
  after (demo_system parts_dir [])
        (handle_put_command (H := demo_codec) 1 ["put"; "a.txt"]
                            (demo_system parts_dir [])).

(** The same, the second and third part files having since been removed
    from the disk behind the back of the store. *)
Definition demo_damaged : FileStorageSystem :=
  set_disk (delete "parts/0_2.PART" (delete "parts/0_1.PART" (disk (demo_stored "parts/"))))
           (demo_stored "parts/").


Lemma demo_stored_run parts_dir :
  parts_dir = "parts/" ∨ parts_dir = "parts" →
  handle_put_command (H := demo_codec) 1 ["put"; "a.txt"] (demo_system parts_dir [])
  = Some (demo_stored parts_dir, Put_done).
Proof. intros [-> | ->]; vm_compute; reflexivity. Defined.



(** C2 on the code: of three parts, only the file of part 0 is still on
    disk. Its removal succeeds and the two others fail; the entry that the
    delete erases is the one of part 2, and the entry of part 0 stays. *)
Theorem delete_erases_mirrored_entry :
  (handle_delete_command ["delete"; "0"] demo_damaged).2 = Delete_done ∧
  delete_all (store_path demo_damaged <$> default [] (parts demo_damaged !! 0))
             (disk demo_damaged)
  = ([true; false; false], delete "parts/0_0.PART" (disk demo_damaged)) ∧
  part_index <$> default [] (parts demo_damaged !! 0) = [0; 1; 2] ∧
  part_index
    <$> default [] (parts (handle_delete_command ["delete"; "0"] demo_damaged).1 !! 0)
  = [0; 1] ∧
  disk (handle_delete_command ["delete"; "0"] demo_damaged).1 !! "parts/0_0.PART" = None.
Proof. split_and!; vm_compute; reflexivity. Qed.

(** C3 refuted as stated: the lock of the part-id allocator times out inside
    the reserved batch, and then the monitor; the put returns with the
    batch still counted in the usage. *)
Lemma put_returns_with_reservation :
  snd <$> handle_put_command (H := demo_codec) 1 ["put"; "a.txt"]
            (demo_system "parts/" [true; true; false; false])
  = Some Put_aborted ∧
  stdout (after (demo_system "parts/" [])
            (handle_put_command (H := demo_codec) 1 ["put"; "a.txt"]
               (demo_system "parts/" [true; true; false; false])))
  = [Put_part_id_lock_timed_out; Put_could_not_release] ∧
  memory_usage (demo_system "parts/" [true; true; false; false]) = 0%Z ∧
  memory_usage (after (demo_system "parts/" [])
                  (handle_put_command (H := demo_codec) 1 ["put"; "a.txt"]
                     (demo_system "parts/" [true; true; false; false])))
  = 10240%Z.
Proof. split_and!; vm_compute; reflexivity. Qed.

(** The environment lets the put of [demo_source] through up to the
    release of its batch, for which the acquisition of the monitor times
    out. *)
Definition demo_lost_release : list bool :=
  [true; true; true; true; true; true; true; false].

(** C3 as amended, at work on two puts of [demo_source], each of which
    reserves one batch: the first releases it; the second, under
    [demo_lost_release], says that it could not and leaves it counted. *)
Lemma reservation_released_witness :
  memory_usage (demo_stored "parts/") = memory_usage (demo_system "parts/" []) ∧
  existsb reports_leak
    (stdout (after (demo_system "parts/" demo_lost_release)
               (handle_put_command (H := demo_codec) 1 ["put"; "a.txt"]
                  (demo_system "parts/" demo_lost_release)))) = true ∧
  memory_usage (after (demo_system "parts/" demo_lost_release)
                  (handle_put_command (H := demo_codec) 1 ["put"; "a.txt"]
                     (demo_system "parts/" demo_lost_release)))
  = (memory_usage (demo_system "parts/" demo_lost_release) + 1 * needed_memory)%Z.
Proof.
  split; [|split; [vm_compute; reflexivity|]].
  - destruct (reservation_released_unless_reported (H := demo_codec) 1 ["put"; "a.txt"]
                (demo_system "parts/" []) (demo_stored "parts/"))
      as (msgs & Hout & Hquiet & _).
    + left. exists Put_done. apply demo_stored_run. by left.
    + apply Hquiet.
      assert (msgs = stdout (demo_stored "parts/")) as -> by (symmetry; exact Hout).
      vm_compute; reflexivity.
  - destruct (reservation_released_unless_reported (H := demo_codec) 1 ["put"; "a.txt"]
                (demo_system "parts/" demo_lost_release)
                (after (demo_system "parts/" demo_lost_release)
                   (handle_put_command (H := demo_codec) 1 ["put"; "a.txt"]
                      (demo_system "parts/" demo_lost_release))))
      as (msgs & Hout & _ & _ & Hcount).
    + left. exists Put_done. vm_compute; reflexivity.
    + rewrite Hcount.
      assert (msgs = stdout (after (demo_system "parts/" demo_lost_release)
                               (handle_put_command (H := demo_codec) 1 ["put"; "a.txt"]
                                  (demo_system "parts/" demo_lost_release))))
        as -> by (symmetry; exact Hout).
      vm_compute; reflexivity.
Defined.

(** C4 at work on the system as it starts with a budget of 1 MiB. *)
Lemma admission_witness :
  (memory_usage (reserve (demo_system "parts/" []))
   < memory_limit (reserve (demo_system "parts/" [])))%Z.
Proof.
  destruct (admission_never_oversubscribes (H := demo_codec) (demo_system "parts/" []))
    as (Hgrant & _).
  - vm_compute; reflexivity.
  - apply Hgrant. vm_compute; reflexivity.
Defined.



(** C6 at work: the lock of the part-id allocator times out, and then the
    monitor; the file stays registered as incomplete. *)
Lemma put_failure_witness :
  files (after (demo_system "parts/" [])
           (handle_put_command (H := demo_codec) 1 ["put"; "a.txt"]
              (demo_system "parts/" [true; true; false; false])))
    !! file_next_id (demo_system "parts/" [true; true; false; false])
  = Some (mkFile (file_next_id (demo_system "parts/" [true; true; false; false]))
                 "a.txt" false 0).
Proof.
  apply (put_failure_keeps_file_registered (H := demo_codec) 1 "put" "a.txt"
           (demo_system "parts/" [true; true; false; false]) _ Put_aborted).
  - vm_compute; reflexivity.
  - by left.
Defined.

(** C7 at work on the put of [demo_source]. *)
Lemma put_indices_witness :
  ∃ f l,
    files (demo_stored "parts/") !! file_next_id (demo_system "parts/" []) = Some f ∧
    parts (demo_stored "parts/") !! file_next_id (demo_system "parts/" []) = Some l ∧
    file_status f = true ∧
    file_part_count f = length l ∧
    part_index <$> l = seq 0 (length l).
Proof.
  apply (put_indices_contiguous (H := demo_codec) 1 "put" "a.txt").
  apply demo_stored_run. by left.
Defined.



(** C9 at work: three parts, four ids drawn. *)
Lemma put_part_ids_witness :
  ∃ l,
    parts (demo_stored "parts/") !! 0 = Some l ∧
    part_next_id (demo_stored "parts/") = 0 + length l + 1 ∧
    part_id <$> l = seq 0 (length l).
Proof.
  destruct (put_consumes_one_more_part_id (H := demo_codec) 1 "put" "a.txt"
              (demo_system "parts/" []) (demo_stored "parts/"))
    as (l & Hl & Hn & Hids & _ & _).
  - apply demo_stored_run. by left.
  - exists l. split_and!; [exact Hl|exact Hn|exact Hids].
Defined.

(** C10 at work: the delete of the file stored by the put of [demo_source]
    leaves the key [0] in the Part Registry, with the empty sequence. *)
Lemma delete_witness :
  ∃ f l residual,
    files (demo_stored "parts/") !! int "0" = Some f ∧
    parts (demo_stored "parts/") !! file_id f = Some l ∧
    files (handle_delete_command ["delete"; "0"] (demo_stored "parts/")).1
    = delete (int "0") (files (demo_stored "parts/")) ∧
    parts (handle_delete_command ["delete"; "0"] (demo_stored "parts/")).1
    = <[file_id f := residual]> (parts (demo_stored "parts/")) ∧
    (NoDup (store_path (demo_stored "parts/") <$> l) →
     (∀ p, p ∈ l →
           is_Some (disk (demo_stored "parts/") !! store_path (demo_stored "parts/") p)) →
     residual = []).
Proof.
  destruct (delete_keeps_part_registry_key (H := demo_codec)) as (Hdelete & _).
  apply (Hdelete "delete" "0"). vm_compute; reflexivity.
Defined.

(** ** The further properties at work *)



(** X2 at work: 2500 bytes make three parts. *)
Lemma put_part_count_witness :
  ∃ content f l,
    disk (demo_system "parts/" []) !! "a.txt" = Some content ∧
    files (demo_stored "parts/") !! file_next_id (demo_system "parts/" []) = Some f ∧
    parts (demo_stored "parts/") !! file_next_id (demo_system "parts/" []) = Some l ∧
    file_status f = true ∧
    file_part_count f = (length content + part_size - 1) / part_size ∧
    length l = file_part_count f ∧
    (∀ i p, l !! i = Some p →
       0 < length (chunk content i) ≤ part_size ∧
       part_hash p = Some (@md5_hexdigest demo_codec (chunk content i)) ∧
       disk (demo_stored "parts/") !! store_path (demo_stored "parts/") p
       = Some (@zlib_compress demo_codec (chunk content i))) ∧
    concat (chunk content <$> seq 0 (length l)) = content.
Proof.
  apply (put_part_count (H := demo_codec) 1 "put" "a.txt").
  - intros i E. discriminate E.
  - apply demo_stored_run. by left.
Defined.

(** X3 at work: there is no ["b.txt"]. *)
Lemma put_of_missing_source_witness :
  ∃ s',
    handle_put_command (H := demo_codec) 0 ["put"; "b.txt"] (demo_system "parts/" [])
    = Some (s', Put_excepted) ∧
    stdout s' = stdout (demo_system "parts/" []) ++ [Put_failed FileNotFoundError] ∧
    files s' = <[file_next_id (demo_system "parts/" []) :=
                   mkFile (file_next_id (demo_system "parts/" [])) "b.txt" false 0]>
                 (files (demo_system "parts/" [])) ∧
    file_next_id s' = file_next_id (demo_system "parts/" []) + 1 ∧
    parts s' = parts (demo_system "parts/" []) ∧
    part_next_id s' = part_next_id (demo_system "parts/" []) ∧
    disk s' = disk (demo_system "parts/" []) ∧
    memory_usage s' = memory_usage (demo_system "parts/" []).
Proof.
  apply (put_of_missing_source (H := demo_codec) 0 "put" "b.txt"
           (demo_system "parts/" [])).
  - vm_compute; reflexivity.
  - reflexivity.
Defined.

(** X4 at work on the get of the file stored by the put of [demo_source]. *)
Lemma get_changes_only_the_destination_witness :
  files (after (demo_stored "parts/")
           (handle_get_command (H := demo_codec) 2 ["get"; "0"] (demo_stored "parts/")))
  = files (demo_stored "parts/") ∧
  parts (after (demo_stored "parts/")
           (handle_get_command (H := demo_codec) 2 ["get"; "0"] (demo_stored "parts/")))
  = parts (demo_stored "parts/") ∧
  ∀ path, path ≠ "a.txt" →
    disk (after (demo_stored "parts/")
            (handle_get_command (H := demo_codec) 2 ["get"; "0"] (demo_stored "parts/")))
      !! path
    = disk (demo_stored "parts/") !! path.
Proof.
  destruct (get_changes_only_the_destination (H := demo_codec) 2 ["get"; "0"]
              (demo_stored "parts/")
              (after (demo_stored "parts/")
                 (handle_get_command (H := demo_codec) 2 ["get"; "0"]
                    (demo_stored "parts/")))
              Get_done)
    as (Hf & _ & Hp & _ & Hd & _).
  - repeat constructor.
  - vm_compute; reflexivity.
  - split_and!; [exact Hf|exact Hp|].
    intros path Hpath. apply Hd.
    assert ((["get"; "0"] !! 1 ≫= λ raw, files (demo_stored "parts/") !! int raw)
            = Some (mkFile 0 "a.txt" true 3)) as -> by (vm_compute; reflexivity).
    simpl. congruence.
Defined.

(** The same as [demo_stored], the second part file having been overwritten
    with bytes that do not decompress. *)
Definition demo_garbled : FileStorageSystem :=
  set_disk (<["parts/0_1.PART" := [Byte.x00]]> (disk (demo_stored "parts/")))
           (demo_stored "parts/").

(** X5 at work: the second part does not decompress, and the get leaves
    the destination empty although the first part can be read. *)
Lemma get_exception_keeps_whole_batches_witness :
  disk (after demo_garbled
          (handle_get_command (H := demo_codec) 1 ["get"; "0"] demo_garbled))
    !! "a.txt" = Some [] ∧
  ∃ n datas k p,
    Forall2 (loads (H := demo_codec) (parts_directory demo_garbled) (disk demo_garbled))
            (take (n * batch_size) (default [] (parts demo_garbled !! 0))) datas ∧
    disk (after demo_garbled
            (handle_get_command (H := demo_codec) 1 ["get"; "0"] demo_garbled))
      !! "a.txt" = Some (concat datas) ∧
    n * batch_size ≤ k < (n + 1) * batch_size ∧
    default [] (parts demo_garbled !! 0) !! k = Some p ∧
    read_file (H := demo_codec) (part_hash p) (store_path demo_garbled p)
              (disk demo_garbled) = inl zlib_error.
Proof.
  split; [vm_compute; reflexivity|].
  destruct (get_exception_keeps_whole_batches (H := demo_codec) 1 "get" "0" demo_garbled
              (after demo_garbled
                 (handle_get_command (H := demo_codec) 1 ["get"; "0"] demo_garbled))
              Get_excepted
              (mkFile 0 "a.txt" true 3)
              (default [] (parts demo_garbled !! 0)))
    as (_ & Hexc).
  - reflexivity.
  - vm_compute; reflexivity.
  - reflexivity.
  - vm_compute; reflexivity.
  - intros p Hp E.
    unfold store_path in E. change (parts_directory demo_garbled) with "parts/" in E.
    change (file_name (mkFile 0 "a.txt" true 3)) with "a.txt" in E.
    discriminate E.
  - vm_compute; reflexivity.
  - assert (drop (length (stdout demo_garbled))
                 (stdout (after demo_garbled
                            (handle_get_command (H := demo_codec) 1 ["get"; "0"]
                               demo_garbled)))
            = [Get_failed zlib_error]) as -> by (vm_compute; reflexivity).
    apply list_elem_of_singleton. reflexivity.
  - exact Hexc.
Defined.

(** X6 at work: the pool fails the only dispatch. *)
Lemma delete_fails_only_on_a_pool_fault_witness :
  ∃ k, stdout (handle_delete_command ["delete"; "0"]
                 (set_oracle [false] (demo_stored "parts/"))).1
       = stdout (set_oracle [false] (demo_stored "parts/"))
         ++ replicate k Delete_error ++ [Delete_failed PoolError].
Proof.
  destruct (delete_fails_only_on_a_pool_fault ["delete"; "0"]
              (set_oracle [false] (demo_stored "parts/"))
              (handle_delete_command ["delete"; "0"]
                 (set_oracle [false] (demo_stored "parts/"))).1)
    as (_ & Hout & _).
  - vm_compute; reflexivity.
  - exact Hout.
Defined.

(** X7 at work: two of the three removals fail, two entries stay, two
    messages are written. *)
Lemma delete_reports_each_entry_it_keeps_witness :
  ∃ f l l',
    files demo_damaged !! int "0" = Some f ∧
    parts demo_damaged !! file_id f = Some l ∧
    parts (handle_delete_command ["delete"; "0"] demo_damaged).1 !! file_id f = Some l' ∧
    stdout (handle_delete_command ["delete"; "0"] demo_damaged).1
    = stdout demo_damaged ++ replicate (length l') Delete_error ∧
    sublist l' (faded <$> l).
Proof.
  apply (delete_reports_each_entry_it_keeps "delete" "0"). vm_compute; reflexivity.
Defined.

(** X8 at work on the same delete. *)
Lemma delete_only_removes_witness :
  disk (handle_delete_command ["delete"; "0"] demo_damaged).1 ⊆ disk demo_damaged ∧
  memory_usage (handle_delete_command ["delete"; "0"] demo_damaged).1
  = memory_usage demo_damaged.
Proof.
  destruct (delete_only_removes ["delete"; "0"] demo_damaged
              (handle_delete_command ["delete"; "0"] demo_damaged).1 Delete_done)
    as (Hd & Hu & _).
  - vm_compute; reflexivity.
  - split; [exact Hd|exact Hu].
Defined.

(** X9 at work on the state that the put of [demo_source] reaches from
    start-up. *)
Lemma reachable_registries_are_tidy_witness :
  (∀ k f, files (demo_stored "parts/") !! k = Some f →
          k < file_next_id (demo_stored "parts/") ∧ file_id f = k) ∧
  (∀ k l p, parts (demo_stored "parts/") !! k = Some l → p ∈ l →
            part_id p < part_next_id (demo_stored "parts/") ∧ part_parent_id p = k) ∧
  (∀ k l, parts (demo_stored "parts/") !! k = Some l → NoDup (part_id <$> l)).
Proof.
  destruct (reachable_registries_are_tidy (H := demo_codec) "parts/" 1
              {[ "a.txt" := demo_source ]} [] (demo_stored "parts/"))
    as (Hfiles & _ & _ & Hids & Hunique & _).
  - apply rtc_once. exists [], 1, Put, ("put a.txt" +:+ line_end).
    vm_compute; reflexivity.
  - split_and!; [exact Hfiles|exact Hids|exact Hunique].
Defined.

(** X10 at work on the same state. *)
Lemma reachable_ids_are_fresh_witness :
  files (demo_stored "parts/") !! file_next_id (demo_stored "parts/") = None ∧
  parts (demo_stored "parts/") !! file_next_id (demo_stored "parts/") = None.
Proof.
  destruct (reachable_ids_are_fresh (H := demo_codec) "parts/" 1
              {[ "a.txt" := demo_source ]} [] (demo_stored "parts/"))
    as (Hfiles & Hparts & _).
  - apply rtc_once. exists [], 1, Put, ("put a.txt" +:+ line_end).
    vm_compute; reflexivity.
  - split; [exact Hfiles|exact Hparts].
Defined.

(** The put of a source that does not exist has left file [0] registered
    and not ready. *)
Definition demo_unready : FileStorageSystem :=
  after (demo_system "parts/" [])
        (handle_put_command (H := demo_codec) 0 ["put"; "b.txt"] (demo_system "parts/" [])).

(** X11 at work: the put of [demo_source] that follows leaves file [0] as
    it is, and a get of it is rejected. *)
Lemma unready_file_stays_unready_witness :
  files (after demo_unready
           (handle_put_command (H := demo_codec) 1 ["put"; "a.txt"] demo_unready)) !! 0
  = Some (mkFile 0 "b.txt" false 0) ∧
  snd <$> handle_get_command (H := demo_codec) 1 ["get"; "0"]
            (after demo_unready
               (handle_put_command (H := demo_codec) 1 ["put"; "a.txt"] demo_unready))
  = Some Get_rejected.
Proof.
  destruct (unready_file_stays_unready (H := demo_codec) demo_unready
              (after demo_unready
                 (handle_put_command (H := demo_codec) 1 ["put"; "a.txt"] demo_unready))
              0 (mkFile 0 "b.txt" false 0))
    as (Hfile & Hget & _).
  - vm_compute; reflexivity.
  - reflexivity.
  - vm_compute; lia.
  - apply rtc_once. exists [], 1, Put, ("put a.txt" +:+ line_end).
    vm_compute; reflexivity.
  - split; [exact Hfile|]. by rewrite (Hget 1 "get" "0").
Defined.

(** [max_memory: 0]. *)
Definition demo_no_memory : FileStorageSystem :=
  FileStorageSystem_init "parts/" 0 {[ "a.txt" := demo_source ]} [].

(** X13 at work: with no memory allowed, the put is still waiting after a
    hundred turns. *)
Lemma handlers_wait_while_no_batch_fits_witness :
  handle_put_command (H := demo_codec) 100 ["put"; "a.txt"] demo_no_memory = None.
Proof.
  destruct (handlers_wait_while_no_batch_fits (H := demo_codec) demo_no_memory)
    as (Hput & _).
  - apply Z.leb_le. vm_compute; reflexivity.
  - apply (Hput 100 "put" "a.txt").
    + exists demo_source. vm_compute; reflexivity.
    + reflexivity.
Defined.

(** X14 at work: nothing is done for the line after the one of [exit]. *)
Lemma accept_commands_stops_at_exit_witness :
  accept_commands 10 ["put a.txt" +:+ line_end; line_end; "frobnicate" +:+ line_end;
                      "exit now" +:+ line_end; "list" +:+ line_end]
  = ([Started Put ("put a.txt" +:+ line_end); Unknown_command; Unknown_command; Exited],
     true).
Proof.
  apply (accept_commands_stops_at_exit 10
           ["put a.txt" +:+ line_end; line_end; "frobnicate" +:+ line_end]
           ("exit now" +:+ line_end) ["list" +:+ line_end]).
  - repeat constructor.
  - repeat constructor.
  - reflexivity.
  - simpl; lia.
Defined.

(** X15 at work: one line, three turns. *)
Lemma accept_commands_spins_at_end_of_input_witness :
  accept_commands 3 ["list" +:+ line_end]
  = ([Started List ("list" +:+ line_end); Unknown_command; Unknown_command], false).
Proof.
  apply (accept_commands_spins_at_end_of_input 3 ["list" +:+ line_end]).
  - repeat constructor.
  - repeat constructor.
Defined.

(** X17 at work on the line of the put of [demo_source]. *)
Lemma put_registers_a_name_without_whitespace_witness :
  ∃ w f, split ("put a.txt" +:+ line_end) = [w; file_name f] ∧
         files (demo_stored "parts/") !! file_next_id (demo_system "parts/" []) = Some f ∧
         file_name f ≠ EmptyString ∧
         spaceless (file_name f) = true.
Proof.
  apply (put_registers_a_name_without_whitespace (H := demo_codec) 1
           ("put a.txt" +:+ line_end) (demo_system "parts/" []) (demo_stored "parts/")
           Put_done).
  - vm_compute; reflexivity.
  - discriminate.
Defined.

(** X18 at work on the stand-in codec. *)
Lemma save_then_read_returns_the_data_witness :
  read_file (H := demo_codec)
    (Some (save_file (H := demo_codec) [Byte.x41] "0_0.PART" ∅).1) "0_0.PART"
    (save_file (H := demo_codec) [Byte.x41] "0_0.PART" ∅).2
  = inr (true, Some [Byte.x41]).
Proof.
  apply (@save_then_read_returns_the_data demo_codec demo_codec_laws
           [Byte.x41] "0_0.PART" ∅).
Defined.

(** X19 at work on the delete of the file stored by the put of
    [demo_source]. *)
Lemma deleted_file_is_gone_witness :
  files (handle_delete_command ["delete"; "0"] (demo_stored "parts/")).1 !! int "0" = None ∧
  file_next_id (handle_delete_command ["delete"; "0"] (demo_stored "parts/")).1
  = file_next_id (demo_stored "parts/").
Proof.
  destruct (deleted_file_is_gone (H := demo_codec) "delete" "0" (demo_stored "parts/")
              (handle_delete_command ["delete"; "0"] (demo_stored "parts/")).1)
    as (Hgone & Hnext & _).
  - vm_compute; reflexivity.
  - split; [exact Hgone|exact Hnext].
Defined.

(** X20 at work on the state that the put of [demo_source] reaches from
    start-up. *)
Lemma reachable_part_files_are_distinct_witness :
  (∀ k l p, parts (demo_stored "parts/") !! k = Some l → p ∈ l →
            store_path (demo_stored "parts/") p
            = parts_directory (demo_stored "parts/") +:+ part_name k (part_index p)) ∧
  (∀ k1 k2 l1 l2 i1 i2 p1 p2,
     parts (demo_stored "parts/") !! k1 = Some l1 →
     parts (demo_stored "parts/") !! k2 = Some l2 →
     l1 !! i1 = Some p1 → l2 !! i2 = Some p2 →
     store_path (demo_stored "parts/") p1 = store_path (demo_stored "parts/") p2 →
     k1 = k2 ∧ i1 = i2).
Proof.
  destruct (reachable_part_files_are_distinct (H := demo_codec) "parts/" 1
              {[ "a.txt" := demo_source ]} [] (demo_stored "parts/"))
    as (Hnames & Hdistinct & _).
  - apply rtc_once. exists [], 1, Put, ("put a.txt" +:+ line_end).
    vm_compute; reflexivity.
  - split; [exact Hnames|exact Hdistinct].
Defined.

(** X21 at work on the put of [demo_source]. *)
Lemma put_completes_without_contention_witness :
  ∃ fuel s',
    handle_put_command (H := demo_codec) fuel ["put"; "a.txt"] (demo_system "parts/" [])
    = Some (s', Put_done) ∧
    stdout s' = stdout (demo_system "parts/" []) ++ [Put_completed "a.txt"] ∧
    memory_usage s' = memory_usage (demo_system "parts/" []).
Proof.
  apply (put_completes_without_contention (H := demo_codec) "put" "a.txt"
           (demo_system "parts/" []) demo_source).
  - reflexivity.
  - apply Z.ltb_lt. vm_compute; reflexivity.
  - vm_compute; reflexivity.
Defined.

(** X22 at work: the put of [demo_source], then the delete of file [0]. *)
Lemma put_then_delete_restores_the_disk_witness :
  disk (handle_delete_command ["delete"; "0"] (set_oracle [] (demo_stored "parts/"))).1
  = disk (demo_system "parts/" []).
Proof.
  destruct (put_then_delete_restores_the_disk (H := demo_codec) 1 "put" "a.txt"
              (demo_system "parts/" []) (demo_stored "parts/") "delete" "0" []
              (handle_delete_command ["delete"; "0"]
                 (set_oracle [] (demo_stored "parts/"))).1)
    as (f & _ & _ & _ & _ & Hsame).
  - apply demo_stored_run. by left.
  - reflexivity.
  - reflexivity.
  - vm_compute; reflexivity.
  - apply Hsame. intros i. apply lookup_singleton_ne. intros E. discriminate E.
Defined.

(** X23 at work on the get of the file stored by the put of [demo_source]. *)
Lemma get_writes_only_verified_data_witness :
  ∃ datas,
    Forall2 (λ p data, ∃ compressed,
               disk (demo_stored "parts/") !! store_path (demo_stored "parts/") p
               = Some compressed ∧
               @zlib_decompress demo_codec compressed = Some data ∧
               part_hash p = Some (@md5_hexdigest demo_codec data))
            (default [] (parts (demo_stored "parts/") !! 0)) datas ∧
    disk (after (demo_stored "parts/")
            (handle_get_command (H := demo_codec) 2 ["get"; "0"] (demo_stored "parts/")))
      !! "a.txt" = Some (concat datas).
Proof.
  apply (get_writes_only_verified_data (H := demo_codec) 2 "get" "0"
           (demo_stored "parts/")
           (after (demo_stored "parts/")
              (handle_get_command (H := demo_codec) 2 ["get"; "0"]
                 (demo_stored "parts/")))
           (mkFile 0 "a.txt" true 3)
           (default [] (parts (demo_stored "parts/") !! 0))).
  - reflexivity.
  - vm_compute; reflexivity.
  - reflexivity.
  - vm_compute; reflexivity.
  - intros p Hp E.
    assert (part_path p ∈ ["0_0.PART"; "0_1.PART"; "0_2.PART"]) as Hpath.
    { apply (list_elem_of_fmap_2 part_path) in Hp. exact Hp. }
    unfold store_path in E.
    change (parts_directory (demo_stored "parts/")) with "parts/" in E.
    change (file_name (mkFile 0 "a.txt" true 3)) with "a.txt" in E.
    discriminate E.
  - vm_compute; reflexivity.
Defined.

(** X24 at work: the lock of the part-id allocator times out, and then the
    monitor; one release is lost and reported, one batch stays counted. *)
Lemma lost_releases_are_counted_witness :
  ∃ msgs,
    stdout (after (demo_system "parts/" [true; true; false; false])
              (handle_put_command (H := demo_codec) 1 ["put"; "a.txt"]
                 (demo_system "parts/" [true; true; false; false])))
    = stdout (demo_system "parts/" [true; true; false; false]) ++ msgs ∧
    memory_usage (after (demo_system "parts/" [true; true; false; false])
                    (handle_put_command (H := demo_codec) 1 ["put"; "a.txt"]
                       (demo_system "parts/" [true; true; false; false])))
    = (memory_usage (demo_system "parts/" [true; true; false; false])
       + Z.of_nat (lost_releases msgs) * (Z.of_nat part_size * Z.of_nat batch_size))%Z.
Proof.
  apply (lost_releases_are_counted (H := demo_codec) 1 ["put"; "a.txt"]
           (demo_system "parts/" [true; true; false; false])).
  left. exists Put_aborted. vm_compute; reflexivity.
Defined.
